(** * FunctionMaxima: a partial function A -> V with an incrementally
    maintained view of its local maxima (function_maxima.h).

  The class template is embedded as a Section over the argument type [A],
  the value type [V] and their [operator<].  The two ordered containers are
  sequences kept in comparator order; iterators are positions (points) or
  node keys (maxima).  A comparison on [V] may throw: the [n]-th invocation
  of [operator<] on [V] throws [e] when [V_throws n = Some e].  Using an
  invalid iterator (dereferencing or incrementing [end()], erasing through
  a dead iterator) is undefined behaviour and is a result of its own.
  Decrementing [begin()] is what [erase] and [custom_insert] do on the
  first argument of the function; there the model follows the red-black
  tree of libstdc++, which hands back [end()] or [begin()]. *)

From Stdlib Require Import List Arith Bool Lia ZArith Sorted.
Import ListNotations.

Set Implicit Arguments.

(** ** Results of calls *)

(** What a [const] member function can do: return, throw, or run into
  undefined behaviour.  [n] counts the comparisons on [V] made so far. *)
Inductive res (E X : Type) : Type :=
| Val (x : X) (n : nat)
| Exn (e : E) (n : nat)
| UB.
Arguments Val {E X} x n.
Arguments Exn {E X} e n.
Arguments UB {E X}.

(** What a mutating member function can do; the object's state is the one
  at the moment of the return or of the throw. *)
Inductive outcome (E S X : Type) : Type :=
| Ret (x : X) (s : S) (n : nat)
| Thrown (e : E) (s : S) (n : nat)
| Undefined.
Arguments Ret {E S X} x s n.
Arguments Thrown {E S X} e s n.
Arguments Undefined {E S X}.

Module CMonad.
Definition C (E X : Type) : Type := nat -> res E X.
Definition ret {E X} (x : X) : C E X := fun n => Val x n.
Definition bind {E X Y} (c : C E X) (k : X -> C E Y) : C E Y :=
  fun n => match c n with
           | Val x n' => k x n'
           | Exn e n' => Exn e n'
           | UB => UB
           end.
(** A step that is defined or not, and compares nothing. *)
Definition defined {E X} (o : option X) : C E X :=
  fun n => match o with Some x => Val x n | None => UB end.
End CMonad.
Import CMonad.

Module MMonad.
Definition M (E S X : Type) : Type := S -> nat -> outcome E S X.
Definition mret {E S X} (x : X) : M E S X := fun s n => Ret x s n.
Definition mbind {E S X Y} (m : M E S X) (k : X -> M E S Y) : M E S Y :=
  fun s n => match m s n with
             | Ret x s' n' => k x s' n'
             | Thrown e s' n' => Thrown e s' n'
             | Undefined => Undefined
             end.
(** Running a [const] member function on the current object. *)
Definition run_const {E S X} (c : S -> C E X) : M E S X :=
  fun s n => match c s n with
             | Val x n' => Ret x s n'
             | Exn e n' => Thrown e s n'
             | UB => Undefined
             end.
Definition modify {E S} (f : S -> S) : M E S unit := fun s n => Ret tt (f s) n.
Definition modify_defined {E S} (f : S -> option S) : M E S unit :=
  fun s n => match f s with Some s' => Ret tt s' n | None => Undefined end.
(** [try { body } catch (...) { handler; throw; }] *)
Definition try_catch_rethrow {E S X} (body : M E S X) (handler : M E S unit)
  : M E S X :=
  fun s n => match body s n with
             | Thrown e s' n' =>
                 match handler s' n' with
                 | Ret _ s'' n'' => Thrown e s'' n''
                 | Thrown e' s'' n'' => Thrown e' s'' n''
                 | Undefined => Undefined
                 end
             | o => o
             end.
Fixpoint for_each {E S} (idx : list nat) (body : nat -> M E S unit)
  : M E S unit :=
  match idx with
  | [] => mret tt
  | i :: rest => mbind (body i) (fun _ => for_each rest body)
  end.
End MMonad.
Import MMonad.

Declare Scope fm_scope.
Delimit Scope fm_scope with fm.
Notation "x <- c ;; k" := (bind c (fun x => k))
(at level 61, c at next level, right associativity) : fm_scope.
Notation "x <~ m ;; k" := (mbind m (fun x => k))
(at level 61, m at next level, right associativity) : fm_scope.
Notation "m ;;; k" := (mbind m (fun _ => k))
(at level 61, right associativity) : fm_scope.

(** Exceptions: [InvalidArg] of the header, or whatever the user's
  comparison throws. *)
Inductive exn (U : Type) : Type :=
| InvalidArg
| UserExn (u : U).
Arguments InvalidArg {U}.
Arguments UserExn {U} u.

Section FunctionMaxima.
Local Open Scope fm_scope.

Variables A V U : Type.
Variable A_lt : A -> A -> bool.        (* operator< on A *)
Variable V_lt : V -> V -> bool.        (* operator< on V, when it returns *)
Variable V_throws : nat -> option U.   (* what its n-th invocation throws *)

Local Abbreviation C := (C (exn U)).

(** [v1 < v2] on [V]. *)
Definition V_less (v1 v2 : V) : C bool :=
  fun n => match V_throws n with
           | Some u => Exn (UserExn u) (S n)
           | None => Val (V_lt v1 v2) (S n)
           end.

Record point_type : Type := mk_point { arg : A; value : V }.

(** *** compare_points (three overloads) *)
Definition compare_points (lhs rhs : point_type) : bool :=
  A_lt (arg lhs) (arg rhs).
Definition compare_points_A_pt (lhs : A) (rhs : point_type) : bool :=
  A_lt lhs (arg rhs).
Definition compare_points_pt_A (lhs : point_type) (rhs : A) : bool :=
  A_lt (arg lhs) rhs.

(** *** compare_maxima *)
Definition compare_maxima (lhs rhs : point_type) : C bool :=
  b <- V_less (value rhs) (value lhs) ;;
  if b then ret true
  else b' <- V_less (value lhs) (value rhs) ;;
       if b' then ret false
       else ret (A_lt (arg lhs) (arg rhs)).

(** The order [compare_maxima] computes when nothing throws. *)
Definition maxima_before (lhs rhs : point_type) : bool :=
  if V_lt (value rhs) (value lhs) then true
  else if V_lt (value lhs) (value rhs) then false
  else A_lt (arg lhs) (arg rhs).

(** ** point_set: std::multiset<point_type, compare_points>

    The sequence of nodes in comparator order.  An iterator is [Some i]
    for the [i]-th node and [None] for [end()]. *)
Definition point_set := list point_type.
Definition iterator := option nat.

Definition it_eqb (p q : iterator) : bool :=
  match p, q with
  | Some i, Some j => Nat.eqb i j
  | None, None => true
  | _, _ => false
  end.

Definition points_end : iterator := None.
Definition points_begin (l : point_set) : iterator :=
  match l with [] => None | _ :: _ => Some 0 end.

(** std::next(p): undefined on [end()]. *)
Definition next (l : point_set) (p : iterator) : option iterator :=
  match p with
  | None => None
  | Some i => if S i <? length l then Some (Some (S i))
              else if i <? length l then Some None
              else None
  end.

(** The shape of the tree is not part of the sequence: whether its
    leftmost node is also its root is a parameter of the model. *)
Variable leftmost_is_root : point_set -> bool.

(** std::prev(p), also [--points.end()].  The standard does not say what
    the decrement of [begin()] gives; the program as built gets it from
    libstdc++, where _Rb_tree_decrement on the leftmost node climbs to the
    header: it yields [begin()] itself when the leftmost node is the root
    of the tree, and the header, which is [end()], when it is not. *)
Definition prev (l : point_set) (p : iterator) : option iterator :=
  match p with
  | Some 0 => match l with
              | [] => None
              | _ :: _ => Some (if leftmost_is_root l then Some 0
                                else points_end)
              end
  | Some (S i) => if S i <? length l then Some (Some i) else None
  | None => match length l with 0 => None | S k => Some (Some k) end
  end.

(** [*p]: undefined on [end()]. *)
Definition deref (l : point_set) (p : iterator) : option point_type :=
  match p with
  | None => None
  | Some i => nth_error l i
  end.

Fixpoint lower_bound (a : A) (l : point_set) : nat :=
  match l with
  | [] => 0
  | p :: r => if compare_points_pt_A p a then S (lower_bound a r) else 0
  end.

(** points.find(a) *)
Definition points_find (a : A) (l : point_set) : iterator :=
  let j := lower_bound a l in
  match nth_error l j with
  | Some p => if compare_points_A_pt a p then None else Some j
  | None => None
  end.

Fixpoint upper_bound (p : point_type) (l : point_set) : nat :=
  match l with
  | [] => 0
  | q :: r => if compare_points p q then 0 else S (upper_bound p r)
  end.

Fixpoint insert_at (i : nat) (p : point_type) (l : point_set) : point_set :=
  match i, l with
  | 0, _ => p :: l
  | S j, q :: r => q :: insert_at j p r
  | S _, [] => [p]
  end.

(** points.insert(p): a multiset puts [p] after the nodes equivalent to
    it; the new sequence and the iterator to the new node. *)
Definition points_insert (p : point_type) (l : point_set)
  : point_set * iterator :=
  let i := upper_bound p l in (insert_at i p l, Some i).

(** An iterator taken before [points.insert] put a node at position [pos],
    seen in the sequence after it: nodes do not move, positions do. *)
Definition after_insert (pos : nat) (p : iterator) : iterator :=
  match p with
  | Some i => if pos <=? i then Some (S i) else Some i
  | None => None
  end.

Fixpoint remove_at (i : nat) (l : point_set) : option point_set :=
  match i, l with
  | _, [] => None
  | 0, _ :: r => Some r
  | S j, q :: r => option_map (cons q) (remove_at j r)
  end.

(** points.erase(p): undefined on [end()]. *)
Definition points_erase (p : iterator) (l : point_set) : option point_set :=
  match p with
  | None => None
  | Some i => remove_at i l
  end.

(** ** maxima_set: std::set<point_type, compare_maxima>

    The sequence of nodes in comparator order; the search of the tree is
    a scan of that sequence, asking the comparator at every node it
    passes.  Keys are unique up to the comparator, so an iterator is the
    key of its node ([None] for [end()]). *)
Definition maxima_set := list point_type.
Definition mx_iterator := option point_type.

(** maxima.find(k) *)
Fixpoint maxima_find (k : point_type) (l : maxima_set) : C mx_iterator :=
  match l with
  | [] => ret None
  | q :: r =>
      b <- compare_maxima q k ;;
      if b then maxima_find k r
      else b' <- compare_maxima k q ;;
           if b' then ret None else ret (Some q)
  end.

(** maxima.insert(k): the new sequence and the pair (iterator, inserted). *)
Fixpoint maxima_insert (k : point_type) (l : maxima_set)
  : C (maxima_set * (mx_iterator * bool)) :=
  match l with
  | [] => ret ([k], (Some k, true))
  | q :: r =>
      b <- compare_maxima q k ;;
      if b then
        lr <- maxima_insert k r ;;
        ret (q :: fst lr, snd lr)
      else
        b' <- compare_maxima k q ;;
        if b' then ret (k :: q :: r, (Some k, true))
        else ret (q :: r, (Some q, false))
  end.

(** Two keys that name the same node. *)
Definition same_node (p q : point_type) : bool :=
  negb (maxima_before p q) && negb (maxima_before q p).

Fixpoint unlink (p : point_type) (l : maxima_set) : option maxima_set :=
  match l with
  | [] => None
  | q :: r => if same_node p q then Some r
              else option_map (cons q) (unlink p r)
  end.

(** maxima.erase(it): no comparison; undefined on [end()] and on an
    iterator whose node is gone. *)
Definition maxima_erase (it : mx_iterator) (l : maxima_set)
  : option maxima_set :=
  match it with
  | None => None
  | Some p => unlink p l
  end.

(** ** The object *)
Definition NUMBER_TO_ERASE : nat := 5.
Definition NUMBER_TO_ROLLBACK : nat := 4.

Record FM : Type := mk_FM {
  points : point_set;
  maxima : maxima_set;
  to_erase : list mx_iterator;
  to_rollback : list mx_iterator;
  if_erase : list bool;
  if_rollback : list bool
}.

Local Abbreviation M := (M (exn U) FM).

Definition set_points (l : point_set) (s : FM) : FM :=
  mk_FM l (maxima s) (to_erase s) (to_rollback s) (if_erase s) (if_rollback s).
Definition set_maxima (m : maxima_set) (s : FM) : FM :=
  mk_FM (points s) m (to_erase s) (to_rollback s) (if_erase s) (if_rollback s).
Definition set_to_erase (b : list mx_iterator) (s : FM) : FM :=
  mk_FM (points s) (maxima s) b (to_rollback s) (if_erase s) (if_rollback s).
Definition set_to_rollback (b : list mx_iterator) (s : FM) : FM :=
  mk_FM (points s) (maxima s) (to_erase s) b (if_erase s) (if_rollback s).
Definition set_if_erase (b : list bool) (s : FM) : FM :=
  mk_FM (points s) (maxima s) (to_erase s) (to_rollback s) b (if_rollback s).
Definition set_if_rollback (b : list bool) (s : FM) : FM :=
  mk_FM (points s) (maxima s) (to_erase s) (to_rollback s) (if_erase s) b.

(** [buf[i] = x]: undefined outside the array. *)
Fixpoint store {X} (i : nat) (x : X) (buf : list X) : option (list X) :=
  match i, buf with
  | _, [] => None
  | 0, _ :: r => Some (x :: r)
  | S j, y :: r => option_map (cons y) (store j x r)
  end.

(** FunctionMaxima(): empty containers, value-initialised buffers. *)
Definition FunctionMaxima : FM :=
  mk_FM [] [] (repeat None NUMBER_TO_ERASE) (repeat None NUMBER_TO_ROLLBACK)
        (repeat false NUMBER_TO_ERASE) (repeat false NUMBER_TO_ROLLBACK).

Definition clear_erase : M unit :=
  modify (fun s => set_if_erase (repeat false NUMBER_TO_ERASE) s).

Definition clear_rollback : M unit :=
  modify (fun s => set_if_rollback (repeat false NUMBER_TO_ROLLBACK) s).

Definition rollback_maxima : M unit :=
  for_each (seq 0 NUMBER_TO_ROLLBACK) (fun i =>
    modify_defined (fun s =>
      match nth_error (if_rollback s) i, nth_error (to_rollback s) i with
      | Some true, Some it =>
          option_map (fun m => set_maxima m s) (maxima_erase it (maxima s))
      | Some false, Some _ => Some s
      | _, _ => None
      end)).

Definition erase_from_maxima : M unit :=
  for_each (seq 0 NUMBER_TO_ERASE) (fun i =>
    modify_defined (fun s =>
      match nth_error (if_erase s) i, nth_error (to_erase s) i with
      | Some true, Some it =>
          option_map (fun m => set_maxima m s) (maxima_erase it (maxima s))
      | Some false, Some _ => Some s
      | _, _ => None
      end)).

(** ** Neighbours, skipping the node that is about to go *)

Definition obind {X Y} (o : option X) (k : X -> option Y) : option Y :=
  match o with Some x => k x | None => None end.

Definition multi_prev (l : point_set) (p to_be_erased : iterator)
  : option iterator :=
  obind (prev l p) (fun pp =>
    if it_eqb pp to_be_erased then prev l pp else Some pp).

Definition multi_next (l : point_set) (p previous : iterator)
  : option iterator :=
  if it_eqb p points_end then Some points_end
  else obind (next l p) (fun np =>
    if it_eqb np points_end then Some points_end
    else if it_eqb np previous then next l np else Some np).

Definition multi_is_beginning (l : point_set) (p previous : iterator)
  : option bool :=
  if it_eqb p (points_begin l) then Some true
  else obind (prev l p) (fun pp =>
    if it_eqb pp previous && it_eqb pp (points_begin l) then Some true
    else Some false).

Definition multi_is_ending (l : point_set) (p previous : iterator)
  : option bool :=
  obind (prev l points_end) (fun last =>
    if it_eqb p last then Some true
    else obind (next l p) (fun np =>
      if it_eqb np previous && it_eqb np last then Some true
      else Some false)).

Definition greater_than_next (l : point_set) (p previous : iterator) : C bool :=
  e <- defined (multi_is_ending l p previous) ;;
  if e then ret true
  else
    x <- defined (deref l p) ;;
    q <- defined (multi_next l p previous) ;;
    y <- defined (deref l q) ;;
    b <- V_less (value x) (value y) ;;
    if b then ret false else ret true.

Definition greater_than_prev (l : point_set) (p previous : iterator) : C bool :=
  e <- defined (multi_is_beginning l p previous) ;;
  if e then ret true
  else
    x <- defined (deref l p) ;;
    q <- defined (multi_prev l p previous) ;;
    y <- defined (deref l q) ;;
    b <- V_less (value x) (value y) ;;
    if b then ret false else ret true.

Definition is_maximum (l : point_set) (p previous : iterator) : C bool :=
  g <- greater_than_prev l p previous ;;
  if g then greater_than_next l p previous else ret false.

Definition present_in_maxima_set (p : point_type) (m : maxima_set) : C bool :=
  it <- maxima_find p m ;;
  ret (match it with Some _ => true | None => false end).

(** [maxima.insert(x).first], as a step on the object. *)
Definition maxima_insert_first (x : point_type) : M mx_iterator :=
  fun s n => match maxima_insert x (maxima s) n with
             | Val r n' => Ret (fst (snd r)) (set_maxima (fst r) s) n'
             | Exn e n' => Thrown e s n'
             | UB => Undefined
             end.

Definition store_to_rollback (i : nat) (it : mx_iterator) : M unit :=
  modify_defined (fun s =>
    option_map (fun b => set_to_rollback b s) (store i it (to_rollback s))).
Definition store_if_rollback (i : nat) (b : bool) : M unit :=
  modify_defined (fun s =>
    option_map (fun f => set_if_rollback f s) (store i b (if_rollback s))).
Definition store_to_erase (i : nat) (it : mx_iterator) : M unit :=
  modify_defined (fun s =>
    option_map (fun b => set_to_erase b s) (store i it (to_erase s))).
Definition store_if_erase (i : nat) (b : bool) : M unit :=
  modify_defined (fun s =>
    option_map (fun f => set_if_erase f s) (store i b (if_erase s))).

Definition conditional_add_new_maximum (it : iterator) (i : nat)
                                       (previous : iterator) : M unit :=
  if it_eqb it points_end || it_eqb it previous then mret tt
  else
    is_max <~ run_const (fun s => is_maximum (points s) it previous) ;;
    if (is_max : bool) then
      present <~ run_const (fun s =>
        x <- defined (deref (points s) it) ;;
        present_in_maxima_set x (maxima s)) ;;
      if negb present then
        x <~ run_const (fun s => defined (deref (points s) it)) ;;
        r <~ maxima_insert_first x ;;
        store_to_rollback i r ;;;
        store_if_rollback i true
      else mret tt
    else
      present <~ run_const (fun s =>
        x <- defined (deref (points s) it) ;;
        present_in_maxima_set x (maxima s)) ;;
      if (present : bool) then
        f <~ run_const (fun s =>
          x <- defined (deref (points s) it) ;;
          maxima_find x (maxima s)) ;;
        store_to_erase i f ;;;
        store_if_erase i true
      else mret tt.

Definition equivalent (v1 v2 : V) : C bool :=
  b <- V_less v1 v2 ;;
  if b then ret false
  else b' <- V_less v2 v1 ;;
       if b' then ret false else ret true.

(** [points.insert(point_type(a, v))], as a step on the object. *)
Definition points_insert_new (p : point_type) : M iterator :=
  fun s n => let r := points_insert p (points s) in
             Ret (snd r) (set_points (fst r) s) n.

Definition points_erase_at (p : iterator) : M unit :=
  modify_defined (fun s =>
    option_map (fun l => set_points l s) (points_erase p (points s))).

(** The [try] block of [custom_insert]: [it] is the new node, [previous]
    the node it supersedes ([end()] when [found] is false). *)
Definition custom_insert_try (it previous : iterator) (found : bool) : M unit :=
  conditional_add_new_maximum it 1 previous ;;;
  nx <~ run_const (fun s => defined (multi_next (points s) it previous)) ;;
  conditional_add_new_maximum nx 2 previous ;;;
  at_begin <~ run_const (fun s => ret (it_eqb it (points_begin (points s)))) ;;
  (if negb at_begin
   then pv <~ run_const (fun s =>
                defined (multi_prev (points s) it previous)) ;;
        conditional_add_new_maximum pv 3 previous
   else mret tt) ;;;
  if found then
    temp <~ run_const (fun s =>
              p <- defined (deref (points s) previous) ;;
              maxima_find p (maxima s)) ;;
    (match temp with
     | Some _ => store_to_erase 4 temp ;;; store_if_erase 4 true
     | None => mret tt
     end) ;;;
    points_erase_at previous
  else mret tt.

(** Its [catch (...)] block, before the [throw;]. *)
Definition custom_insert_catch (it : iterator) : M unit :=
  points_erase_at it ;;;
  rollback_maxima ;;;
  clear_rollback ;;;
  clear_erase.

Definition custom_insert (a : A) (v : V) : M unit :=
  previous <~ run_const (fun s => ret (points_find a (points s))) ;;
  same <~ (if negb (it_eqb previous points_end)
           then run_const (fun s =>
                  x <- defined (deref (points s) previous) ;;
                  equivalent v (value x))
           else mret false) ;;
  if (same : bool) then mret tt
  else
    let found := negb (it_eqb previous points_end) in
    it <~ points_insert_new (mk_point a v) ;;
    let previous :=
      match it with Some pos => after_insert pos previous | None => previous end in
    try_catch_rethrow (custom_insert_try it previous found)
                      (custom_insert_catch it) ;;;
    erase_from_maxima ;;;
    clear_rollback ;;;
    clear_erase.

Definition set_value (a : A) (v : V) : M unit := custom_insert a v.

(** The [try] block of [erase]: [it] is the node to erase, [it2] its node
    in the maxima. *)
Definition erase_try (it : iterator) (it2 : mx_iterator) : M unit :=
  (match it2 with
   | Some _ => store_to_erase 0 it2 ;;; store_if_erase 0 true
   | None => mret tt
   end) ;;;
  nx <~ run_const (fun s => defined (next (points s) it)) ;;
  conditional_add_new_maximum nx 2 it ;;;
  pv <~ run_const (fun s => defined (prev (points s) it)) ;;
  conditional_add_new_maximum pv 3 it.

(** Its [catch (...)] block, before the [throw;]. *)
Definition erase_catch : M unit :=
  rollback_maxima ;;;
  clear_rollback ;;;
  clear_erase.

Definition erase (a : A) : M unit :=
  it <~ run_const (fun s => ret (points_find a (points s))) ;;
  if negb (it_eqb it points_end) then
    it2 <~ run_const (fun s =>
             p <- defined (deref (points s) it) ;;
             maxima_find p (maxima s)) ;;
    try_catch_rethrow (erase_try it it2) erase_catch ;;;
    erase_from_maxima ;;;
    points_erase_at it ;;;
    clear_rollback ;;;
    clear_erase
  else mret tt.

Definition size (s : FM) : nat := length (points s).

Definition value_at (a : A) (s : FM) : C V :=
  let res_it := points_find a (points s) in
  if it_eqb res_it points_end then (fun n => Exn InvalidArg n)
  else x <- defined (deref (points s) res_it) ;; ret (value x).

(** [begin() .. end()] and [mx_begin() .. mx_end()]. *)
Definition point_sequence (s : FM) : list point_type := points s.
Definition maxima_sequence (s : FM) : list point_type := maxima s.

(** ** The rest of the public interface *)

(** begin(), end(), find(a): iterators into the points. *)
Definition begin (s : FM) : iterator := points_begin (points s).
Definition end_ (s : FM) : iterator := points_end.
Definition find (a : A) (s : FM) : iterator := points_find a (points s).

(** mx_begin(), mx_end(): iterators into the maxima. *)
Definition mx_begin (s : FM) : mx_iterator :=
  match maxima s with [] => None | p :: _ => Some p end.
Definition mx_end (s : FM) : mx_iterator := None.

(** FunctionMaxima(const FunctionMaxima& rhs): the two containers are
    copied, the buffers are value-initialised. *)
Definition copy_construct (rhs : FM) : FM :=
  mk_FM (points rhs) (maxima rhs)
        (repeat None NUMBER_TO_ERASE) (repeat None NUMBER_TO_ROLLBACK)
        (repeat false NUMBER_TO_ERASE) (repeat false NUMBER_TO_ROLLBACK).

(** swap(rhs): member by member; the new [*this] and the new [rhs]. *)
Definition swap (this rhs : FM) : FM * FM :=
  (mk_FM (points rhs) (maxima rhs) (to_erase rhs) (to_rollback rhs)
         (if_erase rhs) (if_rollback rhs),
   mk_FM (points this) (maxima this) (to_erase this) (to_rollback this)
         (if_erase this) (if_rollback this)).

(** operator=(rhs) compares [this] with [&rhs]: the objects live at
    addresses, positions of a list.  Otherwise a temporary copy of [rhs]
    is swapped with [*this] and dies with the old state. *)
Definition objects := list FM.

Definition operator_assign (this rhs : nat) (h : objects) : option objects :=
  if this =? rhs then
    match nth_error h this with Some _ => Some h | None => None end
  else
    match nth_error h rhs, nth_error h this with
    | Some r, Some t =>
        let temp := copy_construct r in
        let (_, this') := swap temp t in
        store this this' h
    | _, _ => None
    end.

Unset Implicit Arguments.

(** ** Reading the monadic code *)

Lemma bind_Val X Y (c : C X) (k : X -> C Y) n y n' :
  bind c k n = Val y n' -> exists x n1, c n = Val x n1 /\ k x n1 = Val y n'.
Proof.
  unfold bind. destruct (c n) as [x n1| |]; try discriminate. eauto.
Qed.

Lemma bind_Exn X Y (c : C X) (k : X -> C Y) n e n' :
  bind c k n = Exn e n' ->
  c n = Exn e n' \/ exists x n1, c n = Val x n1 /\ k x n1 = Exn e n'.
Proof.
  unfold bind. destruct (c n) as [x n1|e1 n1|]; try discriminate; intros H.
  - right. eauto.
  - left. inversion H. reflexivity.
Qed.

Lemma mbind_Ret X Y (m : M X) (k : X -> M Y) s n y s' n' :
  mbind m k s n = Ret y s' n' ->
  exists x s1 n1, m s n = Ret x s1 n1 /\ k x s1 n1 = Ret y s' n'.
Proof.
  unfold mbind. destruct (m s n) as [x s1 n1| |]; try discriminate. eauto.
Qed.

Lemma mbind_Thrown X Y (m : M X) (k : X -> M Y) s n e s' n' :
  mbind m k s n = Thrown e s' n' ->
  m s n = Thrown e s' n' \/
  exists x s1 n1, m s n = Ret x s1 n1 /\ k x s1 n1 = Thrown e s' n'.
Proof.
  unfold mbind. destruct (m s n) as [x s1 n1|e1 s1 n1|]; try discriminate;
    intros H.
  - right. eauto.
  - left. inversion H. reflexivity.
Qed.

Lemma run_const_Ret X (c : FM -> C X) s n x s' n' :
  run_const c s n = Ret x s' n' -> s' = s /\ c s n = Val x n'.
Proof.
  unfold run_const. destruct (c s n); try discriminate.
  intros H; inversion H; subst; auto.
Qed.

Lemma run_const_Thrown X (c : FM -> C X) s n e s' n' :
  run_const c s n = Thrown e s' n' -> s' = s /\ c s n = Exn e n'.
Proof.
  unfold run_const. destruct (c s n); try discriminate.
  intros H; inversion H; subst; auto.
Qed.

Lemma defined_Val X (o : option X) n x n' :
  @defined (exn U) X o n = Val x n' -> o = Some x /\ n' = n.
Proof.
  unfold defined. destruct o; try discriminate.
  intros H; inversion H; subst; auto.
Qed.

Lemma defined_Exn X (o : option X) n e n' :
  @defined (exn U) X o n = Exn e n' -> False.
Proof. unfold defined. destruct o; discriminate. Qed.

Lemma modify_defined_Ret (f : FM -> option FM) s n s' n' :
  @modify_defined (exn U) FM f s n = Ret tt s' n' -> f s = Some s' /\ n' = n.
Proof.
  unfold modify_defined. destruct (f s); try discriminate.
  intros H; inversion H; subst; auto.
Qed.

Lemma modify_defined_Thrown (f : FM -> option FM) s n e s' n' :
  @modify_defined (exn U) FM f s n = Thrown e s' n' -> False.
Proof. unfold modify_defined. destruct (f s); discriminate. Qed.

Lemma ret_Val X (x : X) n y n' :
  @ret (exn U) X x n = Val y n' -> y = x /\ n' = n.
Proof. unfold ret. intros H. inversion H. auto. Qed.

Lemma mret_Ret X (x : X) s n y s' n' :
  @mret (exn U) FM X x s n = Ret y s' n' -> y = x /\ s' = s /\ n' = n.
Proof. unfold mret. intros H. inversion H. auto. Qed.

Lemma try_catch_rethrow_Ret X (body : M X) handler s n x s' n' :
  try_catch_rethrow body handler s n = Ret x s' n' -> body s n = Ret x s' n'.
Proof.
  unfold try_catch_rethrow. destruct (body s n) as [y s1 n1|e s1 n1|]; auto.
  destruct (handler s1 n1); discriminate.
Qed.

Lemma try_catch_rethrow_Thrown X (body : M X) handler s n e s' n' :
  try_catch_rethrow body handler s n = Thrown e s' n' ->
  exists e1 s1 n1, body s n = Thrown e1 s1 n1 /\
    ((exists u, handler s1 n1 = Ret u s' n' /\ e = e1) \/
     handler s1 n1 = Thrown e s' n').
Proof.
  unfold try_catch_rethrow. destruct (body s n) as [y s1 n1|e1 s1 n1|];
    try discriminate.
  intros H. exists e1, s1, n1. split; auto.
  destruct (handler s1 n1) as [u s2 n2|e2 s2 n2|]; try discriminate.
  - injection H as <- <- <-. left. eauto.
  - injection H as <- <- <-. right. auto.
Qed.

Lemma modify_Ret (f : FM -> FM) s n s' n' :
  @modify (exn U) FM f s n = Ret tt s' n' -> s' = f s /\ n' = n.
Proof. unfold modify. intros H. inversion H. auto. Qed.

Lemma points_insert_new_Ret p s n it s' n' :
  points_insert_new p s n = Ret it s' n' ->
  it = Some (upper_bound p (points s)) /\
  s' = set_points (insert_at (upper_bound p (points s)) p (points s)) s /\
  n' = n.
Proof. unfold points_insert_new. simpl. intros H. inversion H. auto. Qed.

Lemma V_less_Val v1 v2 n b n' :
  V_less v1 v2 n = Val b n' -> b = V_lt v1 v2.
Proof.
  unfold V_less. destruct (V_throws n); try discriminate.
  intros H; inversion H; auto.
Qed.

(** Breaks an equation [code = Val ..] or [code = Ret ..] into its steps. *)
Ltac step_in H :=
  match type of H with
  | bind _ _ _ = Val _ _ =>
      let x := fresh "x" in let n := fresh "n" in
      let H1 := fresh "Hs" in
      apply bind_Val in H; destruct H as (x & n & H1 & H)
  | mbind _ _ _ _ = Ret _ _ _ =>
      let x := fresh "x" in let s := fresh "s" in let n := fresh "n" in
      let H1 := fresh "Hs" in
      apply mbind_Ret in H; destruct H as (x & s & n & H1 & H)
  | ret _ _ = Val _ _ => unfold ret in H; inversion H; clear H; subst
  | mret _ _ _ = Ret _ _ _ => unfold mret in H; inversion H; clear H; subst
  | defined _ _ = Val _ _ =>
      let H1 := fresh "Hd" in
      apply defined_Val in H; destruct H as (H1 & H); subst
  | V_less _ _ _ = Val _ _ => apply V_less_Val in H
  | run_const _ _ _ = Ret _ _ _ =>
      let H1 := fresh "Hc" in
      apply run_const_Ret in H; destruct H as (H1 & H); subst
  | modify_defined _ _ _ = Ret ?u _ _ =>
      let H1 := fresh "Hm" in
      destruct u; apply modify_defined_Ret in H; destruct H as (H1 & H); subst
  end.

(** Does so all the way down, until a test on a value not yet known. *)
Ltac break H :=
  lazymatch type of H with
  | bind _ _ _ = Val _ _ =>
      let x := fresh "x" in let n := fresh "n" in
      let H1 := fresh "Hs" in
      apply bind_Val in H; destruct H as (x & n & H1 & H); break H1; break H
  | mbind _ _ _ _ = Ret _ _ _ =>
      let x := fresh "x" in let s := fresh "s" in let n := fresh "n" in
      let H1 := fresh "Hs" in
      apply mbind_Ret in H; destruct H as (x & s & n & H1 & H);
      break H1; break H
  | ret _ _ = Val ?y ?m =>
      let H1 := fresh in
      apply ret_Val in H; destruct H as (H1 & H); try subst y; try subst m
  | mret _ _ _ = Ret ?y ?s ?m =>
      let H1 := fresh in let H2 := fresh in
      apply mret_Ret in H; destruct H as (H1 & H2 & H);
      try subst y; try subst s; try subst m
  | defined _ _ = Val _ ?m =>
      let H1 := fresh "Hd" in
      apply defined_Val in H; destruct H as (H1 & H); try subst m
  | V_less _ _ _ = Val ?b _ => apply V_less_Val in H; try subst b
  | run_const _ _ _ = Ret _ ?s _ =>
      let H1 := fresh "Hc" in
      apply run_const_Ret in H; destruct H as (H1 & H); try subst s; break H
  | modify_defined _ _ _ = Ret ?u _ ?m =>
      let H1 := fresh "Hm" in
      destruct u; apply modify_defined_Ret in H; destruct H as (H1 & H);
      try subst m
  | store_to_rollback _ _ _ _ = Ret _ _ _ =>
      unfold store_to_rollback in H; break H
  | store_if_rollback _ _ _ _ = Ret _ _ _ =>
      unfold store_if_rollback in H; break H
  | store_to_erase _ _ _ _ = Ret _ _ _ => unfold store_to_erase in H; break H
  | store_if_erase _ _ _ _ = Ret _ _ _ => unfold store_if_erase in H; break H
  | points_erase_at _ _ _ = Ret _ _ _ => unfold points_erase_at in H; break H
  | try_catch_rethrow _ _ _ _ = Ret _ _ _ =>
      apply try_catch_rethrow_Ret in H; break H
  | modify _ _ _ = Ret ?u ?s ?m =>
      let H1 := fresh in
      destruct u; apply modify_Ret in H; destruct H as (H1 & H);
      try subst s; try subst m
  | clear_erase _ _ = Ret _ _ _ => unfold clear_erase in H; break H
  | clear_rollback _ _ = Ret _ _ _ => unfold clear_rollback in H; break H
  | points_insert_new _ _ _ = Ret ?it ?s ?m =>
      let H1 := fresh in let H2 := fresh in
      apply points_insert_new_Ret in H; destruct H as (H1 & H2 & H);
      try subst it; try subst s; try subst m
  | _ => idtac
  end.

Lemma mret_Thrown X (x : X) s n e s' n' :
  @mret (exn U) FM X x s n = Thrown e s' n' -> False.
Proof. discriminate. Qed.

(** The same for an equation [code = Thrown ..]: one goal per step that
    can have thrown. *)
Ltac breakT H :=
  lazymatch type of H with
  | mbind _ _ _ _ = Thrown _ _ _ =>
      let x := fresh "x" in let s := fresh "s" in let n := fresh "n" in
      let H1 := fresh "Hs" in
      apply mbind_Thrown in H; destruct H as [H | (x & s & n & H1 & H)];
      [breakT H | break H1; breakT H]
  | run_const _ _ _ = Thrown _ ?s _ =>
      let H1 := fresh "Hc" in
      apply run_const_Thrown in H; destruct H as (H1 & H); try subst s
  | modify_defined _ _ _ = Thrown _ _ _ =>
      exfalso; exact (modify_defined_Thrown _ _ _ _ _ _ H)
  | mret _ _ _ = Thrown _ _ _ => exfalso; exact (mret_Thrown _ _ _ _ _ _ _ H)
  | store_to_rollback _ _ _ _ = Thrown _ _ _ =>
      unfold store_to_rollback in H; breakT H
  | store_if_rollback _ _ _ _ = Thrown _ _ _ =>
      unfold store_if_rollback in H; breakT H
  | store_to_erase _ _ _ _ = Thrown _ _ _ =>
      unfold store_to_erase in H; breakT H
  | store_if_erase _ _ _ _ = Thrown _ _ _ =>
      unfold store_if_erase in H; breakT H
  | points_erase_at _ _ _ = Thrown _ _ _ =>
      unfold points_erase_at in H; breakT H
  | _ => idtac
  end.

Ltac split_if H :=
  match type of H with
  | (if ?c then _ else _) _ _ = _ => destruct c eqn:?
  | (if ?c then _ else _) _ = _ => destruct c eqn:?
  end.

(** ** What the comparisons compute when they return *)

Lemma compare_maxima_Val p q n b n' :
  compare_maxima p q n = Val b n' -> b = maxima_before p q.
Proof.
  unfold compare_maxima, maxima_before. intros H.
  step_in H. step_in Hs. subst x.
  destruct (V_lt (value q) (value p)).
  - step_in H. reflexivity.
  - step_in H. step_in Hs. subst x.
    destruct (V_lt (value p) (value q)); step_in H; reflexivity.
Qed.

Lemma equivalent_Val v1 v2 n b n' :
  equivalent v1 v2 n = Val b n' ->
  b = negb (V_lt v1 v2) && negb (V_lt v2 v1).
Proof.
  unfold equivalent. intros H.
  step_in H. step_in Hs. subst x.
  destruct (V_lt v1 v2).
  - step_in H. reflexivity.
  - step_in H. step_in Hs. subst x.
    destruct (V_lt v2 v1); step_in H; reflexivity.
Qed.

(** The node [maxima.find] reaches, and the sequence [maxima.insert]
    builds, when no comparison on the way throws. *)
Fixpoint find_node (k : point_type) (l : maxima_set) : mx_iterator :=
  match l with
  | [] => None
  | q :: r => if maxima_before q k then find_node k r
              else if maxima_before k q then None else Some q
  end.

Fixpoint insert_node (k : point_type) (l : maxima_set)
  : maxima_set * (mx_iterator * bool) :=
  match l with
  | [] => ([k], (Some k, true))
  | q :: r => if maxima_before q k
              then (q :: fst (insert_node k r), snd (insert_node k r))
              else if maxima_before k q then (k :: q :: r, (Some k, true))
              else (q :: r, (Some q, false))
  end.

Lemma maxima_find_Val k l : forall n r n',
  maxima_find k l n = Val r n' -> r = find_node k l.
Proof.
  induction l as [|q l IH]; simpl; intros n r n' H.
  - step_in H. reflexivity.
  - step_in H. apply compare_maxima_Val in Hs. subst x.
    destruct (maxima_before q k).
    + eauto.
    + step_in H. apply compare_maxima_Val in Hs. subst x.
      destruct (maxima_before k q); step_in H; reflexivity.
Qed.

Lemma maxima_insert_Val k l : forall n r n',
  maxima_insert k l n = Val r n' -> r = insert_node k l.
Proof.
  induction l as [|q l IH]; simpl; intros n r n' H.
  - step_in H. reflexivity.
  - step_in H. apply compare_maxima_Val in Hs. subst x.
    destruct (maxima_before q k).
    + step_in H. apply IH in Hs. subst x. step_in H. reflexivity.
    + step_in H. apply compare_maxima_Val in Hs. subst x.
      destruct (maxima_before k q); step_in H; reflexivity.
Qed.

(** ** The orders

    [A] is strictly and totally ordered; [V] carries a strict weak order:
    two values are equivalent when neither is less than the other. *)
Hypothesis A_lt_irrefl : forall a, A_lt a a = false.
Hypothesis A_lt_trans :
  forall a b c, A_lt a b = true -> A_lt b c = true -> A_lt a c = true.
Hypothesis A_lt_total :
  forall a b, A_lt a b = false -> A_lt b a = false -> a = b.
Hypothesis V_lt_irrefl : forall v, V_lt v v = false.
Hypothesis V_lt_trans :
  forall u v w, V_lt u v = true -> V_lt v w = true -> V_lt u w = true.
Hypothesis V_lt_incomparable :
  forall u v w, V_lt u v = false -> V_lt v w = false -> V_lt u w = false.

Lemma V_lt_below u v w :
  V_lt u v = true -> V_lt w v = false -> V_lt u w = true.
Proof.
  intros Huv Hwv. destruct (V_lt u w) eqn:E; auto.
  rewrite (V_lt_incomparable _ _ _ E Hwv) in Huv. discriminate.
Qed.

Lemma V_lt_above u v w :
  V_lt u v = true -> V_lt u w = false -> V_lt w v = true.
Proof.
  intros Huv Huw. destruct (V_lt w v) eqn:E; auto.
  rewrite (V_lt_incomparable _ _ _ Huw E) in Huv. discriminate.
Qed.

Lemma maxima_before_irrefl p : maxima_before p p = false.
Proof. unfold maxima_before. now rewrite V_lt_irrefl, A_lt_irrefl. Qed.

Lemma maxima_before_trans p q r :
  maxima_before p q = true -> maxima_before q r = true ->
  maxima_before p r = true.
Proof.
  unfold maxima_before. intros H1 H2.
  destruct (V_lt (value q) (value p)) eqn:Eqp.
  - destruct (V_lt (value r) (value q)) eqn:Erq.
    + now rewrite (V_lt_trans _ _ _ Erq Eqp).
    + destruct (V_lt (value q) (value r)) eqn:Eqr; try discriminate.
      now rewrite (V_lt_above _ _ _ Eqp Eqr).
  - destruct (V_lt (value p) (value q)) eqn:Epq; try discriminate.
    destruct (V_lt (value r) (value q)) eqn:Erq.
    + now rewrite (V_lt_below _ _ _ Erq Epq).
    + destruct (V_lt (value q) (value r)) eqn:Eqr; try discriminate.
      rewrite (V_lt_incomparable _ _ _ Erq Eqp).
      rewrite (V_lt_incomparable _ _ _ Epq Eqr). eauto.
Qed.

Lemma same_node_iff p q :
  same_node p q = true <->
  arg p = arg q /\ V_lt (value p) (value q) = false
                /\ V_lt (value q) (value p) = false.
Proof.
  unfold same_node, maxima_before. split.
  - intros H. apply andb_true_iff in H. destruct H as [H1 H2].
    apply negb_true_iff in H1, H2.
    destruct (V_lt (value q) (value p)); try discriminate.
    destruct (V_lt (value p) (value q)); try discriminate. auto.
  - intros (Ha & H1 & H2). rewrite H1, H2, Ha, A_lt_irrefl. reflexivity.
Qed.

Lemma same_node_refl p : same_node p p = true.
Proof. apply same_node_iff. auto. Qed.

Lemma same_node_sym p q : same_node p q = same_node q p.
Proof. unfold same_node. apply andb_comm. Qed.

Lemma same_node_before p q x :
  same_node p q = true -> maxima_before q x = true -> maxima_before p x = true.
Proof.
  intros H. apply same_node_iff in H. destruct H as (Ha & H1 & H2).
  unfold maxima_before. rewrite Ha.
  destruct (V_lt (value x) (value q)) eqn:Exq.
  - intros _. now rewrite (V_lt_below _ _ _ Exq H1).
  - destruct (V_lt (value q) (value x)) eqn:Eqx; try discriminate.
    rewrite (V_lt_incomparable _ _ _ Exq H2).
    now rewrite (V_lt_incomparable _ _ _ H1 Eqx).
Qed.

Lemma before_not_same p q : maxima_before p q = true -> same_node p q = false.
Proof. unfold same_node. now intros ->. Qed.

Lemma before_not_same' p q : maxima_before p q = true -> same_node q p = false.
Proof. unfold same_node. intros ->. apply andb_false_r. Qed.

(** ** The maxima sequence as a strictly ordered list *)

Definition sortedM (l : maxima_set) : Prop :=
  StronglySorted (fun p q => maxima_before p q = true) l.

Lemma find_node_Some k l q :
  find_node k l = Some q -> In q l /\ same_node k q = true.
Proof.
  induction l as [|x l IH]; simpl; try discriminate.
  destruct (maxima_before x k) eqn:E1.
  - intros H. destruct (IH H). auto.
  - destruct (maxima_before k x) eqn:E2; try discriminate.
    intros H; inversion H; subst. split; auto.
    unfold same_node. now rewrite E1, E2.
Qed.

Lemma find_node_None k l :
  sortedM l -> find_node k l = None ->
  forall q, In q l -> same_node k q = false.
Proof.
  induction 1 as [|x l Hs IH Hall]; simpl; intros Hf q Hq; [easy|].
  destruct (maxima_before x k) eqn:E1.
  - destruct Hq as [<-|Hq]; auto using before_not_same'.
  - destruct (maxima_before k x) eqn:E2; try discriminate.
    destruct Hq as [<-|Hq]; auto using before_not_same.
    apply before_not_same. apply maxima_before_trans with x; auto.
    rewrite Forall_forall in Hall. auto.
Qed.

Lemma insert_node_spec k l :
  sortedM l -> (forall q, In q l -> same_node k q = false) ->
  snd (insert_node k l) = (Some k, true) /\
  sortedM (fst (insert_node k l)) /\
  forall x, In x (fst (insert_node k l)) <-> x = k \/ In x l.
Proof.
  induction 1 as [|x l Hs IH Hall]; simpl; intros Hk.
  - repeat split.
    + repeat constructor.
    + simpl. intuition.
    + simpl. intuition.
  - rewrite Forall_forall in Hall.
    destruct IH as (IH1 & IH2 & IH3); [intros; apply Hk; now right|].
    destruct (maxima_before x k) eqn:E1; simpl.
    + repeat split; auto.
      * constructor; auto. apply Forall_forall. intros y Hy.
        apply IH3 in Hy. destruct Hy as [->|Hy]; auto.
      * intros [<-|H]; auto. apply IH3 in H. tauto.
      * intros [->|[<-|H]]; auto; right; apply IH3; auto.
    + assert (E2 : maxima_before k x = true).
      { specialize (Hk x (or_introl eq_refl)). unfold same_node in Hk.
        rewrite E1 in Hk. destruct (maxima_before k x); auto. }
      rewrite E2. simpl. repeat split.
      * constructor.
        -- constructor; auto. now apply Forall_forall.
        -- constructor; auto. apply Forall_forall. intros y Hy.
           apply maxima_before_trans with x; auto.
      * intros [<-|H]; auto.
      * intros [->|H]; auto.
Qed.

Lemma unlink_spec p l l' :
  sortedM l -> unlink p l = Some l' ->
  sortedM l' /\ forall x, In x l' <-> In x l /\ same_node p x = false.
Proof.
  intros Hs. revert l'. induction Hs as [|x l Hs IH Hall]; simpl; intros l' H.
  - discriminate.
  - rewrite Forall_forall in Hall. destruct (same_node p x) eqn:E.
    + inversion H; subst l'. split; auto. intros y. split.
      * intros Hy. split; auto. apply before_not_same.
        apply same_node_before with x; auto.
      * intros [[<-|Hy] Hn]; auto. congruence.
    + destruct (unlink p l) as [r|]; try discriminate.
      inversion H; subst l'. destruct (IH r eq_refl) as [IH1 IH2]. split.
      * constructor; auto. apply Forall_forall. intros y Hy.
        apply IH2 in Hy. apply Hall. tauto.
      * intros y. simpl. rewrite IH2. split.
        -- intros [<-|[? ?]]; auto.
        -- intros [[<-|?] ?]; auto.
Qed.

Lemma unlink_defined p l :
  In p l -> exists l', unlink p l = Some l'.
Proof.
  induction l as [|x l IH]; simpl; [easy|].
  intros [->|H].
  - rewrite same_node_refl. eauto.
  - destruct (same_node p x); eauto.
    destruct (IH H) as [r ->]. simpl. eauto.
Qed.

Lemma sortedM_ext l1 : forall l2,
  sortedM l1 -> sortedM l2 -> (forall x, In x l1 <-> In x l2) -> l1 = l2.
Proof.
  induction l1 as [|a l1 IH]; intros l2 H1 H2 Hin.
  - destruct l2 as [|b l2]; auto.
    destruct (proj2 (Hin b) (or_introl eq_refl)).
  - destruct l2 as [|b l2].
    { destruct (proj1 (Hin a) (or_introl eq_refl)). }
    inversion H1 as [|? ? Hs1 Ha]; subst. inversion H2 as [|? ? Hs2 Hb]; subst.
    rewrite Forall_forall in Ha, Hb.
    assert (a = b).
    { destruct (proj1 (Hin a) (or_introl eq_refl)) as [|Hab]; auto.
      destruct (proj2 (Hin b) (or_introl eq_refl)) as [|Hba]; auto.
      pose proof (maxima_before_trans _ _ _ (Ha _ Hba) (Hb _ Hab)) as F.
      rewrite maxima_before_irrefl in F. discriminate. }
    subst b. f_equal. apply IH; auto.
    intros x. split; intros Hx.
    + destruct (proj1 (Hin x) (or_intror Hx)) as [<-|]; auto.
      pose proof (Ha _ Hx) as F. rewrite maxima_before_irrefl in F.
      discriminate.
    + destruct (proj2 (Hin x) (or_intror Hx)) as [<-|]; auto.
      pose proof (Hb _ Hx) as F. rewrite maxima_before_irrefl in F.
      discriminate.
Qed.

(** ** The point sequence by position *)

Definition sortedP (l : point_set) : Prop :=
  forall i j p q, i < j -> nth_error l i = Some p -> nth_error l j = Some q ->
                  A_lt (arg p) (arg q) = true.

Lemma sortedP_tail p l : sortedP (p :: l) -> sortedP l.
Proof.
  intros H i j x y Hij Hx Hy. apply (H (S i) (S j)); auto. lia.
Qed.

Lemma sortedP_head p l q : sortedP (p :: l) -> In q l -> A_lt (arg p) (arg q) = true.
Proof.
  intros H Hq. apply In_nth_error in Hq. destruct Hq as [j Hj].
  apply (H 0 (S j)); auto. lia.
Qed.

Lemma sortedP_inj l i j p q :
  sortedP l -> nth_error l i = Some p -> nth_error l j = Some q ->
  arg p = arg q -> i = j.
Proof.
  intros Hs Hp Hq Ha.
  destruct (Nat.lt_trichotomy i j) as [Hlt|[Heq|Hgt]]; auto; exfalso.
  - pose proof (Hs _ _ _ _ Hlt Hp Hq) as F.
    rewrite Ha, A_lt_irrefl in F. discriminate.
  - pose proof (Hs _ _ _ _ Hgt Hq Hp) as F.
    rewrite Ha, A_lt_irrefl in F. discriminate.
Qed.

Lemma some_eq {X} (a b : X) : Some a = Some b -> a = b.
Proof. congruence. Qed.

Lemma option_map_Some {X Y} (f : X -> Y) o y :
  option_map f o = Some y -> exists x, o = Some x /\ y = f x.
Proof. destruct o; simpl; [|discriminate]. intros H. injection H as <-. eauto. Qed.

Ltac some_subst H :=
  apply some_eq in H;
  match type of H with
  | _ = ?v => subst v
  | ?v = _ => subst v
  end.

Lemma nth_error_lt {X} (l : list X) i x : nth_error l i = Some x -> i < length l.
Proof. intros H. apply nth_error_Some. congruence. Qed.

Lemma prev_S l j p : nth_error l (S j) = Some p -> prev l (Some (S j)) = Some (Some j).
Proof.
  intros H. apply nth_error_lt in H. simpl.
  destruct (Nat.ltb_spec (S j) (length l)); auto; lia.
Qed.

Lemma prev_0 l :
  l <> [] ->
  prev l (Some 0) = Some (if leftmost_is_root l then Some 0 else points_end).
Proof. destruct l; [congruence|reflexivity]. Qed.

Lemma next_at l i p :
  nth_error l i = Some p ->
  next l (Some i) = Some (if S i <? length l then Some (S i) else None).
Proof.
  intros H. apply nth_error_lt in H. simpl.
  destruct (Nat.ltb_spec (S i) (length l)); auto.
  destruct (Nat.ltb_spec i (length l)); auto; lia.
Qed.

Lemma prev_end l : l <> [] -> prev l None = Some (Some (length l - 1)).
Proof.
  destruct l; [congruence|]. intros _. simpl. now rewrite Nat.sub_0_r.
Qed.

Lemma length_insert_at k p l : length (insert_at k p l) = S (length l) \/ length l < k.
Proof.
  revert l. induction k as [|k IH]; intros l; simpl; auto.
  destruct l as [|q l]; simpl.
  - right. lia.
  - destruct (IH l); [left|right]; lia.
Qed.

Lemma nth_insert_at k p : forall l j, k <= length l ->
  nth_error (insert_at k p l) j =
  if j <? k then nth_error l j
  else if j =? k then Some p else nth_error l (j - 1).
Proof.
  induction k as [|k IH]; intros l j Hk.
  - simpl. destruct j; simpl; auto. now rewrite Nat.sub_0_r.
  - destruct l as [|q l]; simpl in Hk; [lia|]. simpl insert_at.
    destruct j as [|j]; simpl nth_error; auto.
    rewrite IH by lia.
    change (S j <? S k) with (j <? k). change (S j =? S k) with (j =? k).
    destruct (Nat.ltb_spec j k); auto.
    destruct (Nat.eqb_spec j k); auto.
    destruct j as [|j]; [lia|]. simpl. now rewrite Nat.sub_0_r.
Qed.

Lemma remove_at_spec k : forall l l',
  remove_at k l = Some l' ->
  length l = S (length l') /\ k < length l /\
  forall j, nth_error l' j = if j <? k then nth_error l j else nth_error l (S j).
Proof.
  induction k as [|k IH]; intros l l' H; destruct l as [|q l]; simpl in H;
    try discriminate.
  - inversion H; subst. simpl. repeat split; auto; lia.
  - destruct (remove_at k l) as [r|] eqn:E; try discriminate.
    inversion H; subst l'. destruct (IH _ _ E) as (H1 & H2 & H3).
    simpl. repeat split; try lia.
    intros [|j]; simpl; auto.
Qed.

Lemma remove_at_defined k : forall l,
  k < length l -> exists l', remove_at k l = Some l'.
Proof.
  induction k as [|k IH]; intros [|q l] H; simpl in *; try lia; eauto.
  destruct (IH l) as [r ->]; [lia|]. simpl. eauto.
Qed.

Lemma remove_insert_at k p : forall l,
  k <= length l -> remove_at k (insert_at k p l) = Some l.
Proof.
  induction k as [|k IH]; intros l H.
  - destruct l; reflexivity.
  - destruct l as [|q l]; simpl in H; [lia|]. simpl.
    rewrite IH by lia. reflexivity.
Qed.

Lemma nth_error_ext {X} (l1 : list X) : forall l2,
  (forall j, nth_error l1 j = nth_error l2 j) -> l1 = l2.
Proof.
  induction l1 as [|x l1 IH]; intros [|y l2] H; auto.
  - specialize (H 0). discriminate.
  - specialize (H 0). discriminate.
  - pose proof (H 0) as H0. simpl in H0. inversion H0; subst. f_equal.
    apply IH. intros j. apply (H (S j)).
Qed.

(** *** points.find and the place where points.insert puts a node *)

Lemma points_find_cons a p l :
  points_find a (p :: l) =
  if A_lt (arg p) a then
    match points_find a l with Some j => Some (S j) | None => None end
  else if A_lt a (arg p) then None else Some 0.
Proof.
  unfold points_find. simpl. unfold compare_points_pt_A.
  destruct (A_lt (arg p) a); simpl.
  - destruct (nth_error l (lower_bound a l)); auto.
    destruct (compare_points_A_pt a p0); auto.
  - unfold compare_points_A_pt. reflexivity.
Qed.

Lemma points_find_Some a l k :
  points_find a l = Some k -> exists p, nth_error l k = Some p /\ arg p = a.
Proof.
  revert k. induction l as [|p l IH]; intros k.
  - discriminate.
  - rewrite points_find_cons.
    destruct (A_lt (arg p) a) eqn:E1.
    + destruct (points_find a l) as [j|]; try discriminate.
      intros H; inversion H; subst. simpl. eauto.
    + destruct (A_lt a (arg p)) eqn:E2; try discriminate.
      intros H; inversion H; subst. simpl. eauto.
Qed.

Lemma points_find_None a l :
  sortedP l -> points_find a l = None -> forall p, In p l -> arg p <> a.
Proof.
  induction l as [|p l IH]; intros Hs Hf q Hq; [easy|].
  rewrite points_find_cons in Hf.
  destruct (A_lt (arg p) a) eqn:E1.
  - destruct Hq as [<-|Hq].
    + intros F. rewrite F, A_lt_irrefl in E1. discriminate.
    + apply IH; eauto using sortedP_tail.
      destruct (points_find a l); congruence.
  - destruct (A_lt a (arg p)) eqn:E2; try discriminate.
    destruct Hq as [<-|Hq].
    + intros F. rewrite F, A_lt_irrefl in E2. discriminate.
    + intros F. pose proof (sortedP_head _ _ _ Hs Hq) as H.
      rewrite F in H. congruence.
Qed.

Lemma points_find_present a l k p :
  sortedP l -> nth_error l k = Some p -> arg p = a -> points_find a l = Some k.
Proof.
  revert k. induction l as [|q l IH]; intros k Hs Hk Ha.
  - destruct k; discriminate.
  - rewrite points_find_cons. destruct k as [|k]; simpl in Hk.
    + inversion Hk; subst. now rewrite A_lt_irrefl.
    + assert (E : A_lt (arg q) a = true).
      { subst a. apply (Hs 0 (S k)); auto. lia. }
      rewrite E. rewrite (IH k); eauto using sortedP_tail.
Qed.

Lemma upper_bound_le p l : upper_bound p l <= length l.
Proof.
  induction l as [|q l IH]; simpl; auto.
  destruct (compare_points p q); simpl; lia.
Qed.

Lemma upper_bound_present a v l k :
  sortedP l -> points_find a l = Some k ->
  upper_bound (mk_point a v) l = S k.
Proof.
  revert k. induction l as [|p l IH]; intros k Hs.
  - discriminate.
  - rewrite points_find_cons. simpl. unfold compare_points. simpl.
    destruct (A_lt (arg p) a) eqn:E1.
    + destruct (points_find a l) as [j|] eqn:Ef; try discriminate.
      intros H; inversion H; subst.
      destruct (A_lt a (arg p)) eqn:E2.
      * pose proof (A_lt_trans _ _ _ E1 E2) as F.
        rewrite A_lt_irrefl in F. discriminate.
      * rewrite (IH j); eauto using sortedP_tail.
    + destruct (A_lt a (arg p)) eqn:E2; try discriminate.
      intros H; inversion H; subst. f_equal.
      destruct l as [|q l]; simpl; auto.
      unfold compare_points. simpl.
      rewrite (A_lt_total _ _ E2 E1).
      now rewrite (sortedP_head _ _ _ Hs (or_introl eq_refl)).
Qed.

Lemma upper_bound_absent a v l :
  sortedP l -> points_find a l = None ->
  forall j q, nth_error l j = Some q ->
    if j <? upper_bound (mk_point a v) l then A_lt (arg q) a = true
    else A_lt a (arg q) = true.
Proof.
  induction l as [|p l IH]; intros Hs Hf j q Hj.
  - destruct j; discriminate.
  - rewrite points_find_cons in Hf. simpl. unfold compare_points. simpl.
    destruct (A_lt a (arg p)) eqn:E2.
    + replace (j <? 0) with false by (symmetry; apply Nat.ltb_ge; lia).
      destruct j as [|j]; simpl in Hj.
      * inversion Hj; subst; auto.
      * apply A_lt_trans with (arg p); auto.
        apply (Hs 0 (S j)); auto. lia.
    + destruct (A_lt (arg p) a) eqn:E1; try discriminate.
      destruct j as [|j]; simpl in Hj.
      * inversion Hj; subst. simpl. auto.
      * change (S j <? S (upper_bound (mk_point a v) l))
          with (j <? upper_bound (mk_point a v) l).
        apply IH; eauto using sortedP_tail.
        destruct (points_find a l); congruence.
Qed.

(** ** Neighbours by position

    The neighbours that [multi_prev] and [multi_next] reach from position
    [i] when the node at [previous] is skipped. *)

Definition ge_opt (p : point_type) (o : option point_type) : bool :=
  match o with
  | None => true
  | Some q => negb (V_lt (value p) (value q))
  end.

Definition left_nb (l : point_set) (i : nat) (previous : iterator)
  : option point_type :=
  match i with
  | 0 => None
  | S j => if it_eqb (Some j) previous
           then match j with 0 => None | S j' => nth_error l j' end
           else nth_error l j
  end.

Definition right_nb (l : point_set) (i : nat) (previous : iterator)
  : option point_type :=
  if it_eqb (Some (S i)) previous then nth_error l (S (S i))
  else nth_error l (S i).

Lemma multi_prev_S l j previous p q :
  nth_error l (S j) = Some p ->
  multi_prev l (Some (S j)) previous = Some q ->
  q = if it_eqb (Some j) previous
      then match j with
           | 0 => if leftmost_is_root l then Some 0 else points_end
           | S j' => Some j'
           end
      else Some j.
Proof.
  intros Hp. unfold multi_prev. rewrite (prev_S _ _ _ Hp). unfold obind.
  destruct (it_eqb (Some j) previous); [|congruence].
  destruct j as [|j'].
  - rewrite prev_0 by (intros ->; discriminate).
    intros H. now injection H as <-.
  - simpl. destruct (S j' <? length l); congruence.
Qed.

Lemma greater_than_prev_Val l i previous p n b n' :
  nth_error l i = Some p ->
  greater_than_prev l (Some i) previous n = Val b n' ->
  b = ge_opt p (left_nb l i previous).
Proof.
  intros Hp H. unfold greater_than_prev in H.
  assert (Hb : points_begin l = Some 0).
  { destruct l; auto. destruct i; discriminate. }
  break H. unfold multi_is_beginning in Hd. rewrite Hb in Hd.
  destruct i as [|j].
  - simpl in Hd. injection Hd as <-. break H. reflexivity.
  - change (it_eqb (Some (S j)) (Some 0)) with false in Hd. cbv iota in Hd.
    rewrite (prev_S _ _ _ Hp) in Hd. unfold obind in Hd.
    unfold left_nb.
    assert (Hx : x = it_eqb (Some j) previous && it_eqb (Some j) (Some 0)).
    { destruct (it_eqb (Some j) previous && it_eqb (Some j) (Some 0));
        congruence. }
    clear Hd. subst x.
    pose proof (multi_prev_S l j previous p) as Hq.
    destruct (it_eqb (Some j) previous) eqn:Ep; cbn [andb] in H.
    + destruct j as [|j'].
      * change (it_eqb (Some 0) (Some 0)) with true in H. cbn [andb] in H.
        break H. reflexivity.
      * change (it_eqb (Some (S j')) (Some 0)) with false in H.
        cbn [andb] in H. break H. apply Hq in Hd0; auto. subst.
        unfold deref in Hd, Hd1. rewrite Hp in Hd. injection Hd as <-.
        rewrite Hd1. simpl.
        destruct (V_lt (value p) _); break H; reflexivity.
    + break H. apply Hq in Hd0; auto. subst.
      unfold deref in Hd, Hd1. rewrite Hp in Hd. injection Hd as <-.
      rewrite Hd1. simpl.
      destruct (V_lt (value p) _); break H; reflexivity.
Qed.

Lemma multi_is_ending_at l i previous p :
  nth_error l i = Some p ->
  multi_is_ending l (Some i) previous =
  Some ((i =? length l - 1)
        || (it_eqb (Some (S i)) previous && (S i =? length l - 1))).
Proof.
  intros Hp. pose proof (nth_error_lt _ _ _ Hp) as Hlen.
  unfold multi_is_ending. rewrite prev_end by (destruct l; simpl in *; [lia|easy]).
  unfold obind. change (it_eqb (Some i) (Some (length l - 1))) with (i =? length l - 1).
  destruct (Nat.eqb_spec i (length l - 1)); auto.
  rewrite (next_at _ _ _ Hp).
  destruct (Nat.ltb_spec (S i) (length l)); [|lia].
  change (it_eqb (Some (S i)) (Some (length l - 1))) with (S i =? length l - 1).
  cbn [orb]. destruct (it_eqb (Some (S i)) previous && (S i =? length l - 1)); auto.
Qed.

Lemma multi_next_at l i previous p :
  nth_error l i = Some p ->
  multi_next l (Some i) previous =
  Some (if S i <? length l then
          if it_eqb (Some (S i)) previous then
            if S (S i) <? length l then Some (S (S i)) else None
          else Some (S i)
        else None).
Proof.
  intros Hp. unfold multi_next.
  change (it_eqb (Some i) points_end) with false. cbv iota.
  rewrite (next_at _ _ _ Hp). unfold obind.
  destruct (Nat.ltb_spec (S i) (length l)) as [Hlt|Hge]; auto.
  change (it_eqb (Some (S i)) points_end) with false. cbv iota.
  destruct (it_eqb (Some (S i)) previous); auto.
  destruct (nth_error l (S i)) as [q|] eqn:Eq.
  - now rewrite (next_at _ _ _ Eq).
  - apply nth_error_None in Eq. lia.
Qed.

Lemma greater_than_next_Val l i previous p n b n' :
  nth_error l i = Some p ->
  greater_than_next l (Some i) previous n = Val b n' ->
  b = ge_opt p (right_nb l i previous).
Proof.
  intros Hp H. pose proof (nth_error_lt _ _ _ Hp) as Hlen.
  unfold greater_than_next in H. break H.
  rewrite (multi_is_ending_at _ _ _ _ Hp) in Hd. some_subst Hd.
  unfold right_nb.
  destruct (Nat.eqb_spec i (length l - 1)) as [Hi|Hi]; cbn [orb] in H.
  - break H.
    replace (nth_error l (S (S i))) with (@None point_type)
      by (symmetry; apply nth_error_None; lia).
    replace (nth_error l (S i)) with (@None point_type)
      by (symmetry; apply nth_error_None; lia).
    now destruct (it_eqb (Some (S i)) previous).
  - destruct (it_eqb (Some (S i)) previous) eqn:Ep; cbn [andb] in H.
    + destruct (Nat.eqb_spec (S i) (length l - 1)) as [Hj|Hj].
      * break H.
        replace (nth_error l (S (S i))) with (@None point_type)
          by (symmetry; apply nth_error_None; lia).
        reflexivity.
      * break H. rewrite (multi_next_at _ _ _ _ Hp), Ep in Hd0.
        destruct (Nat.ltb_spec (S i) (length l)); [|lia].
        destruct (Nat.ltb_spec (S (S i)) (length l)); [|lia].
        some_subst Hd0. unfold deref in Hd, Hd1.
        rewrite Hp in Hd. some_subst Hd. rewrite Hd1. simpl.
        destruct (V_lt (value p) _); break H; reflexivity.
    + break H. rewrite (multi_next_at _ _ _ _ Hp), Ep in Hd0.
      destruct (Nat.ltb_spec (S i) (length l)); [|lia].
      some_subst Hd0. unfold deref in Hd, Hd1.
      rewrite Hp in Hd. some_subst Hd. rewrite Hd1. simpl.
      destruct (V_lt (value p) _); break H; reflexivity.
Qed.

(** Whether the node at [i] is a local maximum once [previous] is gone. *)
Definition is_max_at (l : point_set) (i : nat) (previous : iterator)
                     (p : point_type) : bool :=
  ge_opt p (left_nb l i previous) && ge_opt p (right_nb l i previous).

Lemma is_maximum_Val l i previous p n b n' :
  nth_error l i = Some p ->
  is_maximum l (Some i) previous n = Val b n' ->
  b = is_max_at l i previous p.
Proof.
  intros Hp H. unfold is_maximum in H. break H.
  apply (greater_than_prev_Val _ _ _ _ _ _ _ Hp) in Hs. subst x.
  unfold is_max_at. destruct (ge_opt p (left_nb l i previous)).
  - apply (greater_than_next_Val _ _ _ _ _ _ _ Hp) in H. auto.
  - break H. reflexivity.
Qed.

(** ** What the const functions are defined on

    None of them runs into undefined behaviour on a valid iterator. *)

Lemma bind_defined X Y (c : C X) (k : X -> C Y) n :
  c n <> UB -> (forall x n1, c n = Val x n1 -> k x n1 <> UB) ->
  bind c k n <> UB.
Proof.
  unfold bind. intros Hc Hk.
  destruct (c n) as [x n1|e n1|]; [eauto|discriminate|congruence].
Qed.

Lemma V_less_defined v1 v2 n : V_less v1 v2 n <> UB.
Proof. unfold V_less. destruct (V_throws n); discriminate. Qed.

Lemma compare_maxima_defined p q n : compare_maxima p q n <> UB.
Proof.
  unfold compare_maxima. apply bind_defined; [apply V_less_defined|].
  intros [|] n1 _; [discriminate|].
  apply bind_defined; [apply V_less_defined|].
  intros [|] n2 _; discriminate.
Qed.

Lemma maxima_find_defined k l : forall n, maxima_find k l n <> UB.
Proof.
  induction l as [|q r IH]; intros n; cbn [maxima_find]; [discriminate|].
  apply bind_defined; [apply compare_maxima_defined|].
  intros [|] n1 _; [apply IH|].
  apply bind_defined; [apply compare_maxima_defined|].
  intros [|] n2 _; discriminate.
Qed.

Lemma maxima_insert_defined k l : forall n, maxima_insert k l n <> UB.
Proof.
  induction l as [|q r IH]; intros n; cbn [maxima_insert]; [discriminate|].
  apply bind_defined; [apply compare_maxima_defined|].
  intros [|] n1 _.
  - apply bind_defined; [apply IH|]. discriminate.
  - apply bind_defined; [apply compare_maxima_defined|].
    intros [|] n2 _; discriminate.
Qed.

Lemma present_in_maxima_set_defined p m n : present_in_maxima_set p m n <> UB.
Proof.
  unfold present_in_maxima_set.
  apply bind_defined; [apply maxima_find_defined|]. discriminate.
Qed.

Lemma equivalent_defined v1 v2 n : equivalent v1 v2 n <> UB.
Proof.
  unfold equivalent. apply bind_defined; [apply V_less_defined|].
  intros [|] n1 _; [discriminate|].
  apply bind_defined; [apply V_less_defined|].
  intros [|] n2 _; discriminate.
Qed.

Lemma compare_values_defined (x y : point_type) n :
  bind (V_less (value x) (value y))
       (fun b : bool => if b then ret false else ret true) n <> UB.
Proof.
  apply bind_defined; [apply V_less_defined|]. intros [|] n1 _; discriminate.
Qed.

Lemma nth_error_defined {X} (l : list X) i :
  i < length l -> exists x, nth_error l i = Some x.
Proof.
  intros Hi. destruct (nth_error l i) as [x|] eqn:E; eauto.
  apply nth_error_None in E. lia.
Qed.

Lemma greater_than_prev_defined l i previous n :
  i < length l -> greater_than_prev l (Some i) previous n <> UB.
Proof.
  intros Hi. destruct (nth_error_defined l i Hi) as [p Hp].
  assert (Hb : points_begin l = Some 0).
  { destruct l; [simpl in Hi; lia|reflexivity]. }
  unfold greater_than_prev, multi_is_beginning. rewrite Hb.
  destruct i as [|j]; [discriminate|].
  change (it_eqb (Some (S j)) (Some 0)) with false. cbv iota.
  rewrite (prev_S _ _ _ Hp). unfold obind at 1.
  destruct (nth_error_defined l j ltac:(lia)) as [q Hq].
  assert (Hgo : forall r, deref l r <> None ->
            multi_prev l (Some (S j)) previous = Some r ->
            bind (defined (Some false)) (fun e : bool =>
              if e then ret true
              else bind (defined (deref l (Some (S j)))) (fun x =>
                   bind (defined (multi_prev l (Some (S j)) previous)) (fun q =>
                   bind (defined (deref l q)) (fun y =>
                   bind (V_less (value x) (value y)) (fun b : bool =>
                     if b then ret false else ret true))))) n <> UB).
  { intros r Hr Hm. unfold bind at 1, defined at 1.
    unfold deref at 1. rewrite Hp, Hm. unfold bind at 1, defined at 1.
    unfold bind at 1, defined at 1. unfold bind at 1, defined at 1.
    destruct (deref l r) as [y|]; [|congruence].
    apply compare_values_defined. }
  destruct (it_eqb (Some j) previous) eqn:Ep; cbn [andb].
  - destruct j as [|j'].
    + change (it_eqb (Some 0) (Some 0)) with true. cbv iota. discriminate.
    + change (it_eqb (Some (S j')) (Some 0)) with false. cbv iota.
      destruct (nth_error_defined l j' ltac:(lia)) as [r Hr].
      apply (Hgo (Some j')); [unfold deref; congruence|].
      unfold multi_prev. rewrite (prev_S _ _ _ Hp). unfold obind.
      rewrite Ep. apply (prev_S _ _ _ Hq).
  - apply (Hgo (Some j)); [unfold deref; congruence|].
    unfold multi_prev. rewrite (prev_S _ _ _ Hp). unfold obind.
    now rewrite Ep.
Qed.

Lemma greater_than_next_defined l i previous n :
  i < length l -> greater_than_next l (Some i) previous n <> UB.
Proof.
  intros Hi. destruct (nth_error_defined l i Hi) as [p Hp].
  unfold greater_than_next. rewrite (multi_is_ending_at _ _ _ _ Hp).
  unfold bind at 1, defined at 1.
  destruct ((i =? length l - 1)
            || (it_eqb (Some (S i)) previous && (S i =? length l - 1)))
    eqn:Eend; [discriminate|].
  apply orb_false_iff in Eend. destruct Eend as [E1 E2].
  apply Nat.eqb_neq in E1.
  unfold deref at 1. rewrite Hp. unfold bind at 1, defined at 1.
  rewrite (multi_next_at _ _ _ _ Hp). unfold bind at 1, defined at 1.
  destruct (Nat.ltb_spec (S i) (length l)); [|lia].
  match goal with
  | |- context [defined (deref l ?q)] =>
      assert (Hq : exists y, deref l q = Some y)
  end.
  { destruct (it_eqb (Some (S i)) previous); cbn [andb] in E2.
    - apply Nat.eqb_neq in E2.
      destruct (Nat.ltb_spec (S (S i)) (length l)); [|lia].
      apply nth_error_defined. assumption.
    - apply nth_error_defined. assumption. }
  destruct Hq as [y ->]. unfold bind at 1, defined at 1.
  apply compare_values_defined.
Qed.

Lemma is_maximum_defined l i previous n :
  i < length l -> is_maximum l (Some i) previous n <> UB.
Proof.
  intros Hi. unfold is_maximum.
  apply bind_defined; [now apply greater_than_prev_defined|].
  intros [|] n1 _; [now apply greater_than_next_defined|discriminate].
Qed.

(** ** The two buffers *)

Lemma store_spec {X} i (x : X) : forall buf buf',
  store i x buf = Some buf' ->
  nth_error buf' i = Some x /\
  forall j, j <> i -> nth_error buf' j = nth_error buf j.
Proof.
  induction i as [|i IH]; intros [|y buf] buf' H; simpl in H; try discriminate.
  - some_subst H. split; auto. intros [|j] Hj; [lia|reflexivity].
  - destruct (store i x buf) as [r|] eqn:E; try discriminate.
    some_subst H. destruct (IH _ _ E) as [H1 H2]. split; auto.
    intros [|j] Hj; simpl; auto.
Qed.

(** The nodes recorded in the first [N] slots of a buffer whose flag is
    raised. *)
Definition In_flagged (N : nat) (flags : list bool) (slots : list mx_iterator)
                      (q : point_type) : Prop :=
  exists i, i < N /\ nth_error flags i = Some true
            /\ nth_error slots i = Some (Some q).

Lemma In_flagged_store N flags slots flags' slots' i p :
  i < N -> nth_error flags i = Some false ->
  store i true flags = Some flags' -> store i (Some p) slots = Some slots' ->
  forall x, In_flagged N flags' slots' x <-> In_flagged N flags slots x \/ x = p.
Proof.
  intros Hi Hf Sf Ss x.
  destruct (store_spec _ _ _ _ Sf) as [F1 F2].
  destruct (store_spec _ _ _ _ Ss) as [S1 S2]. split.
  - intros (j & Hj & H1 & H2). destruct (Nat.eq_dec j i) as [->|Hne].
    + right. unfold mx_iterator in *. congruence.
    + left. exists j. rewrite <- F2, <- S2; auto.
  - intros [H| ->].
    + destruct H as (j & Hj & H1 & H2).
      assert (j <> i) by congruence. exists j. rewrite F2, S2; auto.
    + exists i. auto.
Qed.

Lemma In_flagged_same N flags slots flags' slots' :
  (forall j, nth_error flags' j = nth_error flags j) ->
  (forall j, nth_error slots' j = nth_error slots j) ->
  forall x, In_flagged N flags' slots' x <-> In_flagged N flags slots x.
Proof.
  intros Hf Hs x. unfold In_flagged. split; intros (j & Hj & H1 & H2);
    exists j; rewrite ?Hf, ?Hs in *; auto.
Qed.

Lemma In_flagged_clear N M slots x :
  ~ In_flagged N (repeat false M) slots x.
Proof.
  intros (j & _ & H & _). apply nth_error_In, repeat_spec in H. discriminate.
Qed.

(** A buffer in order: [N] flags and [N] slots, a raised flag has a node
    in its slot, and no node is in two flagged slots. *)
Record slots_ok (N : nat) (flags : list bool) (slots : list mx_iterator)
  : Prop := {
  so_flags : length flags = N;
  so_slots : length slots = N;
  so_some : forall i, nth_error flags i = Some true ->
                      exists q, nth_error slots i = Some (Some q);
  so_one : forall i j q,
      nth_error flags i = Some true -> nth_error flags j = Some true ->
      nth_error slots i = Some (Some q) -> nth_error slots j = Some (Some q) ->
      i = j
}.

Lemma store_defined {X} i (x : X) : forall buf,
  i < length buf -> exists buf', store i x buf = Some buf'.
Proof.
  induction i as [|i IH]; intros [|y buf] Hi; simpl in *; try lia; eauto.
  destruct (IH buf) as [r ->]; [lia|]. simpl. eauto.
Qed.

Lemma store_length {X} i (x : X) : forall buf buf',
  store i x buf = Some buf' -> length buf' = length buf.
Proof.
  induction i as [|i IH]; intros [|y buf] buf' H; simpl in H; try discriminate.
  - some_subst H. reflexivity.
  - apply option_map_Some in H. destruct H as (r & Hr & ->).
    simpl. f_equal. eauto.
Qed.

Lemma slots_ok_clear N slots :
  length slots = N -> slots_ok N (repeat false N) slots.
Proof.
  intros Hl. constructor; auto using repeat_length.
  - intros i H. apply nth_error_In, repeat_spec in H. discriminate.
  - intros i j q H. apply nth_error_In, repeat_spec in H. discriminate.
Qed.

Lemma slots_ok_store N flags slots flags' slots' i p :
  slots_ok N flags slots ->
  nth_error flags i = Some false -> ~ In_flagged N flags slots p ->
  store i true flags = Some flags' -> store i (Some p) slots = Some slots' ->
  slots_ok N flags' slots'.
Proof.
  intros [Lf Ls Hsome Hone] Hf Hp Sf Ss.
  destruct (store_spec _ _ _ _ Sf) as [F1 F2].
  destruct (store_spec _ _ _ _ Ss) as [S1 S2].
  assert (Hflag : forall j q, j <> i -> nth_error flags j = Some true ->
            nth_error slots j = Some (Some q) -> q <> p).
  { intros j q _ Hj Hq ->. apply Hp. exists j. repeat split; auto.
    apply nth_error_lt in Hj. lia. }
  constructor.
  - transitivity (length flags); [exact (store_length _ _ _ _ Sf)|exact Lf].
  - transitivity (length slots); [exact (store_length _ _ _ _ Ss)|exact Ls].
  - intros j Hj. destruct (Nat.eq_dec j i) as [->|Hne]; [eauto|].
    rewrite F2 in Hj by assumption. rewrite S2 by assumption. auto.
  - intros j1 j2 q H1 H2 Q1 Q2.
    destruct (Nat.eq_dec j1 i) as [->|N1], (Nat.eq_dec j2 i) as [->|N2]; auto.
    + rewrite F2 in H2 by assumption. rewrite S2 in Q2 by assumption.
      unfold mx_iterator in *. rewrite S1 in Q1. injection Q1 as <-.
      destruct (Hflag _ _ N2 H2 Q2 eq_refl).
    + rewrite F2 in H1 by assumption. rewrite S2 in Q1 by assumption.
      unfold mx_iterator in *. rewrite S1 in Q2. injection Q2 as <-.
      destruct (Hflag _ _ N1 H1 Q1 eq_refl).
    + rewrite F2 in H1, H2 by assumption. rewrite S2 in Q1, Q2 by assumption.
      eauto.
Qed.

(** ** conditional_add_new_maximum *)

Lemma present_in_maxima p m n b n' :
  sortedM m -> (forall q, In q m -> same_node p q = true -> q = p) ->
  present_in_maxima_set p m n = Val b n' ->
  (b = true <-> In p m) /\
  (b = true -> find_node p m = Some p) /\
  (b = false -> forall q, In q m -> same_node p q = false).
Proof.
  intros Hs Hk H. unfold present_in_maxima_set in H. break H.
  apply maxima_find_Val in Hs0. subst x.
  destruct (find_node p m) as [q|] eqn:E.
  - apply find_node_Some in E. destruct E as [E1 E2].
    pose proof (Hk _ E1 E2) as ->. repeat split; auto; discriminate.
  - pose proof (find_node_None _ _ Hs E) as Hn. repeat split; auto; try discriminate.
    intros Hp. specialize (Hn _ Hp). rewrite same_node_refl in Hn. discriminate.
Qed.

Lemma maxima_insert_first_Thrown x s n e s' n' :
  maxima_insert_first x s n = Thrown e s' n' -> s' = s.
Proof.
  unfold maxima_insert_first. destruct (maxima_insert x (maxima s) n);
    congruence.
Qed.

Lemma maxima_insert_first_Ret x s n r s' n' :
  maxima_insert_first x s n = Ret r s' n' ->
  r = fst (snd (insert_node x (maxima s))) /\
  s' = set_maxima (fst (insert_node x (maxima s))) s.
Proof.
  unfold maxima_insert_first.
  destruct (maxima_insert x (maxima s) n) as [y m| |] eqn:E; try discriminate.
  apply maxima_insert_Val in E. subst y.
  intros H. injection H as <- <- <-. auto.
Qed.

Lemma conditional_add_Thrown it slot previous s n e s' n' :
  conditional_add_new_maximum it slot previous s n = Thrown e s' n' -> s' = s.
Proof.
  unfold conditional_add_new_maximum.
  destruct (it_eqb it points_end || it_eqb it previous); [discriminate|].
  intros H. breakT H; auto.
  split_if H; breakT H; auto; split_if H; breakT H; auto.
  eauto using maxima_insert_first_Thrown.
Qed.

Lemma conditional_add_Ret i slot previous s n s' n' p :
  conditional_add_new_maximum (Some i) slot previous s n = Ret tt s' n' ->
  it_eqb (Some i) previous = false ->
  nth_error (points s) i = Some p ->
  sortedM (maxima s) ->
  (forall q, In q (maxima s) -> same_node p q = true -> q = p) ->
  slot < NUMBER_TO_ROLLBACK ->
  nth_error (if_erase s) slot = Some false ->
  nth_error (if_rollback s) slot = Some false ->
  let b := is_max_at (points s) i previous p in
  exists present : bool,
    (present = true <-> In p (maxima s)) /\
    points s' = points s /\ sortedM (maxima s') /\
    (forall x, In x (maxima s') <-> In x (maxima s) \/ (x = p /\ b = true)) /\
    (forall x, In_flagged NUMBER_TO_ROLLBACK (if_rollback s') (to_rollback s') x <->
               In_flagged NUMBER_TO_ROLLBACK (if_rollback s) (to_rollback s) x
               \/ (x = p /\ b = true /\ present = false)) /\
    (forall x, In_flagged NUMBER_TO_ERASE (if_erase s') (to_erase s') x <->
               In_flagged NUMBER_TO_ERASE (if_erase s) (to_erase s) x
               \/ (x = p /\ b = false /\ present = true)) /\
    (forall j, j <> slot -> nth_error (if_erase s') j = nth_error (if_erase s) j) /\
    (forall j, j <> slot ->
               nth_error (if_rollback s') j = nth_error (if_rollback s) j).
Proof.
  intros H Hne Hp Hs Hk Hslot Hfe Hfr b.
  unfold conditional_add_new_maximum in H.
  change (it_eqb (Some i) points_end) with false in H. rewrite Hne in H.
  cbn [orb] in H. break H.
  apply (is_maximum_Val _ _ _ _ _ _ _ Hp) in Hs0. fold b in Hs0.
  assert (Hpres : forall x n0 n1,
            present_in_maxima_set p (maxima s) n0 = Val x n1 ->
            (x = true <-> In p (maxima s)) /\
            (x = true -> find_node p (maxima s) = Some p) /\
            (x = false -> forall q, In q (maxima s) -> same_node p q = false)).
  { intros. eapply present_in_maxima; eauto. }
  split_if H; break H;
    repeat match goal with
      | Hd : deref (points _) (Some i) = Some _ |- _ =>
          unfold deref in Hd; rewrite Hp in Hd; some_subst Hd
      end;
    match goal with
    | Hq : present_in_maxima_set p _ _ = Val ?x _ |- _ =>
        destruct (Hpres _ _ _ Hq) as (Hp1 & Hp2 & Hp3); clear Hq; exists x;
        destruct x
    end; cbn [negb] in H; break H;
    repeat match goal with
      | Hd : deref (points _) (Some i) = Some _ |- _ =>
          unfold deref in Hd; rewrite Hp in Hd; some_subst Hd
      | Hm : option_map _ _ = Some _ |- _ =>
          let buf := fresh "buf" in let E := fresh "E" in
          apply option_map_Some in Hm; destruct Hm as (buf & E & ->)
      end.
  - (* a maximum, already recorded *)
    assert (Hb : b = true) by congruence.
    repeat split; auto; try tauto.
    + intros [?|[-> _]]; tauto.
    + intros [?|(_ & _ & ?)]; [tauto|discriminate].
    + intros [?|(_ & ? & ?)]; [tauto|congruence].
  - (* a maximum, not recorded: inserted, slot noted for rollback *)
    assert (Hb : b = true) by congruence.
    match goal with
    | Hi : maxima_insert_first _ _ _ = Ret _ _ _ |- _ =>
        apply maxima_insert_first_Ret in Hi; destruct Hi as (-> & ->)
    end.
    destruct (insert_node_spec p (maxima s) Hs (Hp3 eq_refl)) as (I1 & I2 & I3).
    rewrite I1 in *. cbn [fst snd] in *. simpl in *.
    match goal with
    | Ef : store slot true _ = Some _, Es : store slot (Some p) _ = Some _ |- _ =>
        pose proof (In_flagged_store _ _ _ _ _ _ _ Hslot Hfr Ef Es) as HF;
        destruct (store_spec _ _ _ _ Ef) as [_ HS]
    end.
    repeat split; auto; try tauto.
    + intros Hx. apply I3 in Hx. tauto.
    + intros Hx. apply I3. tauto.
    + intros Hx. apply HF in Hx. tauto.
    + intros Hx. apply HF. tauto.
    + intros [?|(_ & ? & ?)]; [tauto|congruence].
  - (* not a maximum, recorded: slot noted for erasure *)
    assert (Hb : b = false) by congruence.
    match goal with
    | Hf : maxima_find p _ _ = Val _ _ |- _ =>
        apply maxima_find_Val in Hf; rewrite (Hp2 eq_refl) in Hf; subst
    end.
    simpl in *.
    assert (Hslot' : slot < NUMBER_TO_ERASE)
      by (unfold NUMBER_TO_ERASE, NUMBER_TO_ROLLBACK in *; lia).
    match goal with
    | Ef : store slot true _ = Some _, Es : store slot (Some p) _ = Some _ |- _ =>
        pose proof (In_flagged_store _ _ _ _ _ _ _ Hslot' Hfe Ef Es) as HF;
        destruct (store_spec _ _ _ _ Ef) as [_ HS]
    end.
    repeat split; auto; try tauto.
    + intros [?|[_ ?]]; [tauto|congruence].
    + intros [?|(_ & ? & ?)]; [tauto|congruence].
    + intros Hx. apply HF in Hx. tauto.
    + intros Hx. apply HF. tauto.
  - (* not a maximum, not recorded *)
    assert (Hb : b = false) by congruence.
    repeat split; auto; try tauto.
    + intros [?|[_ ?]]; [tauto|congruence].
    + intros [?|(_ & ? & ?)]; [tauto|congruence].
    + intros [?|(_ & ? & ?)]; [tauto|congruence].
Qed.

Lemma conditional_add_skip it slot previous s n :
  it_eqb it points_end || it_eqb it previous = true ->
  conditional_add_new_maximum it slot previous s n = Ret tt s n.
Proof. unfold conditional_add_new_maximum. now intros ->. Qed.

(** *** It is defined on every valid iterator *)

Lemma mbind_defined X Y (m : M X) (k : X -> M Y) s n :
  m s n <> Undefined ->
  (forall x s1 n1, m s n = Ret x s1 n1 -> k x s1 n1 <> Undefined) ->
  mbind m k s n <> Undefined.
Proof.
  unfold mbind. intros Hm Hk.
  destruct (m s n) as [x s1 n1|e s1 n1|]; [eauto|discriminate|congruence].
Qed.

Lemma run_const_defined X (c : FM -> C X) s n :
  c s n <> UB -> run_const c s n <> Undefined.
Proof. unfold run_const. destruct (c s n); congruence. Qed.

Lemma modify_defined_defined (f : FM -> option FM) s n :
  f s <> None -> @modify_defined (exn U) FM f s n <> Undefined.
Proof. unfold modify_defined. destruct (f s); congruence. Qed.

Lemma maxima_insert_first_defined x s n :
  maxima_insert_first x s n <> Undefined.
Proof.
  unfold maxima_insert_first.
  pose proof (maxima_insert_defined x (maxima s) n).
  destruct (maxima_insert x (maxima s) n); congruence.
Qed.

Lemma store_pair_defined X (i : nat) (x : X) (buf : FM -> list X)
      (set : list X -> FM -> FM) (k : M unit) s n :
  i < length (buf s) ->
  (forall b, store i x (buf s) = Some b -> k (set b s) n <> Undefined) ->
  mbind (modify_defined (fun s =>
           option_map (fun b => set b s) (store i x (buf s))))
        (fun _ => k) s n <> Undefined.
Proof.
  intros Hi Hk. destruct (store_defined i x (buf s) Hi) as [b Hb].
  unfold mbind, modify_defined. rewrite Hb. simpl. auto.
Qed.

Lemma store_last_defined X (i : nat) (x : X) (buf : FM -> list X)
      (set : list X -> FM -> FM) s n :
  i < length (buf s) ->
  @modify_defined (exn U) FM (fun s =>
     option_map (fun b => set b s) (store i x (buf s))) s n <> Undefined.
Proof.
  intros Hi. destruct (store_defined i x (buf s) Hi) as [b Hb].
  unfold modify_defined. rewrite Hb. discriminate.
Qed.

Lemma conditional_add_defined it slot previous s n :
  (forall i, it = Some i -> i < length (points s)) ->
  slot < NUMBER_TO_ROLLBACK ->
  length (to_rollback s) = NUMBER_TO_ROLLBACK ->
  length (if_rollback s) = NUMBER_TO_ROLLBACK ->
  length (to_erase s) = NUMBER_TO_ERASE ->
  length (if_erase s) = NUMBER_TO_ERASE ->
  conditional_add_new_maximum it slot previous s n <> Undefined.
Proof.
  intros Hit Hslot Ltr Lfr Lte Lfe. unfold conditional_add_new_maximum.
  destruct it as [i|]; [|discriminate].
  destruct (it_eqb (Some i) points_end || it_eqb (Some i) previous);
    [discriminate|].
  specialize (Hit i eq_refl). destruct (nth_error_defined _ _ Hit) as [p Hp].
  assert (Hslot' : slot < NUMBER_TO_ERASE)
    by (unfold NUMBER_TO_ERASE, NUMBER_TO_ROLLBACK in *; lia).
  assert (Hx : forall (k : point_type -> C bool) n0,
            (forall x n1, k x n1 <> UB) ->
            bind (defined (deref (points s) (Some i))) k n0 <> UB).
  { intros k n0 Hk. unfold deref. rewrite Hp. apply Hk. }
  apply mbind_defined;
    [apply run_const_defined; now apply is_maximum_defined|].
  intros is_max s1 n1 H1. apply run_const_Ret in H1. destruct H1 as [-> _].
  destruct is_max.
  - apply mbind_defined.
    { apply run_const_defined, Hx. intros. apply present_in_maxima_set_defined. }
    intros present s2 n2 H2. apply run_const_Ret in H2. destruct H2 as [-> _].
    destruct present; cbn [negb]; [discriminate|].
    apply mbind_defined.
    { apply run_const_defined. unfold deref. rewrite Hp. discriminate. }
    intros x s3 n3 H3. apply run_const_Ret in H3. destruct H3 as [-> _].
    apply mbind_defined; [apply maxima_insert_first_defined|].
    intros r s4 n4 H4. apply maxima_insert_first_Ret in H4.
    destruct H4 as [_ ->].
    apply (store_pair_defined _ slot r to_rollback set_to_rollback);
      [simpl; lia|].
    intros b _.
    apply (store_last_defined _ slot true if_rollback set_if_rollback).
    simpl. lia.
  - apply mbind_defined.
    { apply run_const_defined, Hx. intros. apply present_in_maxima_set_defined. }
    intros present s2 n2 H2. apply run_const_Ret in H2. destruct H2 as [-> _].
    destruct present; [|discriminate].
    apply mbind_defined.
    { apply run_const_defined. unfold deref. rewrite Hp.
      apply maxima_find_defined. }
    intros f s3 n3 H3. apply run_const_Ret in H3. destruct H3 as [-> _].
    apply (store_pair_defined _ slot f to_erase set_to_erase); [lia|].
    intros b _.
    apply (store_last_defined _ slot true if_erase set_if_erase).
    simpl. lia.
Qed.

(** *** It keeps the buffers in order *)

Lemma conditional_add_slots i slot previous s n s' n' p :
  conditional_add_new_maximum (Some i) slot previous s n = Ret tt s' n' ->
  it_eqb (Some i) previous = false ->
  nth_error (points s) i = Some p ->
  sortedM (maxima s) ->
  (forall q, In q (maxima s) -> same_node p q = true -> q = p) ->
  slot < NUMBER_TO_ROLLBACK ->
  nth_error (if_erase s) slot = Some false ->
  nth_error (if_rollback s) slot = Some false ->
  (forall x, In_flagged NUMBER_TO_ROLLBACK (if_rollback s) (to_rollback s) x ->
             In x (maxima s)) ->
  ~ In_flagged NUMBER_TO_ERASE (if_erase s) (to_erase s) p ->
  slots_ok NUMBER_TO_ROLLBACK (if_rollback s) (to_rollback s) ->
  slots_ok NUMBER_TO_ERASE (if_erase s) (to_erase s) ->
  slots_ok NUMBER_TO_ROLLBACK (if_rollback s') (to_rollback s') /\
  slots_ok NUMBER_TO_ERASE (if_erase s') (to_erase s').
Proof.
  intros H Hne Hp Hs Hk Hslot Hfe Hfr Hrb Her Hokr Hoke.
  unfold conditional_add_new_maximum in H.
  change (it_eqb (Some i) points_end) with false in H. rewrite Hne in H.
  cbn [orb] in H. break H.
  assert (Hpres : forall x n0 n1,
            present_in_maxima_set p (maxima s) n0 = Val x n1 ->
            (x = true <-> In p (maxima s)) /\
            (x = true -> find_node p (maxima s) = Some p) /\
            (x = false -> forall q, In q (maxima s) -> same_node p q = false)).
  { intros. eapply present_in_maxima; eauto. }
  split_if H; break H;
    repeat match goal with
      | Hd : deref (points _) (Some i) = Some _ |- _ =>
          unfold deref in Hd; rewrite Hp in Hd; some_subst Hd
      end;
    match goal with
    | Hq : present_in_maxima_set p _ _ = Val ?x _ |- _ =>
        destruct (Hpres _ _ _ Hq) as (Hp1 & Hp2 & Hp3); clear Hq;
        destruct x
    end; cbn [negb] in H; break H;
    repeat match goal with
      | Hd : deref (points _) (Some i) = Some _ |- _ =>
          unfold deref in Hd; rewrite Hp in Hd; some_subst Hd
      | Hm : option_map _ _ = Some _ |- _ =>
          let buf := fresh "buf" in let E := fresh "E" in
          apply option_map_Some in Hm; destruct Hm as (buf & E & ->)
      end; auto.
  - (* inserted, slot noted for rollback *)
    match goal with
    | Hi : maxima_insert_first _ _ _ = Ret _ _ _ |- _ =>
        apply maxima_insert_first_Ret in Hi; destruct Hi as (-> & ->)
    end.
    destruct (insert_node_spec p (maxima s) Hs (Hp3 eq_refl)) as (I1 & _).
    rewrite I1 in *. cbn [fst snd] in *. simpl in *.
    split; auto.
    match goal with
    | Ef : store slot true _ = Some _, Es : store slot (Some p) _ = Some _ |- _ =>
        apply (slots_ok_store _ _ _ _ _ _ _ Hokr Hfr) with (3 := Es) (2 := Ef)
    end.
    intros F. apply Hrb in F. apply Hp1 in F. discriminate.
  - (* slot noted for erasure *)
    match goal with
    | Hf : maxima_find p _ _ = Val _ _ |- _ =>
        apply maxima_find_Val in Hf; rewrite (Hp2 eq_refl) in Hf; subst
    end.
    simpl in *. split; auto.
    match goal with
    | Ef : store slot true _ = Some _, Es : store slot (Some p) _ = Some _ |- _ =>
        apply (slots_ok_store _ _ _ _ _ _ _ Hoke Hfe) with (3 := Es) (2 := Ef)
    end.
    exact Her.
Qed.

(** ** The loops over the buffers *)

Lemma sortedM_same_eq m p q :
  sortedM m -> In p m -> In q m -> same_node p q = true -> p = q.
Proof.
  induction 1 as [|x l Hs IH Hall]; [easy|].
  rewrite Forall_forall in Hall. intros [<-|Hp] [<-|Hq] Hpq; auto.
  - rewrite before_not_same in Hpq by auto. discriminate.
  - rewrite before_not_same' in Hpq by auto. discriminate.
Qed.

(** Both loops: unlink the node of every slot of [idx] whose flag is
    raised. *)
Definition unlink_flagged (flags : FM -> list bool)
                          (slots : FM -> list mx_iterator)
                          (idx : list nat) : M unit :=
  for_each idx (fun i =>
    modify_defined (fun s =>
      match nth_error (flags s) i, nth_error (slots s) i with
      | Some true, Some it =>
          option_map (fun m => set_maxima m s) (maxima_erase it (maxima s))
      | Some false, Some _ => Some s
      | _, _ => None
      end)).

Lemma rollback_maxima_unfold :
  rollback_maxima = unlink_flagged if_rollback to_rollback (seq 0 NUMBER_TO_ROLLBACK).
Proof. reflexivity. Qed.

Lemma erase_from_maxima_unfold :
  erase_from_maxima = unlink_flagged if_erase to_erase (seq 0 NUMBER_TO_ERASE).
Proof. reflexivity. Qed.

Lemma unlink_flagged_Thrown flags slots idx : forall s n e s' n',
  unlink_flagged flags slots idx s n = Thrown e s' n' -> False.
Proof.
  induction idx as [|i idx IH]; intros s n e s' n' H.
  - discriminate.
  - unfold unlink_flagged in H. simpl in H. breakT H. eapply IH. exact H.
Qed.

Lemma unlink_flagged_Ret flags slots
  (Hflags : forall m s, flags (set_maxima m s) = flags s)
  (Hslots : forall m s, slots (set_maxima m s) = slots s) idx :
  forall s n s' n',
  sortedM (maxima s) ->
  unlink_flagged flags slots idx s n = Ret tt s' n' ->
  n' = n /\ s' = set_maxima (maxima s') s /\ sortedM (maxima s') /\
  forall x, In x (maxima s') <->
    In x (maxima s) /\
    forall i q, In i idx -> nth_error (flags s) i = Some true ->
                nth_error (slots s) i = Some (Some q) -> same_node q x = false.
Proof.
  induction idx as [|i idx IH]; intros s n s' n' Hs H.
  - unfold unlink_flagged in H. simpl in H. break H.
    split; [reflexivity|]. split; [now destruct s|]. split; [assumption|].
    intros x. split; [|tauto]. intros Hx. split; auto. intros i q [].
  - unfold unlink_flagged in H. simpl in H. break H.
    fold (unlink_flagged flags slots idx) in H.
    destruct (nth_error (flags s) i) as [[|]|] eqn:Ef; try discriminate;
      destruct (nth_error (slots s) i) as [it|] eqn:Es; try discriminate.
    + apply option_map_Some in Hm. destruct Hm as (m1 & Hm & ->).
      destruct it as [q|]; simpl in Hm; [|discriminate].
      destruct (unlink_spec _ _ _ Hs Hm) as [Hs1 Hin1].
      destruct (IH (set_maxima m1 s) _ _ _ Hs1 H) as (-> & Hset & Hs' & Hin).
      rewrite Hflags, Hslots in Hin. simpl in Hin.
      split; [reflexivity|]. split; [rewrite Hset; now destruct s|].
      split; [assumption|]. intros x. split.
      * intros Hx. apply Hin in Hx. destruct Hx as [Hx Hall].
        apply Hin1 in Hx. split; [tauto|].
        intros j r [<-|Hj] Hjf Hjs.
        -- rewrite Es in Hjs. injection Hjs as <-. tauto.
        -- eauto.
      * intros [Hx Hall]. apply Hin. split.
        -- apply Hin1. split; auto. apply (Hall i q); simpl; auto.
        -- intros j r Hj. apply Hall. now right.
    + some_subst Hm.
      destruct (IH _ _ _ _ Hs H) as (-> & Hset & Hs' & Hin).
      split; [reflexivity|]. split; [assumption|].
      split; [assumption|]. intros x. split.
      * intros Hx. apply Hin in Hx. destruct Hx as [Hx Hall]. split; auto.
        intros j r [<-|Hj] Hjf Hjs; [congruence|]. eauto.
      * intros [Hx Hall]. apply Hin. split; auto.
        intros j r Hj. apply Hall. now right.
Qed.

Lemma unlink_flagged_members N flags slots
  (Hflags : forall m s, flags (set_maxima m s) = flags s)
  (Hslots : forall m s, slots (set_maxima m s) = slots s) s n s' n' :
  sortedM (maxima s) ->
  (forall q, In_flagged N (flags s) (slots s) q -> In q (maxima s)) ->
  unlink_flagged flags slots (seq 0 N) s n = Ret tt s' n' ->
  n' = n /\ s' = set_maxima (maxima s') s /\ sortedM (maxima s') /\
  forall x, In x (maxima s') <->
            In x (maxima s) /\ ~ In_flagged N (flags s) (slots s) x.
Proof.
  intros Hs Hsub H.
  destruct (unlink_flagged_Ret flags slots Hflags Hslots _ _ _ _ _ Hs H)
    as (Hn & Hset & Hs' & Hin).
  split; [assumption|]. split; [assumption|]. split; [assumption|].
  intros x. split.
  - intros Hx. apply Hin in Hx. destruct Hx as [Hx Hall]. split; auto.
    intros (j & Hj & Hf & Hq).
    assert (Hin' : In j (seq 0 N)) by (apply in_seq; lia).
    pose proof (Hall j x Hin' Hf Hq) as F.
    rewrite same_node_refl in F. discriminate.
  - intros [Hx Hnf]. apply Hin. split; auto.
    intros j q Hj Hf Hq. apply in_seq in Hj.
    destruct (same_node q x) eqn:E; auto. exfalso. apply Hnf.
    assert (Hfl : In_flagged N (flags s) (slots s) q).
    { exists j. repeat split; auto. lia. }
    rewrite <- (sortedM_same_eq _ _ _ Hs (Hsub _ Hfl) Hx E). exact Hfl.
Qed.

(** The loop erases through valid iterators only: every flagged slot names
    a node that is still there when its turn comes. *)
Lemma unlink_flagged_defined flags slots
  (Hflags : forall m s, flags (set_maxima m s) = flags s)
  (Hslots : forall m s, slots (set_maxima m s) = slots s) idx :
  forall s n,
  NoDup idx -> sortedM (maxima s) ->
  (forall i, In i idx -> nth_error (flags s) i <> None /\
                         nth_error (slots s) i <> None) ->
  (forall i, In i idx -> nth_error (flags s) i = Some true ->
             exists q, nth_error (slots s) i = Some (Some q) /\
                       In q (maxima s)) ->
  (forall i j q, In i idx -> In j idx ->
     nth_error (flags s) i = Some true -> nth_error (flags s) j = Some true ->
     nth_error (slots s) i = Some (Some q) ->
     nth_error (slots s) j = Some (Some q) -> i = j) ->
  unlink_flagged flags slots idx s n <> Undefined.
Proof.
  induction idx as [|i idx IH]; intros s n Hnd Hs Hlen Hin Hone.
  - discriminate.
  - inversion Hnd as [|? ? Hi Hnd']; subst.
    unfold unlink_flagged. cbn [for_each].
    fold (unlink_flagged flags slots idx).
    destruct (Hlen i (or_introl eq_refl)) as [Lf Ls].
    destruct (nth_error (flags s) i) as [[|]|] eqn:Ef; [| |congruence];
      destruct (nth_error (slots s) i) as [it|] eqn:Es; try congruence.
    + destruct (Hin i (or_introl eq_refl) Ef) as (q & Eq & Hq).
      rewrite Es in Eq. some_subst Eq.
      destruct (unlink_defined q (maxima s) Hq) as [m1 Hm1].
      destruct (unlink_spec _ _ _ Hs Hm1) as [Hs1 Hin1].
      unfold mbind, modify_defined. unfold mx_iterator in *.
      rewrite Ef, Es. simpl. rewrite Hm1. simpl.
      apply IH; auto; rewrite ?Hflags, ?Hslots; simpl.
      * intros j Hj. apply Hlen. now right.
      * intros j Hj Hjf. destruct (Hin j (or_intror Hj) Hjf) as (r & Er & Hr).
        exists r. split; auto. apply Hin1. split; auto.
        destruct (same_node q r) eqn:E; auto. exfalso.
        pose proof (sortedM_same_eq _ _ _ Hs Hq Hr E) as <-.
        assert (i = j) by (apply (Hone i j q); simpl; auto).
        subst j. auto.
      * intros j1 j2 r H1 H2. apply Hone; now right.
    + unfold mbind, modify_defined. unfold mx_iterator in *.
      rewrite Ef, Es.
      apply IH; auto.
      * intros j Hj. apply Hlen. now right.
      * intros j Hj. apply Hin. now right.
      * intros j1 j2 r H1 H2. apply Hone; now right.
Qed.

Lemma unlink_flagged_slots_ok N flags slots
  (Hflags : forall m s, flags (set_maxima m s) = flags s)
  (Hslots : forall m s, slots (set_maxima m s) = slots s) s n :
  slots_ok N (flags s) (slots s) -> sortedM (maxima s) ->
  (forall q, In_flagged N (flags s) (slots s) q -> In q (maxima s)) ->
  unlink_flagged flags slots (seq 0 N) s n <> Undefined.
Proof.
  intros [Lf Ls Hsome Hone] Hs Hsub.
  apply unlink_flagged_defined; auto using seq_NoDup.
  - intros i Hi. apply in_seq in Hi. unfold mx_iterator in *.
    split; apply nth_error_Some; lia.
  - intros i Hi Hf. destruct (Hsome i Hf) as [q Hq]. exists q. split; auto.
    apply Hsub. exists i. apply in_seq in Hi. repeat split; auto. lia.
  - intros i j q _ _. apply Hone.
Qed.

(** ** The state between two steps of an update

    [l] is the point sequence the update works on, [m0] the maxima before
    the update, [T] the points re-evaluated so far with the status each
    must end with, [used] the buffer slots already written. *)

Definition RB (s : FM) (x : point_type) : Prop :=
  In_flagged NUMBER_TO_ROLLBACK (if_rollback s) (to_rollback s) x.
Definition ER (s : FM) (x : point_type) : Prop :=
  In_flagged NUMBER_TO_ERASE (if_erase s) (to_erase s) x.

Fixpoint settled (T : list (point_type * bool)) (base : point_type -> Prop)
                 (x : point_type) : Prop :=
  match T with
  | [] => base x
  | (p, b) :: T' => (x = p /\ b = true) \/ (x <> p /\ settled T' base x)
  end.

Definition keysP (l : point_set) : Prop :=
  forall p q, In p l -> In q l -> same_node p q = true -> p = q.

Record staged (l : point_set) (m0 : maxima_set)
              (T : list (point_type * bool)) (used : list nat) (s : FM)
  : Prop := {
  st_points : points s = l;
  st_sorted : sortedM (maxima s);
  st_within : forall x, In x (maxima s) -> In x l;
  st_maxima : forall x, In x (maxima s) <-> In x m0 \/ RB s x;
  st_fresh : forall x, RB s x -> ~ In x m0;
  st_erase : forall x, ER s x -> In x (maxima s) /\ In x (map fst T);
  st_settled : forall x, In x (maxima s) /\ ~ ER s x <->
                         settled T (fun y => In y m0) x;
  st_nodup : NoDup (map fst T);
  st_free_e : forall j, ~ In j used -> j < NUMBER_TO_ERASE ->
                        nth_error (if_erase s) j = Some false;
  st_free_r : forall j, ~ In j used -> j < NUMBER_TO_ROLLBACK ->
                        nth_error (if_rollback s) j = Some false;
  st_slots_e : slots_ok NUMBER_TO_ERASE (if_erase s) (to_erase s);
  st_slots_r : slots_ok NUMBER_TO_ROLLBACK (if_rollback s) (to_rollback s)
}.

Lemma settled_spec T base x :
  NoDup (map fst T) ->
  (settled T base x <-> In (x, true) T \/ (~ In x (map fst T) /\ base x)).
Proof.
  induction T as [|[p b] T IH]; simpl; intros Hnd.
  - tauto.
  - inversion Hnd as [|? ? Hp Hnd']; subst. specialize (IH Hnd'). split.
    + intros [[-> ->]|[Hne H]]; auto.
      apply IH in H. destruct H as [H|[H1 H2]]; auto.
      right. split; auto. intros [F|F]; auto.
    + intros [[H|H]|[H1 H2]].
      * injection H as -> ->. auto.
      * right. split; [|apply IH; auto].
        intros ->. apply Hp. apply (in_map fst) in H. exact H.
      * right. split; [|apply IH; tauto]. intros ->. auto.
Qed.

Lemma not_in_cons (j slot : nat) used :
  ~ In j (slot :: used) -> j <> slot /\ ~ In j used.
Proof. simpl. intuition congruence. Qed.

Lemma staged_start l (s : FM) :
  sortedM (maxima s) -> (forall x, In x (maxima s) -> In x l) ->
  if_erase s = repeat false NUMBER_TO_ERASE ->
  if_rollback s = repeat false NUMBER_TO_ROLLBACK ->
  length (to_erase s) = NUMBER_TO_ERASE ->
  length (to_rollback s) = NUMBER_TO_ROLLBACK ->
  staged l (maxima s) [] [] (set_points l s).
Proof.
  intros Hs Hin He Hr Le Lr.
  assert (HE : forall x, ~ ER (set_points l s) x).
  { intros x. unfold ER. simpl. rewrite He. apply In_flagged_clear. }
  assert (HR : forall x, ~ RB (set_points l s) x).
  { intros x. unfold RB. simpl. rewrite Hr. apply In_flagged_clear. }
  constructor; simpl; auto.
  - intros x. split; auto. intros [?|F]; auto. destruct (HR _ F).
  - intros x F. destruct (HR _ F).
  - intros x F. destruct (HE _ F).
  - intros x. split; [tauto|]. intros Hx. split; auto.
  - constructor.
  - intros j _ Hj. rewrite He. clear -Hj. unfold NUMBER_TO_ERASE in *.
    do 5 (destruct j as [|j]; [reflexivity|]). lia.
  - intros j _ Hj. rewrite Hr. clear -Hj. unfold NUMBER_TO_ROLLBACK in *.
    do 4 (destruct j as [|j]; [reflexivity|]). lia.
  - rewrite He. now apply slots_ok_clear.
  - rewrite Hr. now apply slots_ok_clear.
Qed.

Lemma staged_step l m0 T used s i slot previous p n s' n' :
  staged l m0 T used s -> keysP l ->
  nth_error l i = Some p -> it_eqb (Some i) previous = false ->
  ~ In p (map fst T) -> ~ In slot used -> slot < NUMBER_TO_ROLLBACK ->
  conditional_add_new_maximum (Some i) slot previous s n = Ret tt s' n' ->
  staged l m0 ((p, is_max_at l i previous p) :: T) (slot :: used) s'.
Proof.
  intros St Hkeys Hp Hne HpT Hslot Hlt H.
  destruct St as [Spts Ssort Swithin Smax Sfresh Serase Sset Snd Sfe Sfr
                  Soe Sor].
  assert (Hpl : In p l) by (eapply nth_error_In; eauto).
  assert (Hlt' : slot < NUMBER_TO_ERASE)
    by (unfold NUMBER_TO_ERASE, NUMBER_TO_ROLLBACK in *; lia).
  subst l.
  assert (Hnode : forall q, In q (maxima s) -> same_node p q = true -> q = p).
  { intros q Hq Hsame. symmetry. apply Hkeys; auto. }
  destruct (conditional_add_slots _ _ _ _ _ _ _ _ H Hne Hp Ssort Hnode)
    as [Okr Oke]; auto.
  { intros x Hx. apply Smax. now right. }
  { intros F. apply Serase in F. tauto. }
  destruct (conditional_add_Ret _ _ _ _ _ _ _ _ H Hne Hp Ssort) as
    (pres & Hpres & Epts & Esort & Emax & Erb & Eer & Efe & Efr); auto.
  set (b := is_max_at (points s) i previous p) in *.
  constructor; auto; unfold RB, ER in *.
  - intros x Hx. apply Emax in Hx. destruct Hx as [Hx|[-> _]]; auto.
  - intros x. rewrite Emax, Erb, Smax. split.
    + intros [[?|?]|[-> Hb]]; auto.
      destruct pres; [|tauto].
      destruct (proj1 (Smax p) (proj1 Hpres eq_refl)); auto.
    + intros [?|[?|(-> & Hb & _)]]; auto.
  - intros x Hx. apply Erb in Hx. destruct Hx as [Hx|(-> & _ & Hf)]; auto.
    intros F. assert (In p (maxima s)) by (apply Smax; auto).
    apply Hpres in H0. congruence.
  - intros x Hx. apply Eer in Hx. destruct Hx as [Hx|(-> & _ & Ht)].
    + destruct (Serase _ Hx). split; [apply Emax; auto|simpl; auto].
    + split; [apply Emax; left; apply Hpres; auto|simpl; auto].
  - intros x. simpl. rewrite Emax, Eer, <- Sset. split.
    + intros [[Hx|[-> Hb]] Hner]; auto.
      destruct (same_node p x) eqn:Esame.
      * assert (x = p) by (symmetry; apply Hkeys; auto). subst x.
        destruct b eqn:Eb; auto. exfalso. apply Hner. right.
        repeat split; auto. apply Hpres; auto.
      * right. split; [|tauto]. intros ->.
        rewrite same_node_refl in Esame. discriminate.
    + intros [[-> Hb]|[Hne' [Hx Hner]]].
      * split; auto. intros [F|(_ & F & _)]; [|congruence].
        apply Serase in F. tauto.
      * split; auto. intros [F|(F & _)]; auto.
  - simpl. constructor; auto.
  - intros j Hj Hjlt. rewrite Efe; [|simpl in Hj; intuition]. apply Sfe; auto.
    simpl in Hj. tauto.
  - intros j Hj Hjlt. rewrite Efr; [|simpl in Hj; intuition]. apply Sfr; auto.
    simpl in Hj. tauto.
Qed.

(** Recording the node of the point that goes away. *)
Lemma staged_mark l m0 T used s slot old temp n s' n' :
  staged l m0 T used s -> keysP l -> In old l ->
  ~ In old (map fst T) -> ~ In slot used -> slot < NUMBER_TO_ERASE ->
  temp = find_node old (maxima s) ->
  (match temp with
   | Some _ => store_to_erase slot temp ;;; store_if_erase slot true
   | None => mret tt
   end) s n = Ret tt s' n' ->
  n' = n /\ staged l m0 ((old, false) :: T) (slot :: used) s'.
Proof.
  intros St Hkeys Hold HoT Hslot Hlt Htemp H.
  destruct St as [Spts Ssort Swithin Smax Sfresh Serase Sset Snd Sfe Sfr
                  Soe Sor].
  destruct temp as [q|].
  - symmetry in Htemp. apply find_node_Some in Htemp. destruct Htemp as [Hq Hsame].
    assert (q = old) by (symmetry; apply Hkeys; auto). subst q.
    break H.
    apply option_map_Some in Hm. destruct Hm as (buf & Es & ->).
    apply option_map_Some in Hm0. destruct Hm0 as (fl & Ef & ->).
    simpl in Ef.
    pose proof (In_flagged_store _ _ _ _ _ _ _ Hlt (Sfe _ Hslot Hlt) Ef Es) as HF.
    destruct (store_spec _ _ _ _ Ef) as [_ HS].
    split; auto. constructor; simpl; auto; unfold RB, ER in *; simpl;
      try (intros j Hj Hjlt; apply not_in_cons in Hj; rewrite ?HS by tauto;
           first [apply Sfe; tauto | apply Sfr; tauto]).
    + intros x Hx. apply HF in Hx. destruct Hx as [Hx| ->].
      * destruct (Serase _ Hx). auto.
      * auto.
    + intros x. rewrite HF, <- Sset. split.
      * intros [Hx Hn]. right. split; [|tauto]. intros ->. tauto.
      * intros [[_ F]|[Hne [Hx Hn]]]; [discriminate|]. tauto.
    + constructor; auto.
    + apply (slots_ok_store _ _ _ _ _ _ _ Soe (Sfe _ Hslot Hlt)) with (3 := Es);
        auto.
      intros F. apply Serase in F. tauto.
  - break H. symmetry in Htemp.
    pose proof (find_node_None _ _ Ssort Htemp) as Hnone.
    assert (Hnot : ~ In old (maxima s)).
    { intros F. apply Hnone in F. rewrite same_node_refl in F. discriminate. }
    split; auto. constructor; simpl; auto;
      try (intros j Hj Hjlt; apply not_in_cons in Hj;
           first [apply Sfe; tauto | apply Sfr; tauto]).
    + intros x Hx. destruct (Serase _ Hx). auto.
    + intros x. rewrite <- Sset. split.
      * intros [Hx Hn]. right. split; [|tauto]. intros ->. tauto.
      * intros [[_ F]|[Hne Hx]]; [discriminate|]. tauto.
    + constructor; auto.
Qed.

(** Commit: what [erase_from_maxima] leaves.  [s0] is [s] up to its point
    sequence. *)
Lemma staged_commit l m0 T used s s0 n u s' n' :
  staged l m0 T used s ->
  maxima s0 = maxima s -> if_erase s0 = if_erase s ->
  to_erase s0 = to_erase s ->
  erase_from_maxima s0 n = Ret u s' n' ->
  n' = n /\ s' = set_maxima (maxima s') s0 /\ sortedM (maxima s') /\
  forall x, In x (maxima s') <-> settled T (fun y => In y m0) x.
Proof.
  intros St Em Ef Et H. destruct u. rewrite erase_from_maxima_unfold in H.
  apply (unlink_flagged_members NUMBER_TO_ERASE if_erase to_erase) in H;
    try reflexivity.
  - destruct H as (Hn & Hset & Hs' & Hin). repeat split; auto.
    + intros Hx. apply (st_settled _ _ _ _ _ St). unfold ER.
      rewrite <- Em, <- Ef, <- Et. apply Hin. exact Hx.
    + intros Hx. apply Hin. rewrite Em, Ef, Et.
      apply (st_settled _ _ _ _ _ St). exact Hx.
  - rewrite Em. exact (st_sorted _ _ _ _ _ St).
  - intros q Hq. rewrite Em, Ef, Et in *.
    apply (st_erase _ _ _ _ _ St). exact Hq.
Qed.

(** Rollback: [rollback_maxima] restores the maxima of before. *)
Lemma staged_rollback l m0 T used s s0 n u s' n' :
  staged l m0 T used s -> sortedM m0 ->
  maxima s0 = maxima s -> if_rollback s0 = if_rollback s ->
  to_rollback s0 = to_rollback s ->
  rollback_maxima s0 n = Ret u s' n' ->
  n' = n /\ s' = set_maxima m0 s0.
Proof.
  intros St Hm0 Em Ef Et H. destruct u. rewrite rollback_maxima_unfold in H.
  apply (unlink_flagged_members NUMBER_TO_ROLLBACK if_rollback to_rollback) in H;
    try reflexivity.
  - destruct H as (Hn & Hset & Hs' & Hin). split; auto.
    rewrite Hset. f_equal. apply sortedM_ext; auto.
    intros x. rewrite Hin, Em, Ef, Et. fold (RB s x).
    rewrite (st_maxima _ _ _ _ _ St). split.
    + intros [[?|?] ?]; tauto.
    + intros Hx. split; auto. intros F. apply (st_fresh _ _ _ _ _ St) in F. tauto.
  - rewrite Em. exact (st_sorted _ _ _ _ _ St).
  - intros q Hq. rewrite Em, Ef, Et in *.
    apply (st_maxima _ _ _ _ _ St). right. exact Hq.
Qed.

(** ** Local maxima of a point sequence *)

Definition left_neighbor (l : point_set) (i : nat) : option point_type :=
  match i with 0 => None | S j => nth_error l j end.

Definition right_neighbor (l : point_set) (i : nat) : option point_type :=
  nth_error l (S i).

(** [p], stored at position [i], is not less than either neighbour. *)
Definition local_maximum (l : point_set) (i : nat) (p : point_type) : Prop :=
  nth_error l i = Some p /\
  (forall q, left_neighbor l i = Some q -> V_lt (value p) (value q) = false) /\
  (forall q, right_neighbor l i = Some q -> V_lt (value p) (value q) = false).

Lemma ge_opt_true p o :
  ge_opt p o = true <-> forall q, o = Some q -> V_lt (value p) (value q) = false.
Proof.
  destruct o as [q|]; simpl.
  - rewrite negb_true_iff. split; [intros H r Hr; congruence|auto].
  - split; [intros _ r Hr; discriminate|auto].
Qed.

Lemma left_nb_None l i : left_nb l i None = left_neighbor l i.
Proof. destruct i; reflexivity. Qed.

Lemma right_nb_None l i : right_nb l i None = right_neighbor l i.
Proof. reflexivity. Qed.

Lemma local_maximum_iff l i p :
  local_maximum l i p <->
  nth_error l i = Some p /\ is_max_at l i None p = true.
Proof.
  unfold local_maximum, is_max_at.
  rewrite andb_true_iff, !ge_opt_true, left_nb_None, right_nb_None. tauto.
Qed.

(** Invariant I1: the maxima are exactly the local maxima. *)
Definition I1 (l : point_set) (m : maxima_set) : Prop :=
  forall x, In x m <-> exists i, local_maximum l i x.

(** Skipping [previous] gives the neighbours of the sequence without it. *)
Lemma is_max_at_removed L2 k L' j p :
  remove_at k L2 = Some L' -> j <> k -> nth_error L2 j = Some p ->
  nth_error L' (if j <? k then j else j - 1) = Some p /\
  is_max_at L2 j (Some k) p = is_max_at L' (if j <? k then j else j - 1) None p.
Proof.
  intros Hrm Hjk Hp. destruct (remove_at_spec _ _ _ Hrm) as (_ & _ & Hnth).
  unfold is_max_at. rewrite left_nb_None, right_nb_None.
  unfold left_nb, right_nb, left_neighbor, right_neighbor, it_eqb.
  destruct (Nat.ltb_spec j k) as [Hlt|Hge].
  - split.
    + rewrite Hnth. destruct (Nat.ltb_spec j k); [auto|lia].
    + f_equal.
      * destruct j as [|j1]; auto.
        destruct (Nat.eqb_spec j1 k); [lia|]. rewrite Hnth.
        destruct (Nat.ltb_spec j1 k); [auto|lia].
      * rewrite Hnth. destruct (Nat.eqb_spec (S j) k);
          destruct (Nat.ltb_spec (S j) k); auto; lia.
  - destruct j as [|j1]; [lia|]. simpl Nat.sub. rewrite Nat.sub_0_r. split.
    + rewrite Hnth. destruct (Nat.ltb_spec j1 k); [lia|auto].
    + f_equal.
      * destruct (Nat.eqb_spec j1 k) as [->|Hne].
        -- destruct k as [|k1]; auto. rewrite Hnth.
           destruct (Nat.ltb_spec k1 (S k1)); [auto|lia].
        -- destruct j1 as [|j2]; [lia|]. rewrite Hnth.
           destruct (Nat.ltb_spec j2 k); [lia|auto].
      * destruct (Nat.eqb_spec (S (S j1)) k); [lia|]. rewrite Hnth.
        destruct (Nat.ltb_spec (S j1) k); [lia|auto].
Qed.

Lemma In_dec_keys l x ps :
  keysP l -> In x l -> (forall p, In p ps -> In p l) ->
  In x ps \/ ~ In x ps.
Proof.
  intros Hk Hx. induction ps as [|p ps IH]; intros Hps; [now right|].
  destruct IH as [IH|IH]; [intros; apply Hps; now right|now left; right|].
  destruct (same_node p x) eqn:E.
  - left. left. apply Hk; auto. apply Hps. now left.
  - right. intros [->|F]; auto. rewrite same_node_refl in E. discriminate.
Qed.

(** From the maxima before an update to the maxima after it. *)
Lemma I1_transfer L m0 L' T m' :
  sortedP L -> sortedP L' -> I1 L m0 -> NoDup (map fst T) ->
  (forall x, In x m' <-> settled T (fun y => In y m0) x) ->
  (forall j x, nth_error L' j = Some x ->
               In x (map fst T) \/ ~ In x (map fst T)) ->
  (forall p b, In (p, b) T ->
     (exists j, nth_error L' j = Some p /\ b = is_max_at L' j None p) \/
     ((forall j, nth_error L' j <> Some p) /\ b = false)) ->
  (forall j x, nth_error L' j = Some x -> ~ In x (map fst T) ->
     exists j0, nth_error L j0 = Some x /\
                is_max_at L j0 None x = is_max_at L' j None x) ->
  (forall j0 x, nth_error L j0 = Some x -> ~ In x (map fst T) ->
     exists j, nth_error L' j = Some x) ->
  I1 L' m'.
Proof.
  intros HsL HsL' HI Hnd Hm' Hdec Htouched Hloc Hsurv x.
  rewrite Hm', settled_spec by assumption. split.
  - intros [Hx|[Hx Hm0]].
    + destruct (Htouched _ _ Hx) as [(j & Hj & Hb)|[_ F]]; [|discriminate].
      exists j. apply local_maximum_iff. auto.
    + apply HI in Hm0. destruct Hm0 as [j0 Hj0].
      apply local_maximum_iff in Hj0. destruct Hj0 as [Hj0 Hmax].
      destruct (Hsurv _ _ Hj0 Hx) as [j Hj].
      destruct (Hloc _ _ Hj Hx) as (j0' & Hj0' & Heq).
      assert (j0' = j0) by exact (sortedP_inj L j0' j0 x x HsL Hj0' Hj0 eq_refl).
      subst j0'.
      exists j. apply local_maximum_iff. split; congruence.
  - intros [j Hj]. apply local_maximum_iff in Hj. destruct Hj as [Hj Hmax].
    destruct (Hdec _ _ Hj) as [Hin|Hnin].
    + left. apply in_map_iff in Hin. destruct Hin as ([p b] & Hfst & Hin).
      simpl in Hfst. subst p.
      destruct (Htouched _ _ Hin) as [(j' & Hj' & Hb)|[F _]].
      * assert (j' = j) by exact (sortedP_inj L' j' j x x HsL' Hj' Hj eq_refl).
        subst j'.
        rewrite Hmax in Hb. now subst b.
      * destruct (F _ Hj).
    + right. split; auto. apply HI.
      destruct (Hloc _ _ Hj Hnin) as (j0 & Hj0 & Heq).
      exists j0. apply local_maximum_iff. split; congruence.
Qed.

(** The point a call of [conditional_add_new_maximum] re-evaluates, with
    the status it must end with. *)
Definition touch (l : point_set) (it previous : iterator)
  : list (point_type * bool) :=
  match it with
  | Some i => match nth_error l i with
              | Some p => [(p, is_max_at l i previous p)]
              | None => []
              end
  | None => []
  end.

Arguments touch : simpl never.

Lemma touch_In l it previous p b :
  In (p, b) (touch l it previous) ->
  exists j, it = Some j /\ nth_error l j = Some p /\
            b = is_max_at l j previous p.
Proof.
  unfold touch. destruct it as [j|]; [|easy].
  destruct (nth_error l j) as [q|] eqn:E; [|easy].
  intros [H|[]]. injection H as <- <-. eauto.
Qed.

Lemma touch_fst l it previous x :
  In x (map fst (touch l it previous)) ->
  exists j, it = Some j /\ nth_error l j = Some x.
Proof.
  intros H. apply in_map_iff in H. destruct H as ([p b] & <- & H).
  apply touch_In in H. destruct H as (j & ? & ? & _). eauto.
Qed.

Lemma staged_used l m0 T used s slot :
  staged l m0 T used s -> staged l m0 T (slot :: used) s.
Proof.
  intros [? ? ? ? ? ? ? ? Sfe Sfr ? ?]. constructor; auto.
  - intros j Hj. apply not_in_cons in Hj. apply Sfe. tauto.
  - intros j Hj. apply not_in_cons in Hj. apply Sfr. tauto.
Qed.

Lemma staged_step_opt l m0 T used s it slot previous n u s' n' :
  staged l m0 T used s -> keysP l ->
  ~ In slot used -> slot < NUMBER_TO_ROLLBACK ->
  conditional_add_new_maximum it slot previous s n = Ret u s' n' ->
  (forall i, it = Some i ->
     it_eqb (Some i) previous = false /\
     exists p, nth_error l i = Some p /\ ~ In p (map fst T)) ->
  staged l m0 (touch l it previous ++ T) (slot :: used) s'.
Proof.
  intros St Hk Hslot Hlt H Hit. destruct u. destruct it as [i|].
  - destruct (Hit i eq_refl) as (Hne & p & Hp & HpT).
    unfold touch. rewrite Hp. simpl. eapply staged_step; eauto.
  - rewrite conditional_add_skip in H by reflexivity.
    injection H as <- <-. simpl. now apply staged_used.
Qed.

Lemma multi_prev_skipped l j previous p q :
  nth_error l (S j) = Some p ->
  multi_prev l (Some (S j)) previous = Some q ->
  it_eqb (Some j) previous = true ->
  q = match j with
      | 0 => if leftmost_is_root l then Some 0 else points_end
      | S j' => Some j'
      end.
Proof.
  intros Hp Hq E. apply (multi_prev_S _ _ _ _ _ Hp) in Hq. now rewrite E in Hq.
Qed.

Lemma it_eqb_refl p : it_eqb p p = true.
Proof. destruct p; simpl; auto using Nat.eqb_refl. Qed.

Lemma it_eqb_Some i j : it_eqb (Some i) (Some j) = (i =? j).
Proof. reflexivity. Qed.

(** ** The invariant of the object *)

Record wf (s : FM) : Prop := {
  wf_points : sortedP (points s);
  wf_maxima : sortedM (maxima s);
  wf_I1 : I1 (points s) (maxima s);
  wf_if_erase : if_erase s = repeat false NUMBER_TO_ERASE;
  wf_if_rollback : if_rollback s = repeat false NUMBER_TO_ROLLBACK;
  wf_to_erase : length (to_erase s) = NUMBER_TO_ERASE;
  wf_to_rollback : length (to_rollback s) = NUMBER_TO_ROLLBACK
}.

Lemma wf_within s : wf s -> forall x, In x (maxima s) -> In x (points s).
Proof.
  intros Hwf x Hx. apply (wf_I1 _ Hwf) in Hx. destruct Hx as (i & Hi & _).
  eapply nth_error_In; eauto.
Qed.

Lemma sortedP_keys l : sortedP l -> keysP l.
Proof.
  intros Hs p q Hp Hq Hsame.
  apply In_nth_error in Hp, Hq. destruct Hp as [i Hi], Hq as [j Hj].
  apply same_node_iff in Hsame. destruct Hsame as (Ha & _).
  assert (i = j) by (eapply sortedP_inj; eauto). subst j. congruence.
Qed.

(** ** The three ways the point sequence changes *)

Ltac arith_cases :=
  repeat match goal with
    | |- context [?a <? ?b] => destruct (Nat.ltb_spec a b)
    | |- context [?a =? ?b] => destruct (Nat.eqb_spec a b)
    | |- context [?a <=? ?b] => destruct (Nat.leb_spec a b)
    end; try lia; try congruence; auto.

Definition injP (l : point_set) : Prop :=
  forall i j x, nth_error l i = Some x -> nth_error l j = Some x -> i = j.

Lemma sortedP_injP l : sortedP l -> injP l.
Proof. intros Hs i j x Hi Hj. eapply sortedP_inj; eauto. Qed.

Lemma length_insert_at_le k p l :
  k <= length l -> length (insert_at k p l) = S (length l).
Proof. intros H. destruct (length_insert_at k p l); [auto|lia]. Qed.

Lemma touch_fst_intro l j previous x :
  nth_error l j = Some x -> In x (map fst (touch l (Some j) previous)).
Proof. intros H. unfold touch. rewrite H. simpl. auto. Qed.

(** *** A new argument *)

Lemma insert_sortedP a v L :
  sortedP L -> points_find a L = None ->
  sortedP (insert_at (upper_bound (mk_point a v) L) (mk_point a v) L).
Proof.
  intros Hs Hf. set (k := upper_bound (mk_point a v) L).
  pose proof (upper_bound_le (mk_point a v) L) as Hk. fold k in Hk.
  pose proof (upper_bound_absent a v L Hs Hf) as Hub. fold k in Hub.
  intros i j p q Hij. rewrite !nth_insert_at by assumption.
  destruct (Nat.ltb_spec i k) as [Hi|Hi].
  - intros Hp. destruct (Nat.ltb_spec j k) as [Hj|Hj].
    + intros Hq. exact (Hs _ _ _ _ Hij Hp Hq).
    + specialize (Hub _ _ Hp). destruct (Nat.ltb_spec i k); [|lia].
      destruct (Nat.eqb_spec j k).
      * intros Hq. some_subst Hq. exact Hub.
      * intros Hq. eapply Hs; [|exact Hp|exact Hq]. lia.
  - destruct (Nat.ltb_spec j k); [lia|].
    destruct (Nat.eqb_spec j k); [lia|].
    destruct (Nat.eqb_spec i k).
    + intros Hp Hq. some_subst Hp. specialize (Hub _ _ Hq).
      destruct (Nat.ltb_spec (j - 1) k); [lia|]. exact Hub.
    + intros Hp Hq. eapply Hs; [|exact Hp|exact Hq]. lia.
Qed.

(** *** A new value for an argument *)

Lemma overwrite_nth L k old new L' :
  nth_error L k = Some old ->
  remove_at k (insert_at (S k) new L) = Some L' ->
  forall j, nth_error L' j = if j =? k then Some new else nth_error L j.
Proof.
  intros Hk Hrm j. pose proof (nth_error_lt _ _ _ Hk) as Hlen.
  destruct (remove_at_spec _ _ _ Hrm) as (_ & _ & H). rewrite H.
  rewrite !nth_insert_at by lia. arith_cases.
  simpl. now rewrite Nat.sub_0_r.
Qed.

Lemma overwrite_sortedP L k old new L' :
  sortedP L -> nth_error L k = Some old -> arg new = arg old ->
  (forall j, nth_error L' j = if j =? k then Some new else nth_error L j) ->
  sortedP L'.
Proof.
  intros Hs Hk Ha Hnth i j p q Hij. rewrite !Hnth.
  destruct (Nat.eqb_spec i k) as [->|Hi]; destruct (Nat.eqb_spec j k) as [->|Hj];
    try lia; intros Hp Hq.
  - some_subst Hp. rewrite Ha. exact (Hs _ _ _ _ Hij Hk Hq).
  - some_subst Hq. rewrite Ha. exact (Hs _ _ _ _ Hij Hp Hk).
  - exact (Hs _ _ _ _ Hij Hp Hq).
Qed.

Lemma overwrite_injP L k old new :
  sortedP L -> nth_error L k = Some old -> new <> old -> arg new = arg old ->
  injP (insert_at (S k) new L).
Proof.
  intros Hs Hk Hne Ha i j x. pose proof (nth_error_lt _ _ _ Hk) as Hlen.
  rewrite !nth_insert_at by lia.
  assert (Hold : forall m y, nth_error L m = Some y -> arg y = arg old -> m = k).
  { intros m y Hm Hy. eapply sortedP_inj; eauto. }
  destruct (Nat.ltb_spec i (S k)); destruct (Nat.ltb_spec j (S k)).
  - intros Hi Hj. eapply sortedP_inj; eauto.
  - destruct (Nat.eqb_spec j (S k)).
    + intros Hi Hj. some_subst Hj. pose proof (Hold _ _ Hi Ha). subst i.
      congruence.
    + intros Hi Hj. assert (i = j - 1) by (eapply sortedP_inj; eauto). lia.
  - destruct (Nat.eqb_spec i (S k)).
    + intros Hi Hj. some_subst Hi. pose proof (Hold _ _ Hj Ha). subst j.
      congruence.
    + intros Hi Hj. assert (i - 1 = j) by (eapply sortedP_inj; eauto). lia.
  - destruct (Nat.eqb_spec i (S k)); destruct (Nat.eqb_spec j (S k)); try lia.
    + intros Hi Hj. some_subst Hi. pose proof (Hold _ _ Hj Ha). lia.
    + intros Hi Hj. some_subst Hj. pose proof (Hold _ _ Hi Ha). lia.
    + intros Hi Hj. assert (i - 1 = j - 1) by (eapply sortedP_inj; eauto). lia.
Qed.

Lemma overwrite_keysP L k old new :
  sortedP L -> nth_error L k = Some old -> same_node new old = false ->
  arg new = arg old ->
  keysP (insert_at (S k) new L).
Proof.
  intros Hs Hk Hne Ha. pose proof (nth_error_lt _ _ _ Hk) as Hlen.
  assert (Hin : forall x, In x (insert_at (S k) new L) -> x = new \/ In x L).
  { intros x Hx. apply In_nth_error in Hx. destruct Hx as [j Hj].
    rewrite nth_insert_at in Hj by lia.
    destruct (j <? S k); [right; eapply nth_error_In; eauto|].
    destruct (j =? S k); [left; congruence|right; eapply nth_error_In; eauto]. }
  assert (Hold : forall y, In y L -> same_node new y = false).
  { intros y Hy. destruct (same_node new y) eqn:E; auto.
    pose proof E as E'. apply same_node_iff in E'. destruct E' as (Hy' & _).
    apply In_nth_error in Hy. destruct Hy as [m Hm].
    assert (m = k) by (eapply sortedP_inj; eauto; congruence). subst m.
    congruence. }
  intros p q Hp Hq Hsame.
  destruct (Hin _ Hp) as [->|Hp']; destruct (Hin _ Hq) as [->|Hq']; auto.
  - rewrite Hold in Hsame by auto. discriminate.
  - rewrite same_node_sym, Hold in Hsame by auto. discriminate.
  - apply (sortedP_keys _ Hs); auto.
Qed.

(** *** An argument removed *)

Lemma remove_sortedP L k L' :
  sortedP L -> remove_at k L = Some L' -> sortedP L'.
Proof.
  intros Hs Hrm i j p q Hij. destruct (remove_at_spec _ _ _ Hrm) as (_ & _ & H).
  rewrite !H. destruct (Nat.ltb_spec i k); destruct (Nat.ltb_spec j k);
    try lia; intros Hp Hq; (eapply Hs; [|exact Hp|exact Hq]); lia.
Qed.

Lemma remove_absent L k old L' :
  injP L -> nth_error L k = Some old -> remove_at k L = Some L' ->
  forall j, nth_error L' j <> Some old.
Proof.
  intros Hinj Hk Hrm j. destruct (remove_at_spec _ _ _ Hrm) as (_ & _ & H).
  rewrite H. destruct (Nat.ltb_spec j k); intros F;
    pose proof (Hinj _ _ _ F Hk); lia.
Qed.

Lemma touch_removed L2 k L' it p b :
  remove_at k L2 = Some L' -> it_eqb it (Some k) = false ->
  In (p, b) (touch L2 it (Some k)) ->
  exists j, nth_error L' j = Some p /\ b = is_max_at L' j None p.
Proof.
  intros Hrm Hne H. apply touch_In in H. destruct H as (j & -> & Hj & ->).
  rewrite it_eqb_Some in Hne. apply Nat.eqb_neq in Hne.
  destruct (is_max_at_removed _ _ _ _ _ Hrm Hne Hj) as [H1 H2]. eauto.
Qed.

Lemma is_max_at_None_eq L L' j j' x :
  left_neighbor L j = left_neighbor L' j' ->
  right_neighbor L j = right_neighbor L' j' ->
  is_max_at L j None x = is_max_at L' j' None x.
Proof.
  intros Hl Hr. unfold is_max_at. rewrite !left_nb_None, !right_nb_None.
  now rewrite Hl, Hr.
Qed.

Lemma overwrite_transfer L m0 k old new L' nx pv m' :
  sortedP L -> I1 L m0 -> nth_error L k = Some old ->
  arg new = arg old -> same_node new old = false ->
  remove_at k (insert_at (S k) new L) = Some L' ->
  nx = (if S (S k) <? length (insert_at (S k) new L)
        then Some (S (S k)) else None) ->
  pv = match k with 0 => None | S k' => Some k' end ->
  NoDup (map fst ((old, false) ::
                  touch (insert_at (S k) new L) pv (Some k) ++
                  touch (insert_at (S k) new L) nx (Some k) ++
                  touch (insert_at (S k) new L) (Some (S k)) (Some k))) ->
  (forall x, In x m' <->
     settled ((old, false) ::
              touch (insert_at (S k) new L) pv (Some k) ++
              touch (insert_at (S k) new L) nx (Some k) ++
              touch (insert_at (S k) new L) (Some (S k)) (Some k))
             (fun y => In y m0) x) ->
  sortedP L' /\ I1 L' m'.
Proof.
  intros Hs HI Hk Ha Hne Hrm Hnx Hpv Hnd Hm'.
  set (L2 := insert_at (S k) new L) in *.
  pose proof (nth_error_lt _ _ _ Hk) as Hlen.
  assert (HL2 : forall j, nth_error L2 j =
            if j <? S k then nth_error L j
            else if j =? S k then Some new else nth_error L (j - 1)).
  { intros j. unfold L2. apply nth_insert_at. lia. }
  assert (HlenL2 : length L2 = S (length L))
    by (apply length_insert_at_le; lia).
  pose proof (overwrite_nth _ _ _ _ _ Hk Hrm) as HL'.
  assert (Hnew : new <> old).
  { intros ->. rewrite same_node_refl in Hne. discriminate. }
  pose proof (overwrite_injP _ _ _ _ Hs Hk Hnew Ha) as Hinj. fold L2 in Hinj.
  pose proof (overwrite_keysP _ _ _ _ Hs Hk Hne Ha) as Hkeys. fold L2 in Hkeys.
  pose proof (overwrite_sortedP _ _ _ _ _ Hs Hk Ha HL') as HsL'.
  assert (HoldL2 : nth_error L2 k = Some old).
  { rewrite HL2. destruct (Nat.ltb_spec k (S k)); [auto|lia]. }
  assert (HnewL2 : nth_error L2 (S k) = Some new).
  { rewrite HL2. arith_cases. }
  assert (HinL2 : forall j x, nth_error L j = Some x -> In x L2).
  { intros j x Hj. apply (nth_error_In L2 (if j <? S k then j else S j)).
    rewrite HL2. arith_cases. simpl. now rewrite Nat.sub_0_r. }
  assert (HinL' : forall j x, nth_error L' j = Some x -> In x L2).
  { intros j x Hj. rewrite HL' in Hj. destruct (Nat.eqb_spec j k); eauto.
    some_subst Hj. eapply nth_error_In; eauto. }
  assert (Htouch : forall it x, In x (map fst (touch L2 it (Some k))) -> In x L2).
  { intros it x Hx. apply touch_fst in Hx. destruct Hx as (j & _ & Hj).
    eapply nth_error_In; eauto. }
  split; [assumption|].
  apply (I1_transfer L m0 L' _ m' Hs HsL' HI Hnd Hm').
  - (* membership among the re-evaluated points is decidable *)
    intros j x Hj. apply (In_dec_keys L2); eauto.
    intros p Hp. simpl in Hp. rewrite !map_app, !in_app_iff in Hp.
    destruct Hp as [<-|[Hp|[Hp|Hp]]]; eauto using nth_error_In.
  - (* every re-evaluated point has the status of its place in L' *)
    intros p b Hp. simpl in Hp. rewrite !in_app_iff in Hp.
    destruct Hp as [Hp|[Hp|[Hp|Hp]]].
    + injection Hp as <- <-. right. split; auto.
      eapply remove_absent; eauto.
    + left. eapply touch_removed; eauto. subst pv.
      destruct k; auto. rewrite it_eqb_Some. apply Nat.eqb_neq. lia.
    + left. eapply touch_removed; eauto. subst nx.
      destruct (S (S k) <? length L2); auto.
      rewrite it_eqb_Some. apply Nat.eqb_neq. lia.
    + left. eapply touch_removed; eauto.
      rewrite it_eqb_Some. apply Nat.eqb_neq. lia.
  - (* the other points keep their neighbours *)
    intros j x Hj Hn. simpl in Hn. rewrite !map_app, !in_app_iff in Hn.
    assert (Hjk : j <> k).
    { intros ->. apply Hn. right. right. right.
      rewrite HL' in Hj. rewrite Nat.eqb_refl in Hj. some_subst Hj.
      now apply touch_fst_intro. }
    pose proof Hj as HjL. rewrite HL' in HjL.
    destruct (Nat.eqb_spec j k) as [|_]; [lia|].
    assert (Hj1 : j <> S k).
    { intros ->. apply Hn. right. right. left. subst nx.
      pose proof (nth_error_lt _ _ _ HjL).
      destruct (Nat.ltb_spec (S (S k)) (length L2)); [|lia].
      apply touch_fst_intro. rewrite HL2. arith_cases. }
    assert (Hj2 : S j <> k).
    { intros F. apply Hn. right. left. subst pv. rewrite <- F.
      apply touch_fst_intro. rewrite HL2. arith_cases. }
    exists j. split; auto. apply is_max_at_None_eq.
    + destruct j as [|j1]; simpl; auto. rewrite HL'. arith_cases.
    + unfold right_neighbor. rewrite HL'. arith_cases.
  - (* and are still there *)
    intros j0 x Hj0 Hn. simpl in Hn. exists j0. rewrite HL'.
    destruct (Nat.eqb_spec j0 k); auto. subst j0.
    exfalso. apply Hn. left. congruence.
Qed.

Lemma insert_transfer L m0 a v nx pv m' :
  sortedP L -> I1 L m0 -> points_find a L = None ->
  let new := mk_point a v in
  let k := upper_bound new L in
  let L' := insert_at k new L in
  nx = (if S k <? length L' then Some (S k) else None) ->
  pv = match k with 0 => None | S k' => Some k' end ->
  NoDup (map fst (touch L' pv None ++ touch L' nx None ++
                  touch L' (Some k) None)) ->
  (forall x, In x m' <->
     settled (touch L' pv None ++ touch L' nx None ++ touch L' (Some k) None)
             (fun y => In y m0) x) ->
  sortedP L' /\ I1 L' m'.
Proof.
  intros Hs HI Hf new k L' Hnx Hpv Hnd Hm'.
  pose proof (upper_bound_le new L) as Hk. fold k in Hk.
  assert (HL' : forall j, nth_error L' j =
            if j <? k then nth_error L j
            else if j =? k then Some new else nth_error L (j - 1)).
  { intros j. unfold L'. apply nth_insert_at. lia. }
  assert (Hlen : length L' = S (length L))
    by (apply length_insert_at_le; lia).
  pose proof (insert_sortedP a v L Hs Hf) as HsL'. fold new k L' in HsL'.
  split; [assumption|].
  apply (I1_transfer L m0 L' _ m' Hs HsL' HI Hnd Hm').
  - intros j x Hj. apply (In_dec_keys L'); eauto using sortedP_keys, nth_error_In.
    intros p Hp. rewrite !map_app, !in_app_iff in Hp.
    destruct Hp as [Hp|[Hp|Hp]]; apply touch_fst in Hp;
      destruct Hp as (i & _ & Hi); eauto using nth_error_In.
  - intros p b Hp. rewrite !in_app_iff in Hp. left.
    destruct Hp as [Hp|[Hp|Hp]]; apply touch_In in Hp;
      destruct Hp as (i & _ & Hi & ->); eauto.
  - intros j x Hj Hn. rewrite !map_app, !in_app_iff in Hn.
    assert (Hjk : j <> k).
    { intros ->. apply Hn. right. right. now apply touch_fst_intro. }
    assert (Hj1 : j <> S k).
    { intros ->. apply Hn. right. left. subst nx.
      pose proof (nth_error_lt _ _ _ Hj).
      destruct (Nat.ltb_spec (S k) (length L')); [|lia].
      now apply touch_fst_intro. }
    assert (Hj2 : S j <> k).
    { intros F. apply Hn. left. subst pv. rewrite <- F.
      now apply touch_fst_intro. }
    exists (if j <? k then j else j - 1). split.
    + rewrite HL' in Hj. revert Hj. arith_cases.
    + apply is_max_at_None_eq.
      * destruct (Nat.ltb_spec j k).
        -- destruct j as [|j1]; cbn [left_neighbor]; auto.
           rewrite HL'. arith_cases.
        -- destruct j as [|j1]; [lia|]. replace (S j1 - 1) with j1 by lia.
           destruct j1 as [|j2]; [lia|]. cbn [left_neighbor]. rewrite HL'.
           replace (S j2 - 1) with j2 by lia. arith_cases.
      * unfold right_neighbor. rewrite HL'. destruct (Nat.ltb_spec j k).
        -- arith_cases.
        -- destruct j as [|j1]; [lia|]. replace (S j1 - 1) with j1 by lia.
           replace (S (S j1) - 1) with (S j1) by lia. arith_cases.
  - intros j0 x Hj0 Hn. exists (if j0 <? k then j0 else S j0).
    rewrite HL'. arith_cases. now replace (S j0 - 1) with j0 by lia.
Qed.

Lemma erase_transfer L m0 k old L' nx pv m' :
  sortedP L -> I1 L m0 -> nth_error L k = Some old ->
  remove_at k L = Some L' ->
  nx = (if S k <? length L then Some (S k) else None) ->
  pv = match k with 0 => None | S k' => Some k' end ->
  NoDup (map fst (touch L pv (Some k) ++ touch L nx (Some k) ++
                  [(old, false)])) ->
  (forall x, In x m' <->
     settled (touch L pv (Some k) ++ touch L nx (Some k) ++ [(old, false)])
             (fun y => In y m0) x) ->
  sortedP L' /\ I1 L' m'.
Proof.
  intros Hs HI Hk Hrm Hnx Hpv Hnd Hm'.
  pose proof (remove_sortedP _ _ _ Hs Hrm) as HsL'.
  destruct (remove_at_spec _ _ _ Hrm) as (Hlen & _ & HL').
  split; [assumption|].
  apply (I1_transfer L m0 L' _ m' Hs HsL' HI Hnd Hm').
  - intros j x Hj. apply (In_dec_keys L); auto using sortedP_keys.
    + rewrite HL' in Hj. destruct (j <? k); eauto using nth_error_In.
    + intros p Hp. rewrite !map_app, !in_app_iff in Hp.
      destruct Hp as [Hp|[Hp|[<-|[]]]]; eauto using nth_error_In;
        apply touch_fst in Hp; destruct Hp as (i & _ & Hi);
        eauto using nth_error_In.
  - intros p b Hp. rewrite !in_app_iff in Hp.
    destruct Hp as [Hp|[Hp|[Hp|[]]]].
    + left. eapply touch_removed; eauto. subst pv.
      destruct k; auto. rewrite it_eqb_Some. apply Nat.eqb_neq. lia.
    + left. eapply touch_removed; eauto. subst nx.
      destruct (S k <? length L); auto.
      rewrite it_eqb_Some. apply Nat.eqb_neq. lia.
    + injection Hp as <- <-. right. split; auto.
      exact (remove_absent L k old L' (sortedP_injP _ Hs) Hk Hrm).
  - intros j x Hj Hn. rewrite !map_app, !in_app_iff in Hn.
    pose proof Hj as HjL. rewrite HL' in HjL.
    assert (Hj1 : j <> k).
    { intros ->. apply Hn. right. left. subst nx.
      destruct (Nat.ltb_spec k k); [lia|].
      pose proof (nth_error_lt _ _ _ HjL).
      destruct (Nat.ltb_spec (S k) (length L)); [|lia].
      now apply touch_fst_intro. }
    assert (Hj2 : S j <> k).
    { intros F. apply Hn. left. subst pv. rewrite <- F.
      destruct (Nat.ltb_spec j k); [|lia]. now apply touch_fst_intro. }
    exists (if j <? k then j else S j). split.
    { now destruct (j <? k). }
    apply is_max_at_None_eq.
    + destruct (Nat.ltb_spec j k).
      * destruct j as [|j1]; cbn [left_neighbor]; auto.
        rewrite HL'. arith_cases.
      * destruct j as [|j1]; [lia|]. cbn [left_neighbor]. rewrite HL'.
        arith_cases.
    + unfold right_neighbor. rewrite HL'. arith_cases.
  - intros j0 x Hj0 Hn. rewrite !map_app, !in_app_iff in Hn.
    assert (j0 <> k).
    { intros ->. apply Hn. right. right. left. simpl. congruence. }
    exists (if j0 <? k then j0 else j0 - 1). rewrite HL'. arith_cases.
    destruct j0; [lia|]. now replace (S j0 - 1) with j0 by lia.
Qed.

(** ** Postconditions for both ways out

    [post ub o Q E]: if the call returned, [Q] holds of the result; if it
    threw, [E] holds of the state at the throw; if it ran into undefined
    behaviour, [ub] holds.  With [ub := False] the call is defined. *)

Definition post {X} (ub : Prop) (o : outcome (exn U) FM X)
                (Q : X -> FM -> nat -> Prop) (E : FM -> Prop) : Prop :=
  match o with
  | Ret x s n => Q x s n
  | Thrown _ s _ => E s
  | Undefined => ub
  end.

Lemma post_mbind X Y ub (m : M X) (k : X -> M Y) s n Q E :
  post ub (m s n) (fun x s1 n1 => post ub (k x s1 n1) Q E) E ->
  post ub (mbind m k s n) Q E.
Proof. unfold mbind. destruct (m s n); auto. Qed.

Lemma post_mret X ub (x : X) s n (Q : X -> FM -> nat -> Prop) E :
  Q x s n -> post ub (mret x s n) Q E.
Proof. auto. Qed.

Lemma post_run_const X ub (c : FM -> C X) s n (Q : X -> FM -> nat -> Prop)
                     (E : FM -> Prop) :
  E s -> (c s n = UB -> ub) ->
  (forall x n', c s n = Val x n' -> Q x s n') ->
  post ub (run_const c s n) Q E.
Proof. intros He Hu Hq. unfold run_const. destruct (c s n); simpl; auto. Qed.

Lemma post_modify_defined ub (f : FM -> option FM) s n
                          (Q : unit -> FM -> nat -> Prop) E :
  (f s = None -> ub) ->
  (forall s', f s = Some s' -> Q tt s' n) ->
  post ub (modify_defined f s n) Q E.
Proof.
  intros Hu Hq. unfold modify_defined. destruct (f s); simpl; auto.
Qed.

Lemma post_weaken X (ub ub' : Prop) (o : outcome (exn U) FM X) Q E :
  (ub -> ub') -> post ub o Q E -> post ub' o Q E.
Proof. destruct o; simpl; auto. Qed.

Lemma post_defined X (o : outcome (exn U) FM X) Q E :
  post False o Q E -> o <> Undefined.
Proof. destruct o; simpl; [discriminate|discriminate|tauto]. Qed.

Lemma staged_lengths l m0 T used s :
  staged l m0 T used s ->
  length (to_erase s) = NUMBER_TO_ERASE /\
  length (to_rollback s) = NUMBER_TO_ROLLBACK.
Proof.
  intros St. split.
  - exact (so_slots _ _ _ (st_slots_e _ _ _ _ _ St)).
  - exact (so_slots _ _ _ (st_slots_r _ _ _ _ _ St)).
Qed.

(** A proof that a step is defined: the step evaluated far enough to show
    a result. *)
Ltac no_ub :=
  let F := fresh "F" in
  intros F; exfalso; revert F; unfold defined, ret; cbn; try discriminate.

Lemma post_conditional_add ub l m0 T used s it slot previous n
                           (Q : unit -> FM -> nat -> Prop) (E : FM -> Prop) :
  staged l m0 T used s -> keysP l ->
  ~ In slot used -> slot < NUMBER_TO_ROLLBACK ->
  (forall i, it = Some i ->
     it_eqb (Some i) previous = false /\
     exists p, nth_error l i = Some p /\ ~ In p (map fst T)) ->
  E s ->
  (forall u s' n',
     staged l m0 (touch l it previous ++ T) (slot :: used) s' -> Q u s' n') ->
  post ub (conditional_add_new_maximum it slot previous s n) Q E.
Proof.
  intros St Hk Hslot Hlt Hit He Hq.
  destruct (conditional_add_new_maximum it slot previous s n)
    as [u s' n'|e s' n'|] eqn:H; simpl.
  - apply Hq. eapply staged_step_opt; eauto.
  - apply conditional_add_Thrown in H. now subst s'.
  - exfalso. revert H. apply conditional_add_defined; auto.
    + intros i Hi. destruct (Hit i Hi) as (_ & p & Hp & _).
      rewrite (st_points _ _ _ _ _ St). eapply nth_error_lt; eauto.
    + exact (so_slots _ _ _ (st_slots_r _ _ _ _ _ St)).
    + exact (so_flags _ _ _ (st_slots_r _ _ _ _ _ St)).
    + exact (so_slots _ _ _ (st_slots_e _ _ _ _ _ St)).
    + exact (so_flags _ _ _ (st_slots_e _ _ _ _ _ St)).
Qed.

Lemma post_Ret X ub (o : outcome (exn U) FM X) Q E x s n :
  post ub o Q E -> o = Ret x s n -> Q x s n.
Proof. intros H ->. exact H. Qed.

Lemma post_Thrown X ub (o : outcome (exn U) FM X) Q E e s n :
  post ub o Q E -> o = Thrown e s n -> E s.
Proof. intros H ->. exact H. Qed.

(** The state a [try] block can be left in by a throw: some steps staged. *)
Definition rollbackable (l : point_set) (m0 : maxima_set) (s : FM) : Prop :=
  exists T used, staged l m0 T used s.

Lemma not_in_touch l it previous T x :
  (forall j, it = Some j -> nth_error l j <> Some x) ->
  ~ In x (map fst T) ->
  ~ In x (map fst (touch l it previous ++ T)).
Proof.
  intros Hit HT. rewrite map_app, in_app_iff. intros [F|F]; auto.
  apply touch_fst in F. destruct F as (j & Hj & Hx). eapply Hit; eauto.
Qed.

Lemma not_in_touch1 l it previous x :
  (forall j, it = Some j -> nth_error l j <> Some x) ->
  ~ In x (map fst (touch l it previous)).
Proof.
  intros Hit F. apply touch_fst in F. destruct F as (j & Hj & Hx).
  eapply Hit; eauto.
Qed.

(** *** The try block when the argument is new *)
Lemma custom_insert_try_new ub L a v m0 s n :
  sortedP L -> points_find a L = None ->
  let new := mk_point a v in
  let k := upper_bound new L in
  let L' := insert_at k new L in
  staged L' m0 [] [] s ->
  post ub (custom_insert_try (Some k) None false s n)
       (fun _ s' _ => exists nx pv,
          staged L' m0 (touch L' pv None ++ touch L' nx None ++
                        touch L' (Some k) None) [3; 2; 1] s' /\
          nx = (if S k <? length L' then Some (S k) else None) /\
          pv = match k with 0 => None | S k' => Some k' end)
       (rollbackable L' m0).
Proof.
  intros Hs Hf new k L' St.
  pose proof (upper_bound_le new L) as Hk. fold k in Hk.
  assert (HL' : forall j, nth_error L' j =
            if j <? k then nth_error L j
            else if j =? k then Some new else nth_error L (j - 1)).
  { intros j. unfold L'. apply nth_insert_at. lia. }
  assert (Hlen : length L' = S (length L))
    by (apply length_insert_at_le; lia).
  pose proof (insert_sortedP a v L Hs Hf) as HsL'. fold new k L' in HsL'.
  pose proof (sortedP_keys _ HsL') as Hkeys.
  pose proof (sortedP_injP _ HsL') as Hinj.
  assert (Hnew : nth_error L' k = Some new).
  { rewrite HL'. arith_cases. }
  unfold custom_insert_try.
  apply post_mbind.
  apply (post_conditional_add _ _ _ _ _ _ _ _ _ _ _ _ St Hkeys);
    [simpl; lia|unfold NUMBER_TO_ROLLBACK; lia| |red; eauto|].
  { intros i Hi. some_subst Hi. split; auto. exists new. auto. }
  intros _ s1 n1 St1. rewrite app_nil_r in St1.
  clearbody L' k. clear St.
  (* the next node *)
  apply post_mbind. apply post_run_const; [red; eauto| |].
  { cbv beta. rewrite (st_points _ _ _ _ _ St1), (multi_next_at _ _ _ _ Hnew).
    no_ub. }
  intros nx n2 Hnx. apply defined_Val in Hnx. destruct Hnx as [Hnx _].
  rewrite (st_points _ _ _ _ _ St1), (multi_next_at _ _ _ _ Hnew) in Hnx.
  change (it_eqb (Some (S k)) None) with false in Hnx. cbv iota in Hnx.
  apply some_eq in Hnx. symmetry in Hnx.
  apply post_mbind.
  apply (post_conditional_add _ _ _ _ _ _ _ _ _ _ _ _ St1 Hkeys);
    [simpl; lia|unfold NUMBER_TO_ROLLBACK; lia| |red; eauto|].
  { intros i Hi. split; auto. rewrite Hnx in Hi.
    destruct (Nat.ltb_spec (S k) (length L')); [|discriminate].
    some_subst Hi.
    destruct (nth_error L' (S k)) as [p|] eqn:Ep;
      [|apply nth_error_None in Ep; lia].
    exists p. split; auto. intros F. apply touch_fst in F.
    destruct F as (j & Hj & Hp). some_subst Hj.
    pose proof (Hinj _ _ _ Ep Hp). lia. }
  intros _ s2 n3 St2.
  (* the previous node, unless the new one is the first *)
  apply post_mbind. apply post_run_const; [red; eauto|no_ub|].
  intros at_begin n4 Hb. apply ret_Val in Hb. destruct Hb as [Hb _].
  rewrite (st_points _ _ _ _ _ St2) in Hb.
  assert (Hbeg : points_begin L' = Some 0).
  { destruct L'; [simpl in Hlen; lia|reflexivity]. }
  rewrite Hbeg, it_eqb_Some in Hb. subst at_begin.
  apply post_mbind. destruct k as [|k']; cbn [Nat.eqb negb].
  - apply post_mret. apply post_mret.
    exists nx, None. split; [|split; auto].
    change (touch L' None None) with (@nil (point_type * bool)).
    cbn [app]. now apply staged_used.
  - apply post_mbind. apply post_run_const; [red; eauto| |].
    { cbv beta. rewrite (st_points _ _ _ _ _ St2). unfold multi_prev.
      rewrite (prev_S _ _ _ Hnew). no_ub. }
    intros pv n5 Hpv. apply defined_Val in Hpv. destruct Hpv as [Hpv _].
    rewrite (st_points _ _ _ _ _ St2) in Hpv.
    apply (multi_prev_S _ _ _ _ _ Hnew) in Hpv.
    change (it_eqb (Some k') None) with false in Hpv. cbv iota in Hpv.
    subst pv.
    apply (post_conditional_add _ _ _ _ _ _ _ _ _ _ _ _ St2 Hkeys);
      [simpl; lia|unfold NUMBER_TO_ROLLBACK; lia| |red; eauto|].
    { intros i Hi. some_subst Hi. split; auto.
      destruct (nth_error L' k') as [p|] eqn:Ep;
        [|apply nth_error_None in Ep; lia].
      exists p. split; auto.
      apply not_in_touch; [|intros F; apply touch_fst in F;
                             destruct F as (j & Hj & Hp); some_subst Hj;
                             pose proof (Hinj _ _ _ Ep Hp); lia].
      intros j Hj F. rewrite Hnx in Hj.
      destruct (S (S k') <? length L'); [|discriminate].
      some_subst Hj. pose proof (Hinj _ _ _ Ep F). lia. }
    intros _ s3 n6 St3. apply post_mret.
    exists nx, (Some k'). split; [|split]; auto.
Qed.

Lemma post_mark ub l m0 T used s slot old temp n
                (Q : unit -> FM -> nat -> Prop) (E : FM -> Prop) :
  staged l m0 T used s -> keysP l -> In old l ->
  ~ In old (map fst T) -> ~ In slot used -> slot < NUMBER_TO_ERASE ->
  temp = find_node old (maxima s) ->
  (forall s', staged l m0 ((old, false) :: T) (slot :: used) s' -> Q tt s' n) ->
  post ub ((match temp with
            | Some _ => store_to_erase slot temp ;;; store_if_erase slot true
            | None => mret tt
            end) s n) Q E.
Proof.
  intros St Hk Hold HoT Hslot Hlt Htemp Hq.
  destruct ((match temp with
             | Some _ => store_to_erase slot temp ;;; store_if_erase slot true
             | None => mret tt
             end) s n) as [u s' n'|e s' n'|] eqn:H; simpl.
  - destruct u.
    destruct (staged_mark _ _ _ _ _ _ _ _ _ _ _ St Hk Hold HoT Hslot Hlt Htemp H)
      as [-> St']. auto.
  - exfalso. destruct temp; breakT H.
  - exfalso. revert H. destruct temp as [q|]; [|discriminate].
    pose proof (so_slots _ _ _ (st_slots_e _ _ _ _ _ St)) as Ls.
    pose proof (so_flags _ _ _ (st_slots_e _ _ _ _ _ St)) as Lf.
    apply (store_pair_defined _ slot (Some q) to_erase set_to_erase);
      [unfold mx_iterator in *; lia|].
    intros b _.
    apply (store_last_defined _ slot true if_erase set_if_erase).
    simpl. lia.
Qed.

(** *** The try block when the argument has a value already *)
Lemma custom_insert_try_overwrite (ub : Prop) L k old new m0 s n :
  sortedP L -> nth_error L k = Some old ->
  arg new = arg old -> same_node new old = false ->
  let L2 := insert_at (S k) new L in
  staged L2 m0 [] [] s ->
  post ub (custom_insert_try (Some (S k)) (Some k) true s n)
       (fun _ s' _ => exists s4 L' nx pv,
          staged L2 m0 ((old, false) :: touch L2 pv (Some k) ++
                        touch L2 nx (Some k) ++
                        touch L2 (Some (S k)) (Some k)) [4; 3; 2; 1] s4 /\
          nx = (if S (S k) <? length L2 then Some (S (S k)) else None) /\
          pv = match k with 0 => None | S k' => Some k' end /\
          remove_at k L2 = Some L' /\ s' = set_points L' s4)
       (rollbackable L2 m0).
Proof.
  intros Hs Hk Ha Hne L2 St.
  pose proof (nth_error_lt _ _ _ Hk) as Hlen.
  assert (HL2 : forall j, nth_error L2 j =
            if j <? S k then nth_error L j
            else if j =? S k then Some new else nth_error L (j - 1)).
  { intros j. unfold L2. apply nth_insert_at. lia. }
  assert (HlenL2 : length L2 = S (length L))
    by (apply length_insert_at_le; lia).
  assert (Hnew : new <> old).
  { intros ->. rewrite same_node_refl in Hne. discriminate. }
  pose proof (overwrite_injP _ _ _ _ Hs Hk Hnew Ha) as Hinj. fold L2 in Hinj.
  pose proof (overwrite_keysP _ _ _ _ Hs Hk Hne Ha) as Hkeys. fold L2 in Hkeys.
  assert (HoldL2 : nth_error L2 k = Some old).
  { rewrite HL2. destruct (Nat.ltb_spec k (S k)); [auto|lia]. }
  assert (HnewL2 : nth_error L2 (S k) = Some new).
  { rewrite HL2. arith_cases. }
  clearbody L2. unfold custom_insert_try.
  apply post_mbind.
  apply (post_conditional_add _ _ _ _ _ _ _ _ _ _ _ _ St Hkeys);
    [simpl; lia|unfold NUMBER_TO_ROLLBACK; lia| |red; eauto|].
  { intros i Hi. some_subst Hi. split.
    - rewrite it_eqb_Some. apply Nat.eqb_neq. lia.
    - exists new. auto. }
  intros _ s1 n1 St1. rewrite app_nil_r in St1. clear St.
  (* the next node *)
  apply post_mbind. apply post_run_const; [red; eauto| |].
  { cbv beta.
    rewrite (st_points _ _ _ _ _ St1), (multi_next_at _ _ _ _ HnewL2).
    no_ub. }
  intros nx n2 Hnx. apply defined_Val in Hnx. destruct Hnx as [Hnx _].
  rewrite (st_points _ _ _ _ _ St1), (multi_next_at _ _ _ _ HnewL2) in Hnx.
  rewrite it_eqb_Some in Hnx.
  destruct (Nat.eqb_spec (S (S k)) k) as [F|_]; [lia|].
  apply some_eq in Hnx. symmetry in Hnx.
  apply post_mbind.
  apply (post_conditional_add _ _ _ _ _ _ _ _ _ _ _ _ St1 Hkeys);
    [simpl; lia|unfold NUMBER_TO_ROLLBACK; lia| |red; eauto|].
  { intros i Hi. rewrite Hnx in Hi.
    destruct (Nat.ltb_spec (S (S k)) (length L2)); [|discriminate].
    some_subst Hi. split.
    - rewrite it_eqb_Some. apply Nat.eqb_neq. lia.
    - destruct (nth_error L2 (S (S k))) as [p|] eqn:Ep;
        [|apply nth_error_None in Ep; lia].
      exists p. split; auto. intros F. apply touch_fst in F.
      destruct F as (j & Hj & Hp). some_subst Hj.
      pose proof (Hinj _ _ _ Ep Hp). lia. }
  intros _ s2 n3 St2.
  (* the previous node *)
  apply post_mbind. apply post_run_const; [red; eauto|no_ub|].
  intros at_begin n4 Hb. apply ret_Val in Hb. destruct Hb as [Hb _].
  rewrite (st_points _ _ _ _ _ St2) in Hb.
  assert (Hbeg : points_begin L2 = Some 0).
  { destruct L2; [simpl in HlenL2; lia|reflexivity]. }
  rewrite Hbeg, it_eqb_Some in Hb. subst at_begin.
  apply post_mbind. cbn [Nat.eqb negb].
  apply post_mbind. apply post_run_const; [red; eauto| |].
  { (* the node before the superseded one; [prev(begin())] when that one
       is the first *)
    cbv beta. rewrite (st_points _ _ _ _ _ St2). unfold multi_prev.
    rewrite (prev_S _ _ _ HnewL2). unfold obind. rewrite it_eqb_refl.
    destruct k as [|k0].
    - rewrite prev_0 by (intros F; rewrite F in HoldL2; discriminate). no_ub.
    - rewrite (prev_S _ _ _ HoldL2). no_ub. }
  intros pv0 n5 Hpv0. apply defined_Val in Hpv0. destruct Hpv0 as [Hpv0 _].
  rewrite (st_points _ _ _ _ _ St2) in Hpv0.
  apply (multi_prev_skipped _ _ _ _ _ HnewL2) in Hpv0; [|apply it_eqb_refl].
  pose (pv := match k with 0 => @None nat | S k' => Some k' end).
  assert (Hpv : pv = match k with 0 => None | S k' => Some k' end)
    by reflexivity.
  clearbody pv.
  assert (Hthird : forall Q : unit -> FM -> nat -> Prop,
            (forall u s3 n6,
               staged L2 m0 (touch L2 pv (Some k) ++ touch L2 nx (Some k) ++
                             touch L2 (Some (S k)) (Some k)) [3; 2; 1] s3 ->
               Q u s3 n6) ->
            post ub (conditional_add_new_maximum pv0 3 (Some k) s2 n5) Q
                 (rollbackable L2 m0)).
  { intros Q HQ. destruct k as [|k'].
    - (* line 201: [end()], or the superseded node itself *)
      rewrite conditional_add_skip
        by (rewrite Hpv0; destruct (leftmost_is_root L2); reflexivity).
      simpl. apply HQ. rewrite Hpv.
      change (touch L2 None (Some 0)) with (@nil (point_type * bool)).
      cbn [app]. now apply staged_used.
    - rewrite Hpv0. rewrite Hpv in HQ.
      apply (post_conditional_add _ _ _ _ _ _ _ _ _ _ _ _ St2 Hkeys);
        [simpl; lia|unfold NUMBER_TO_ROLLBACK; lia| |red; eauto|exact HQ].
      intros i Hi. some_subst Hi. split.
      + rewrite it_eqb_Some. apply Nat.eqb_neq. lia.
      + destruct (nth_error L2 k') as [p|] eqn:Ep;
          [|apply nth_error_None in Ep; lia].
        exists p. split; auto.
        apply not_in_touch; [|intros F; apply touch_fst in F;
                               destruct F as (j & Hj & Hp); some_subst Hj;
                               pose proof (Hinj _ _ _ Ep Hp); lia].
        intros j Hj F. rewrite Hnx in Hj.
        destruct (S (S (S k')) <? length L2); [|discriminate].
        some_subst Hj. pose proof (Hinj _ _ _ Ep F). lia. }
  apply Hthird. clear Hthird Hpv0 pv0.
  intros _ s3 n6 St3.
  (* the superseded node *)
  apply post_mbind. apply post_run_const; [red; eauto| |].
  { cbv beta. rewrite (st_points _ _ _ _ _ St3). unfold deref.
    rewrite HoldL2. intros F. exfalso. revert F.
    apply (maxima_find_defined old). }
  intros temp n7 Htemp. break Htemp.
  rewrite (st_points _ _ _ _ _ St3) in Hd. unfold deref in Hd.
  rewrite HoldL2 in Hd. some_subst Hd.
  apply maxima_find_Val in Htemp.
  apply post_mbind.
  apply (post_mark _ _ _ _ _ _ 4 old _ _ _ _ St3 Hkeys); auto.
  { eapply nth_error_In; eauto. }
  { assert (Hfresh : forall it, (forall j, it = Some j -> j <> k) ->
              forall j, it = Some j -> nth_error L2 j <> Some old).
    { intros it Hit j Hj F. pose proof (Hinj _ _ _ F HoldL2).
      specialize (Hit _ Hj). lia. }
    apply not_in_touch; [|apply not_in_touch; [|apply not_in_touch1]];
      apply Hfresh.
    - intros j Hj. rewrite Hpv in Hj.
      destruct k; [discriminate|]. some_subst Hj. lia.
    - intros j Hj. rewrite Hnx in Hj.
      destruct (S (S k) <? length L2); [|discriminate]. some_subst Hj. lia.
    - intros j Hj. some_subst Hj. lia. }
  { simpl. lia. }
  intros s4 St4. unfold points_erase_at.
  apply post_modify_defined.
  { rewrite (st_points _ _ _ _ _ St4). unfold points_erase.
    destruct (remove_at_defined k L2) as [r ->]; [lia|]. discriminate. }
  intros s5 Hs5.
  apply option_map_Some in Hs5. destruct Hs5 as (L' & Hrm & ->).
  rewrite (st_points _ _ _ _ _ St4) in Hrm. simpl in Hrm.
  exists s4, L', nx, pv.
  split; [exact St4|]. split; [exact Hnx|]. split; eauto.
Qed.

(** *** The try block of erase *)
Lemma erase_try_post (ub : Prop) L k old m0 s n it2 :
  sortedP L -> nth_error L k = Some old ->
  staged L m0 [] [] s -> it2 = find_node old (maxima s) ->
  post ub (erase_try (Some k) it2 s n)
       (fun _ s' _ => exists nx pv,
          staged L m0 (touch L pv (Some k) ++ touch L nx (Some k) ++
                       [(old, false)]) [3; 2; 0] s' /\
          nx = (if S k <? length L then Some (S k) else None) /\
          pv = match k with 0 => None | S k' => Some k' end)
       (rollbackable L m0).
Proof.
  intros Hs Hk St Hit2.
  pose proof (nth_error_lt _ _ _ Hk) as Hlen.
  pose proof (sortedP_keys _ Hs) as Hkeys.
  pose proof (sortedP_injP _ Hs) as Hinj.
  unfold erase_try.
  apply post_mbind.
  apply (post_mark _ _ _ _ _ _ 0 old _ _ _ _ St Hkeys); auto.
  { eapply nth_error_In; eauto. }
  { unfold NUMBER_TO_ERASE. lia. }
  intros s1 St1.
  (* the next node *)
  apply post_mbind. apply post_run_const; [red; eauto| |].
  { cbv beta. rewrite (st_points _ _ _ _ _ St1), (next_at _ _ _ Hk). no_ub. }
  intros nx n2 Hnx. apply defined_Val in Hnx. destruct Hnx as [Hnx _].
  rewrite (st_points _ _ _ _ _ St1), (next_at _ _ _ Hk) in Hnx.
  apply some_eq in Hnx. symmetry in Hnx.
  apply post_mbind.
  apply (post_conditional_add _ _ _ _ _ _ _ _ _ _ _ _ St1 Hkeys);
    [simpl; lia|unfold NUMBER_TO_ROLLBACK; lia| |red; eauto|].
  { intros i Hi. rewrite Hnx in Hi.
    destruct (Nat.ltb_spec (S k) (length L)); [|discriminate].
    some_subst Hi. split.
    - rewrite it_eqb_Some. apply Nat.eqb_neq. lia.
    - destruct (nth_error L (S k)) as [p|] eqn:Ep;
        [|apply nth_error_None in Ep; lia].
      exists p. split; auto. simpl. intros [F|[]]. subst p.
      pose proof (Hinj _ _ _ Ep Hk). lia. }
  intros _ s2 n3 St2.
  (* the previous node; [prev(begin())] when the node to erase is the
     first *)
  apply post_mbind. apply post_run_const; [red; eauto| |].
  { cbv beta. rewrite (st_points _ _ _ _ _ St2). destruct k as [|k0].
    - rewrite prev_0 by (intros F; rewrite F in Hk; discriminate). no_ub.
    - rewrite (prev_S _ _ _ Hk). no_ub. }
  intros pv n4 Hpv. apply defined_Val in Hpv. destruct Hpv as [Hpv _].
  rewrite (st_points _ _ _ _ _ St2) in Hpv.
  destruct k as [|k'].
  - (* line 201: [end()], or the node to erase itself *)
    rewrite prev_0 in Hpv by (intros F; rewrite F in Hk; discriminate).
    apply some_eq in Hpv.
    rewrite conditional_add_skip
      by (rewrite <- Hpv; destruct (leftmost_is_root L); reflexivity).
    simpl. exists nx, None. split; [|split; auto].
    change (touch L None (Some 0)) with (@nil (point_type * bool)).
    cbn [app]. now apply staged_used.
  - rewrite (prev_S _ _ _ Hk) in Hpv. apply some_eq in Hpv. symmetry in Hpv.
    apply (post_conditional_add _ _ _ _ _ _ _ _ _ _ _ _ St2 Hkeys);
      [simpl; lia|unfold NUMBER_TO_ROLLBACK; lia| |red; eauto|].
    { intros i Hi. rewrite Hpv in Hi. some_subst Hi. split.
      - rewrite it_eqb_Some. apply Nat.eqb_neq. lia.
      - destruct (nth_error L k') as [p|] eqn:Ep;
          [|apply nth_error_None in Ep; lia].
        exists p. split; auto.
        apply not_in_touch.
        + intros j Hj F. rewrite Hnx in Hj.
          destruct (S (S k') <? length L); [|discriminate].
          some_subst Hj. pose proof (Hinj _ _ _ Ep F). lia.
        + simpl. intros [F|[]]. subst p.
          pose proof (Hinj _ _ _ Ep Hk). lia. }
    intros _ s3 n5 St3.
    exists nx, pv. split; [exact St3|]. split; eauto.
Qed.

Lemma post_conseq X ub (o : outcome (exn U) FM X)
                  (Q Q' : X -> FM -> nat -> Prop) (E E' : FM -> Prop) :
  post ub o Q E -> (forall x s n, Q x s n -> Q' x s n) ->
  (forall s, E s -> E' s) -> post ub o Q' E'.
Proof. destruct o; simpl; auto. Qed.

Lemma post_try_catch X ub (body : M X) handler s n Q (E E1 : FM -> Prop) :
  post ub (body s n) Q E1 ->
  (forall s1 n1, E1 s1 -> post ub (handler s1 n1) (fun _ s2 _ => E s2) E) ->
  post ub (try_catch_rethrow body handler s n) Q E.
Proof.
  unfold try_catch_rethrow. destruct (body s n) as [x s1 n1|e s1 n1|]; simpl; auto.
  intros He Hh. specialize (Hh _ n1 He). destruct (handler s1 n1); simpl in *; auto.
Qed.

Lemma post_modify ub (f : FM -> FM) s n (Q : unit -> FM -> nat -> Prop) E :
  Q tt (f s) n -> post ub (modify f s n) Q E.
Proof. auto. Qed.

Lemma post_rollback ub l m0 T used s s0 n (Q : unit -> FM -> nat -> Prop) E :
  staged l m0 T used s -> sortedM m0 ->
  maxima s0 = maxima s -> if_rollback s0 = if_rollback s ->
  to_rollback s0 = to_rollback s ->
  Q tt (set_maxima m0 s0) n ->
  post ub (rollback_maxima s0 n) Q E.
Proof.
  intros St Hm0 Em Ef Et Hq.
  destruct (rollback_maxima s0 n) as [u s' n'|e s' n'|] eqn:H; simpl.
  - destruct (staged_rollback _ _ _ _ _ _ _ _ _ _ St Hm0 Em Ef Et H) as [-> ->].
    now destruct u.
  - rewrite rollback_maxima_unfold in H.
    destruct (unlink_flagged_Thrown _ _ _ _ _ _ _ _ H).
  - exfalso. revert H. rewrite rollback_maxima_unfold.
    apply (unlink_flagged_slots_ok NUMBER_TO_ROLLBACK); try reflexivity;
      rewrite ?Em, ?Ef, ?Et.
    + exact (st_slots_r _ _ _ _ _ St).
    + exact (st_sorted _ _ _ _ _ St).
    + intros q Hq'. apply (st_maxima _ _ _ _ _ St). right. exact Hq'.
Qed.

Lemma post_commit ub l m0 T used s s0 n (Q : unit -> FM -> nat -> Prop) E :
  staged l m0 T used s ->
  maxima s0 = maxima s -> if_erase s0 = if_erase s ->
  to_erase s0 = to_erase s ->
  (forall m', sortedM m' ->
     (forall x, In x m' <-> settled T (fun y => In y m0) x) ->
     Q tt (set_maxima m' s0) n) ->
  post ub (erase_from_maxima s0 n) Q E.
Proof.
  intros St Em Ef Et Hq.
  destruct (erase_from_maxima s0 n) as [u s' n'|e s' n'|] eqn:H; simpl.
  - destruct (staged_commit _ _ _ _ _ _ _ _ _ _ St Em Ef Et H)
      as (-> & Hset & Hs' & Hin).
    destruct u. rewrite Hset. apply Hq; auto.
  - rewrite erase_from_maxima_unfold in H.
    destruct (unlink_flagged_Thrown _ _ _ _ _ _ _ _ H).
  - exfalso. revert H. rewrite erase_from_maxima_unfold.
    apply (unlink_flagged_slots_ok NUMBER_TO_ERASE); try reflexivity;
      rewrite ?Em, ?Ef, ?Et.
    + exact (st_slots_e _ _ _ _ _ St).
    + exact (st_sorted _ _ _ _ _ St).
    + intros q Hq'. apply (st_erase _ _ _ _ _ St). exact Hq'.
Qed.

(** ** set_value *)

(** How [set_value a v] changes the point sequence when it returns. *)
Definition set_value_points (a : A) (v : V) (s s' : FM) : Prop :=
  let new := mk_point a v in
  match points_find a (points s) with
  | None => points s' = insert_at (upper_bound new (points s)) new (points s)
  | Some k =>
      exists old, nth_error (points s) k = Some old /\ arg old = a /\
        ((V_lt v (value old) = false /\ V_lt (value old) v = false /\ s' = s)
         \/
         (same_node new old = false /\
          forall j, nth_error (points s') j =
                    if j =? k then Some new else nth_error (points s) j))
  end.

(** What a throw leaves: both sequences as they were. *)
Definition unchanged (s s' : FM) : Prop :=
  points s' = points s /\ maxima s' = maxima s /\ wf s'.

Lemma unchanged_refl s : wf s -> unchanged s s.
Proof. unfold unchanged. auto. Qed.

Lemma wf_intro l m s :
  sortedP l -> sortedM m -> I1 l m ->
  length (to_erase s) = NUMBER_TO_ERASE ->
  length (to_rollback s) = NUMBER_TO_ROLLBACK ->
  wf (set_if_erase (repeat false NUMBER_TO_ERASE)
        (set_if_rollback (repeat false NUMBER_TO_ROLLBACK)
           (set_maxima m (set_points l s)))).
Proof. intros. constructor; simpl; auto. Qed.

(** On an object that satisfies the invariant the call is defined, also
    when [a] is the first argument of the function ([find(a) == begin()])
    and [multi_prev] decrements [begin()]. *)
Theorem set_value_outcome (ub : Prop) a v s n :
  wf s ->
  post ub (set_value a v s n)
       (fun _ s' _ => wf s' /\ set_value_points a v s s')
       (unchanged s).
Proof.
  intros Hwf. pose proof (wf_points _ Hwf) as HsL.
  pose proof (unchanged_refl _ Hwf) as Hrefl.
  unfold set_value, custom_insert, set_value_points.
  apply post_mbind. apply post_run_const; [assumption|no_ub|].
  intros previous n1 Hprev. apply ret_Val in Hprev. destruct Hprev as [-> ->].
  destruct (points_find a (points s)) as [k|] eqn:Ef;
    cbn [it_eqb points_end negb].
  - (* the argument has a value *)
    destruct (points_find_Some _ _ _ Ef) as (old & Hk & Ha).
    apply post_mbind. apply post_run_const; [assumption| |].
    { cbv beta. unfold deref. rewrite Hk. intros F. exfalso. revert F.
      apply (equivalent_defined v (value old)). }
    intros same n2 Hsame. break Hsame. unfold deref in Hd.
    rewrite Hk in Hd. some_subst Hd. apply equivalent_Val in Hsame.
    destruct same.
    { (* an equivalent one *)
      apply post_mret. split; auto. exists old.
      symmetry in Hsame. apply andb_true_iff in Hsame.
      rewrite !negb_true_iff in Hsame. tauto. }
    assert (Hne : same_node (mk_point a v) old = false).
    { destruct (same_node (mk_point a v) old) eqn:E; auto.
      apply same_node_iff in E. simpl in E. destruct E as (_ & E1 & E2).
      rewrite E1, E2 in Hsame. discriminate. }
    apply post_mbind. unfold points_insert_new, points_insert.
    cbn [fst snd post after_insert].
    rewrite (upper_bound_present a v _ _ HsL Ef).
    destruct (Nat.leb_spec (S k) k) as [F|_]; [lia|].
    set (new := mk_point a v) in *. set (L := points s) in *.
    set (L2 := insert_at (S k) new L).
    assert (St : staged L2 (maxima s) [] [] (set_points L2 s)).
    { apply staged_start; try apply Hwf. intros x Hx.
      apply (wf_within _ Hwf) in Hx. apply In_nth_error in Hx.
      destruct Hx as [j Hj]. fold L in Hj.
      apply (nth_error_In L2 (if j <? S k then j else S j)).
      unfold L2. rewrite nth_insert_at by (apply nth_error_lt in Hk; lia).
      arith_cases. now replace (S j - 1) with j by lia. }
    apply post_mbind.
    apply post_try_catch with (E1 := rollbackable L2 (maxima s)).
    + eapply post_conseq.
      * apply (custom_insert_try_overwrite ub L k old new (maxima s)); auto.
      * intros _ s5 n5 (s4 & L' & nx & pv & St4 & Hnx & Hpv & Hrm & ->).
        (* commit *)
        apply post_mbind.
        eapply (post_commit _ _ _ _ _ _ _ _ _ _ St4); try reflexivity.
        intros m' Hsm' Hm'.
        apply post_mbind. apply post_modify.
        apply post_modify.
        destruct (overwrite_transfer L (maxima s) k old new L' nx pv m')
          as [HsL' HI']; auto; try apply Hwf.
        { apply (st_nodup _ _ _ _ _ St4). }
        split.
        -- apply wf_intro; auto; apply (staged_lengths _ _ _ _ _ St4).
        -- exists old. split; auto. split; auto. right. split; auto.
           simpl. apply (overwrite_nth _ _ _ _ _ Hk Hrm).
      * auto.
    + (* rollback *)
      intros s1 n3 (T & used & St1). unfold custom_insert_catch.
      apply post_mbind. unfold points_erase_at.
      apply post_modify_defined.
      { rewrite (st_points _ _ _ _ _ St1). unfold points_erase, L2.
        rewrite remove_insert_at by (apply nth_error_lt in Hk; lia).
        discriminate. }
      intros s2 Hs2.
      apply option_map_Some in Hs2. destruct Hs2 as (Lr & Hrm & ->).
      rewrite (st_points _ _ _ _ _ St1) in Hrm. unfold points_erase, L2 in Hrm.
      rewrite remove_insert_at in Hrm by (apply nth_error_lt in Hk; lia).
      some_subst Hrm.
      apply post_mbind.
      eapply (post_rollback _ _ _ _ _ _ _ _ _ _ St1); try reflexivity;
        try apply Hwf.
      apply post_mbind. apply post_modify. apply post_modify.
      split; [reflexivity|]. split; [reflexivity|].
      apply wf_intro; try apply Hwf; apply (staged_lengths _ _ _ _ _ St1).
  - (* the argument is new *)
    apply post_mbind. apply post_mret.
    apply post_mbind. unfold points_insert_new, points_insert.
    cbn [fst snd post after_insert negb].
    set (new := mk_point a v) in *. set (L := points s) in *.
    set (k := upper_bound new L). set (L' := insert_at k new L).
    pose proof (upper_bound_le new L) as Hk. fold k in Hk.
    assert (St : staged L' (maxima s) [] [] (set_points L' s)).
    { apply staged_start; try apply Hwf. intros x Hx.
      apply (wf_within _ Hwf) in Hx. apply In_nth_error in Hx.
      destruct Hx as [j Hj]. fold L in Hj.
      apply (nth_error_In L' (if j <? k then j else S j)).
      unfold L'. rewrite nth_insert_at by assumption.
      arith_cases. now replace (S j - 1) with j by lia. }
    apply post_mbind.
    apply post_try_catch with (E1 := rollbackable L' (maxima s)).
    + eapply post_conseq.
      * apply (custom_insert_try_new ub L a v (maxima s)); auto.
      * intros _ s3 n3 (nx & pv & St3 & Hnx & Hpv).
        (* commit *)
        apply post_mbind.
        eapply (post_commit _ _ _ _ _ _ _ _ _ _ St3); try reflexivity.
        intros m' Hsm' Hm'.
        apply post_mbind. apply post_modify.
        apply post_modify.
        destruct (insert_transfer L (maxima s) a v nx pv m')
          as [HsL' HI']; auto; try apply Hwf.
        { apply (st_nodup _ _ _ _ _ St3). }
        split.
        -- rewrite <- (st_points _ _ _ _ _ St3) in HsL', HI'.
           destruct (staged_lengths _ _ _ _ _ St3) as [Le Lr].
           destruct s3. apply (wf_intro _ _ _ HsL' Hsm' HI' Le Lr).
        -- simpl. apply (st_points _ _ _ _ _ St3).
      * auto.
    + (* rollback *)
      intros s1 n3 (T & used & St1). unfold custom_insert_catch.
      apply post_mbind. unfold points_erase_at.
      apply post_modify_defined.
      { rewrite (st_points _ _ _ _ _ St1). unfold points_erase, L'.
        rewrite remove_insert_at by assumption. discriminate. }
      intros s2 Hs2.
      apply option_map_Some in Hs2. destruct Hs2 as (Lr & Hrm & ->).
      rewrite (st_points _ _ _ _ _ St1) in Hrm. unfold points_erase, L' in Hrm.
      rewrite remove_insert_at in Hrm by assumption.
      some_subst Hrm.
      apply post_mbind.
      eapply (post_rollback _ _ _ _ _ _ _ _ _ _ St1); try reflexivity;
        try apply Hwf.
      apply post_mbind. apply post_modify. apply post_modify.
      split; [reflexivity|]. split; [reflexivity|].
      apply wf_intro; try apply Hwf; apply (staged_lengths _ _ _ _ _ St1).
Qed.

Theorem set_value_post a v s n :
  wf s ->
  post False (set_value a v s n)
       (fun _ s' _ => wf s' /\ set_value_points a v s s')
       (unchanged s).
Proof. intros Hwf. now apply set_value_outcome. Qed.

Theorem set_value_defined a v s n :
  wf s -> set_value a v s n <> Undefined.
Proof.
  intros Hwf. eapply post_defined. apply (set_value_post a v s n Hwf).
Qed.

(** ** erase *)

(** How [erase a] changes the point sequence when it returns. *)
Definition erase_points (a : A) (s s' : FM) : Prop :=
  match points_find a (points s) with
  | None => s' = s
  | Some k => remove_at k (points s) = Some (points s')
  end.

(** On an object that satisfies the invariant the call is defined, also
    when [a] is the first argument of the function ([find(a) == begin()])
    and [prev(it)] decrements [begin()]. *)
Theorem erase_outcome (ub : Prop) a s n :
  wf s ->
  post ub (erase a s n)
       (fun _ s' _ => wf s' /\ erase_points a s s')
       (unchanged s).
Proof.
  intros Hwf. pose proof (wf_points _ Hwf) as HsL.
  pose proof (unchanged_refl _ Hwf) as Hrefl.
  unfold erase, erase_points.
  apply post_mbind. apply post_run_const; [assumption|no_ub|].
  intros it n1 Hit. apply ret_Val in Hit. destruct Hit as [-> ->].
  destruct (points_find a (points s)) as [k|] eqn:Ef;
    cbn [it_eqb points_end negb].
  - destruct (points_find_Some _ _ _ Ef) as (old & Hk & Ha).
    apply post_mbind. apply post_run_const; [assumption| |].
    { cbv beta. unfold deref. rewrite Hk. intros F. exfalso. revert F.
      apply (maxima_find_defined old). }
    intros it2 n2 Hit2. break Hit2. unfold deref in Hd.
    rewrite Hk in Hd. some_subst Hd. apply maxima_find_Val in Hit2.
    set (L := points s) in *.
    assert (St : staged L (maxima s) [] [] s).
    { replace s with (set_points L s) at 2 by (now destruct s).
      apply staged_start; try apply Hwf. apply (wf_within _ Hwf). }
    apply post_mbind.
    apply post_try_catch with (E1 := rollbackable L (maxima s)).
    + eapply post_conseq.
      * apply (erase_try_post ub L k old (maxima s)); auto.
      * intros _ s3 n3 (nx & pv & St3 & Hnx & Hpv).
        (* commit *)
        apply post_mbind.
        eapply (post_commit _ _ _ _ _ _ _ _ _ _ St3); try reflexivity.
        intros m' Hsm' Hm'.
        apply post_mbind. unfold points_erase_at.
        apply post_modify_defined.
        { simpl. rewrite (st_points _ _ _ _ _ St3).
          destruct (remove_at_defined k L) as [r ->];
            [eapply nth_error_lt; eauto|]. discriminate. }
        intros s4 Hs4.
        apply option_map_Some in Hs4. destruct Hs4 as (L' & Hrm & ->).
        simpl in Hrm. rewrite (st_points _ _ _ _ _ St3) in Hrm.
        apply post_mbind. apply post_modify. apply post_modify.
        destruct (erase_transfer L (maxima s) k old L' nx pv m')
          as [HsL' HI']; auto; try apply Hwf.
        { apply (st_nodup _ _ _ _ _ St3). }
        split; [constructor; simpl; auto;
                apply (staged_lengths _ _ _ _ _ St3)|exact Hrm].
      * auto.
    + (* rollback *)
      intros s1 n3 (T & used & St1). unfold erase_catch.
      apply post_mbind.
      eapply (post_rollback _ _ _ _ _ _ _ _ _ _ St1); try reflexivity;
        try apply Hwf.
      apply post_mbind. apply post_modify. apply post_modify.
      split; [apply (st_points _ _ _ _ _ St1)|]. split; [reflexivity|].
      constructor; simpl; try apply Hwf; auto;
        try apply (staged_lengths _ _ _ _ _ St1);
        rewrite (st_points _ _ _ _ _ St1); apply Hwf.
  - apply post_mret. auto.
Qed.

Theorem erase_post a s n :
  wf s ->
  post False (erase a s n)
       (fun _ s' _ => wf s' /\ erase_points a s s')
       (unchanged s).
Proof. intros Hwf. now apply erase_outcome. Qed.

Theorem erase_defined a s n :
  wf s -> erase a s n <> Undefined.
Proof.
  intros Hwf. eapply post_defined. apply (erase_post a s n Hwf).
Qed.

(** ** No exception is swallowed, none is invented

    [quiet n n']: the comparisons numbered [n] to [n' - 1] all returned. *)

Definition quiet (n n' : nat) : Prop :=
  forall k, n <= k < n' -> V_throws k = None.

(** A result from counter [n] on: a return means no comparison threw, a
    throw carries what the last comparison threw. *)
Definition traced_counts (n : nat) (thrown : option (exn U)) (n' : nat)
  : Prop :=
  match thrown with
  | None => n <= n' /\ quiet n n'
  | Some e => exists u, e = UserExn u /\ n < n' /\
                        V_throws (n' - 1) = Some u /\ quiet n (n' - 1)
  end.

Definition tracedC {X} (n : nat) (r : res (exn U) X) : Prop :=
  match r with
  | Val _ n' => traced_counts n None n'
  | Exn e n' => traced_counts n (Some e) n'
  | UB => True
  end.

Definition traced {X} (n : nat) (o : outcome (exn U) FM X) : Prop :=
  match o with
  | Ret _ _ n' => traced_counts n None n'
  | Thrown e _ n' => traced_counts n (Some e) n'
  | Undefined => True
  end.

Lemma traced_counts_trans n n1 thrown n2 :
  n <= n1 -> quiet n n1 -> traced_counts n1 thrown n2 ->
  traced_counts n thrown n2.
Proof.
  intros Hle Hq. destruct thrown as [e|]; simpl.
  - intros (u & He & Hlt & Hu & Hq'). exists u. repeat split; auto; try lia.
    intros k Hk. destruct (Nat.lt_ge_cases k n1); [apply Hq|apply Hq']; lia.
  - intros [Hle' Hq']. split; [lia|].
    intros k Hk. destruct (Nat.lt_ge_cases k n1); [apply Hq|apply Hq']; lia.
Qed.

Lemma traced_counts_refl n : traced_counts n None n.
Proof. split; auto. intros k Hk. lia. Qed.

Lemma tracedC_bind X Y (c : C X) (k : X -> C Y) n :
  tracedC n (c n) -> (forall x n1, tracedC n1 (k x n1)) ->
  tracedC n (bind c k n).
Proof.
  unfold bind. destruct (c n) as [x n1|e n1|]; simpl; auto.
  intros [Hle Hq] Hk. specialize (Hk x n1).
  destruct (k x n1) as [y n2|e n2|]; [| |exact I].
  - exact (traced_counts_trans n n1 None n2 Hle Hq Hk).
  - exact (traced_counts_trans n n1 (Some e) n2 Hle Hq Hk).
Qed.

Lemma tracedC_ret X (x : X) n : tracedC n (@ret (exn U) X x n).
Proof. apply traced_counts_refl. Qed.

Lemma tracedC_defined X (o : option X) n : tracedC n (@defined (exn U) X o n).
Proof. destruct o; simpl; [apply traced_counts_refl|exact I]. Qed.

Lemma tracedC_V_less v1 v2 n : tracedC n (V_less v1 v2 n).
Proof.
  unfold V_less. destruct (V_throws n) as [u|] eqn:E; simpl.
  - exists u. rewrite Nat.sub_0_r. repeat split; auto. intros k Hk. lia.
  - split; auto. intros k Hk. assert (k = n) by lia. now subst.
Qed.

Ltac trace_steps :=
  repeat first
    [ apply tracedC_ret
    | apply tracedC_defined
    | apply tracedC_V_less
    | apply tracedC_bind; [|intros ? ?]
    | match goal with
      | |- tracedC _ ((if ?b then _ else _) _) => destruct b
      end ].

Lemma tracedC_compare_maxima p q n : tracedC n (compare_maxima p q n).
Proof. unfold compare_maxima. trace_steps. Qed.

Lemma tracedC_equivalent v1 v2 n : tracedC n (equivalent v1 v2 n).
Proof. unfold equivalent. trace_steps. Qed.

Lemma tracedC_maxima_find k l : forall n, tracedC n (maxima_find k l n).
Proof.
  induction l as [|q l IH]; intros n; cbn [maxima_find].
  - apply tracedC_ret.
  - apply tracedC_bind; [apply tracedC_compare_maxima|]. intros b n1.
    destruct b; auto.
    apply tracedC_bind; [apply tracedC_compare_maxima|]. intros b n2.
    destruct b; apply tracedC_ret.
Qed.

Lemma tracedC_maxima_insert k l : forall n, tracedC n (maxima_insert k l n).
Proof.
  induction l as [|q l IH]; intros n; cbn [maxima_insert].
  - apply tracedC_ret.
  - apply tracedC_bind; [apply tracedC_compare_maxima|]. intros b n1.
    destruct b.
    + apply tracedC_bind; auto. intros; apply tracedC_ret.
    + apply tracedC_bind; [apply tracedC_compare_maxima|]. intros b n2.
      destruct b; apply tracedC_ret.
Qed.

Lemma tracedC_is_maximum l p previous n :
  tracedC n (is_maximum l p previous n).
Proof.
  unfold is_maximum, greater_than_prev, greater_than_next. trace_steps.
Qed.

Lemma tracedC_present p m n : tracedC n (present_in_maxima_set p m n).
Proof.
  unfold present_in_maxima_set.
  apply tracedC_bind; [apply tracedC_maxima_find|]. intros; apply tracedC_ret.
Qed.

(** Steps that compare nothing. *)
Definition silent {X} (m : M X) : Prop :=
  forall s n, match m s n with
              | Ret _ _ n' => n' = n
              | Thrown _ _ _ => False
              | Undefined => True
              end.

Lemma silent_mbind X Y (m : M X) (k : X -> M Y) :
  silent m -> (forall x, silent (k x)) -> silent (mbind m k).
Proof.
  intros Hm Hk s n. unfold mbind. specialize (Hm s n).
  destruct (m s n) as [x s1 n1| |]; auto. subst n1. apply Hk.
Qed.

Lemma silent_mret X (x : X) : silent (@mret (exn U) FM X x).
Proof. intros s n. reflexivity. Qed.

Lemma silent_modify f : silent (@modify (exn U) FM f).
Proof. intros s n. reflexivity. Qed.

Lemma silent_modify_defined f : silent (@modify_defined (exn U) FM f).
Proof. intros s n. unfold modify_defined. now destruct (f s). Qed.

Lemma silent_for_each idx (body : nat -> M unit) :
  (forall i, silent (body i)) -> silent (for_each idx body).
Proof.
  intros Hb. induction idx as [|i idx IH]; simpl.
  - apply silent_mret.
  - apply silent_mbind; auto.
Qed.

Ltac silence :=
  repeat first
    [ apply silent_mret | apply silent_modify | apply silent_modify_defined
    | apply silent_for_each; intros ?
    | apply silent_mbind; [|intros ?] ].

Lemma silent_custom_insert_catch it : silent (custom_insert_catch it).
Proof.
  unfold custom_insert_catch, points_erase_at, rollback_maxima, clear_rollback,
    clear_erase. silence.
Qed.

Lemma silent_erase_catch : silent erase_catch.
Proof.
  unfold erase_catch, rollback_maxima, clear_rollback, clear_erase. silence.
Qed.

Lemma silent_traced X (m : M X) s n : silent m -> traced n (m s n).
Proof.
  intros H. specialize (H s n). destruct (m s n); simpl; auto.
  - subst. apply traced_counts_refl.
  - destruct H.
Qed.

Lemma traced_mbind X Y (m : M X) (k : X -> M Y) s n :
  traced n (m s n) -> (forall x s1 n1, traced n1 (k x s1 n1)) ->
  traced n (mbind m k s n).
Proof.
  unfold mbind. destruct (m s n) as [x s1 n1|e s1 n1|]; simpl; auto.
  intros [Hle Hq] Hk. specialize (Hk x s1 n1).
  destruct (k x s1 n1) as [y s2 n2|e s2 n2|]; [| |exact I].
  - exact (traced_counts_trans n n1 None n2 Hle Hq Hk).
  - exact (traced_counts_trans n n1 (Some e) n2 Hle Hq Hk).
Qed.

Lemma traced_run_const X (c : FM -> C X) s n :
  tracedC n (c s n) -> traced n (run_const c s n).
Proof. unfold run_const. destruct (c s n); auto. Qed.

Lemma traced_try_catch X (body : M X) handler s n :
  traced n (body s n) -> silent handler ->
  traced n (try_catch_rethrow body handler s n).
Proof.
  unfold try_catch_rethrow. destruct (body s n) as [x s1 n1|e s1 n1|]; simpl; auto.
  intros Hb Hh. specialize (Hh s1 n1).
  destruct (handler s1 n1); simpl; auto; [now subst|destruct Hh].
Qed.

Ltac trace_M :=
  repeat first
    [ apply silent_traced; silence
    | apply traced_run_const;
        first [ apply tracedC_is_maximum | apply tracedC_maxima_find
              | apply tracedC_ret | apply tracedC_defined ]
    | apply traced_mbind; [|intros ? ? ?]
    | match goal with
      | |- traced _ ((if ?b then _ else _) _ _) => destruct b
      | |- traced _ ((match ?b with Some _ => _ | None => _ end) _ _) =>
          destruct b
      end ].

Lemma traced_conditional_add it slot previous s n :
  traced n (conditional_add_new_maximum it slot previous s n).
Proof.
  unfold conditional_add_new_maximum, store_to_rollback, store_if_rollback,
    store_to_erase, store_if_erase.
  destruct (it_eqb it points_end || it_eqb it previous).
  { apply silent_traced. apply silent_mret. }
  apply traced_mbind; [apply traced_run_const, tracedC_is_maximum|].
  intros is_max s1 n1.
  assert (Hpres : forall s n, traced n (run_const (fun s : FM =>
            x <- defined (deref (points s) it) ;;
            present_in_maxima_set x (maxima s)) s n)).
  { intros. apply traced_run_const. apply tracedC_bind;
      [apply tracedC_defined|intros; apply tracedC_present]. }
  assert (Hfind : forall s n, traced n (run_const (fun s : FM =>
            x <- defined (deref (points s) it) ;;
            maxima_find x (maxima s)) s n)).
  { intros. apply traced_run_const. apply tracedC_bind;
      [apply tracedC_defined|intros; apply tracedC_maxima_find]. }
  destruct is_max; (apply traced_mbind; [apply Hpres|]); intros present s2 n2;
    destruct present; cbn [negb];
    try solve [apply silent_traced; apply silent_mret].
  - apply traced_mbind; [apply traced_run_const, tracedC_defined|].
    intros x s3 n3. apply traced_mbind.
    + unfold maxima_insert_first.
      pose proof (tracedC_maxima_insert x (maxima s3) n3) as H.
      destruct (maxima_insert x (maxima s3) n3); auto.
    + intros. apply silent_traced. silence.
  - apply traced_mbind; [apply Hfind|]. intros.
    apply silent_traced. silence.
Qed.

Theorem set_value_traced a v s n : traced n (set_value a v s n).
Proof.
  unfold set_value, custom_insert.
  apply traced_mbind; [apply traced_run_const, tracedC_ret|].
  intros previous s1 n1. apply traced_mbind.
  { destruct (negb (it_eqb previous points_end)).
    - apply traced_run_const. apply tracedC_bind;
        [apply tracedC_defined|intros; apply tracedC_equivalent].
    - apply silent_traced, silent_mret. }
  intros same s2 n2. destruct same; [apply silent_traced, silent_mret|].
  apply traced_mbind; [apply silent_traced; intros ? ?; reflexivity|].
  intros it s3 n3. apply traced_mbind.
  - apply traced_try_catch; [|apply silent_custom_insert_catch].
    unfold custom_insert_try, store_to_erase, store_if_erase, points_erase_at.
    repeat first
      [ apply traced_conditional_add
      | apply traced_run_const;
          first [ apply tracedC_ret | apply tracedC_defined
                | apply tracedC_bind;
                    [apply tracedC_defined|intros; apply tracedC_maxima_find] ]
      | apply traced_mbind; [|intros ? ? ?]
      | match goal with
        | |- traced _ ((if ?b then _ else _) _ _) => destruct b
        | |- traced _ ((match ?b with Some _ => _ | None => _ end) _ _) =>
            destruct b
        end
      | apply silent_traced; silence ].
  - intros. apply silent_traced.
    unfold erase_from_maxima, clear_rollback, clear_erase. silence.
Qed.

Theorem erase_traced a s n : traced n (erase a s n).
Proof.
  unfold erase.
  apply traced_mbind; [apply traced_run_const, tracedC_ret|].
  intros it s1 n1.
  destruct (negb (it_eqb it points_end)); [|apply silent_traced, silent_mret].
  apply traced_mbind.
  { apply traced_run_const. apply tracedC_bind;
      [apply tracedC_defined|intros; apply tracedC_maxima_find]. }
  intros it2 s2 n2. apply traced_mbind.
  - apply traced_try_catch; [|apply silent_erase_catch].
    unfold erase_try, store_to_erase, store_if_erase.
    repeat first
      [ apply traced_conditional_add
      | apply traced_run_const; apply tracedC_defined
      | apply traced_mbind; [|intros ? ? ?]
      | match goal with
        | |- traced _ ((match ?b with Some _ => _ | None => _ end) _ _) =>
            destruct b
        end
      | apply silent_traced; silence ].
  - intros. apply silent_traced.
    unfold erase_from_maxima, points_erase_at, clear_rollback, clear_erase.
    silence.
Qed.

(** ** States reached by completed public calls *)

Inductive call : Type :=
| SetValue (a : A) (v : V)
| Erase (a : A).

Definition run (c : call) : M unit :=
  match c with
  | SetValue a v => set_value a v
  | Erase a => erase a
  end.

(** A call is completed when it returned or threw. *)
Inductive reachable : FM -> Prop :=
| reach_new : reachable FunctionMaxima
| reach_ret c s n u s' n' :
    reachable s -> run c s n = Ret u s' n' -> reachable s'
| reach_thrown c s n e s' n' :
    reachable s -> run c s n = Thrown e s' n' -> reachable s'.

Lemma wf_new : wf FunctionMaxima.
Proof.
  constructor; simpl; auto.
  - intros i j p q _ Hp. destruct i; discriminate.
  - constructor.
  - intros x. split; [easy|]. intros (i & Hi & _). destruct i; discriminate.
Qed.

Lemma run_post c s n :
  wf s -> post False (run c s n) (fun _ s' _ => wf s') (fun s' => wf s').
Proof.
  intros Hwf. destruct c as [a v|a]; simpl.
  - eapply post_conseq; [apply set_value_post; assumption| |].
    + intros _ s' _ [H _]. exact H.
    + intros s' (_ & _ & H). exact H.
  - eapply post_conseq; [apply erase_post; assumption| |].
    + intros _ s' _ [H _]. exact H.
    + intros s' (_ & _ & H). exact H.
Qed.

Lemma reachable_wf s : reachable s -> wf s.
Proof.
  induction 1 as [|c s n u s' n' _ IH H|c s n e s' n' _ IH H].
  - apply wf_new.
  - exact (post_Ret _ _ _ _ _ _ _ _ (run_post c s n IH) H).
  - exact (post_Thrown _ _ _ _ _ _ _ _ (run_post c s n IH) H).
Qed.

(** ** The claims *)

(** C1. After every completed public call the maxima view is exactly the
    set of stored points that are not less than their left neighbour (if
    any) and not less than their right neighbour (if any). *)
Theorem maxima_are_local_maxima s :
  reachable s ->
  forall p, In p (maxima_sequence s) <->
            exists i, local_maximum (point_sequence s) i p.
Proof. intros H. apply (wf_I1 _ (reachable_wf _ H)). Qed.

Lemma run_traced c s n : traced n (run c s n).
Proof. destruct c as [a v|a]; [apply set_value_traced|apply erase_traced]. Qed.

Lemma run_Thrown c s n e s' n' :
  reachable s -> run c s n = Thrown e s' n' ->
  unchanged s s' /\ traced_counts n (Some e) n'.
Proof.
  intros Hr H. pose proof (reachable_wf _ Hr) as Hwf. split.
  - destruct c as [a v|a]; simpl in H.
    + exact (post_Thrown _ _ _ _ _ _ _ _ (set_value_post a v s n Hwf) H).
    + exact (post_Thrown _ _ _ _ _ _ _ _ (erase_post a s n Hwf) H).
  - pose proof (run_traced c s n) as Ht. rewrite H in Ht. exact Ht.
Qed.

(** A call that is defined, and during which no comparison throws,
    returns. *)
Lemma run_returns c s n :
  run c s n <> Undefined -> (forall k, n <= k -> V_throws k = None) ->
  exists s' n', run c s n = Ret tt s' n'.
Proof.
  intros Hd Hq. pose proof (run_traced c s n) as Ht.
  destruct (run c s n) as [[] s' n'|e s' n'|]; [eauto| |congruence].
  destruct Ht as (u & _ & Hlt & Hu & _).
  rewrite Hq in Hu by lia. discriminate.
Qed.

(** Every call on an object that calls have produced is defined, whatever
    the argument. *)
Theorem run_defined c s n : reachable s -> run c s n <> Undefined.
Proof.
  intros Hr. pose proof (reachable_wf _ Hr) as Hwf.
  destruct c as [a v|a]; simpl.
  - now apply set_value_defined.
  - now apply erase_defined.
Qed.

(** A call that returns has seen no comparison throw. *)
Lemma return_means_no_throw c s n u s' n' :
  run c s n = Ret u s' n' -> n <= n' /\ quiet n n'.
Proof.
  intros H. pose proof (run_traced c s n) as Ht. rewrite H in Ht. exact Ht.
Qed.

(** C2. If a comparison on [V] throws during [set_value] or [erase], the
    caller gets that very exception, and the point sequence and the maxima
    sequence are what they were before the call: every call, on whatever
    argument, returns or throws; a call that throws throws what its last
    comparison threw and leaves both sequences as they were, and a call
    that returns has seen no comparison throw. *)
Theorem comparison_failure_leaves_state s c n :
  reachable s ->
  run c s n <> Undefined /\
  (forall e s' n', run c s n = Thrown e s' n' ->
     point_sequence s' = point_sequence s /\
     maxima_sequence s' = maxima_sequence s /\
     exists u, e = UserExn u /\ n < n' /\ V_throws (n' - 1) = Some u /\
               quiet n (n' - 1)) /\
  (forall u s' n', run c s n = Ret u s' n' -> n <= n' /\ quiet n n').
Proof.
  intros Hr. split; [now apply run_defined|]. split.
  - intros e s' n' H.
    destruct (run_Thrown c s n e s' n' Hr H) as [(Hp & Hm & _) Ht].
    split; [exact Hp|]. split; [exact Hm|]. exact Ht.
  - intros u s' n'. apply return_means_no_throw.
Qed.

(** *** value_at *)

Lemma value_at_unfold a s n :
  value_at a s n =
  match points_find a (points s) with
  | None => Exn InvalidArg n
  | Some k => match nth_error (points s) k with
              | Some p => Val (value p) n
              | None => UB
              end
  end.
Proof.
  unfold value_at. destruct (points_find a (points s)) as [k|]; simpl; auto.
  unfold bind, defined, ret. now destruct (nth_error (points s) k).
Qed.

Lemma value_at_present a s n p :
  sortedP (points s) -> In p (points s) -> arg p = a ->
  value_at a s n = Val (value p) n.
Proof.
  intros Hs Hp Ha. apply In_nth_error in Hp. destruct Hp as [k Hk].
  rewrite value_at_unfold, (points_find_present _ _ _ _ Hs Hk Ha), Hk.
  reflexivity.
Qed.

Lemma value_at_absent a s n :
  sortedP (points s) -> (forall p, In p (points s) -> arg p <> a) ->
  value_at a s n = Exn InvalidArg n.
Proof.
  intros Hs Hno. rewrite value_at_unfold.
  destruct (points_find a (points s)) as [k|] eqn:Ef; auto.
  destruct (points_find_Some _ _ _ Ef) as (p & Hk & Ha).
  destruct (Hno p); eauto using nth_error_In.
Qed.

(** An argument has a value. *)
Definition defined_at (a : A) (s : FM) : Prop :=
  exists p, In p (point_sequence s) /\ arg p = a.

Lemma points_find_defined a s :
  sortedP (points s) ->
  (points_find a (points s) <> None <-> defined_at a s).
Proof.
  intros Hs. unfold defined_at, point_sequence. split.
  - destruct (points_find a (points s)) as [k|] eqn:Ef; [|congruence].
    intros _. destruct (points_find_Some _ _ _ Ef) as (p & Hk & Ha).
    eauto using nth_error_In.
  - intros (p & Hp & Ha) F. eapply points_find_None; eauto.
Qed.

Lemma remove_at_In k : forall (L L' : point_set),
  remove_at k L = Some L' ->
  forall p, In p L' <-> exists j, j <> k /\ nth_error L j = Some p.
Proof.
  intros L L' Hrm p. destruct (remove_at_spec _ _ _ Hrm) as (_ & _ & H).
  split.
  - intros Hp. apply In_nth_error in Hp. destruct Hp as [j Hj].
    rewrite H in Hj. destruct (Nat.ltb_spec j k); [exists j|exists (S j)];
      split; auto; lia.
  - intros (j & Hj & Hp).
    apply (nth_error_In L' (if j <? k then j else j - 1)). rewrite H.
    arith_cases. destruct j; [lia|]. now replace (S j - 1) with j by lia.
Qed.

(** C3, as the code has it. [erase a] does nothing, and returns, when [a]
    has no value; when it returns, [a] has no value any more, the other
    points are kept and [value_at a] raises [InvalidArg]; it raises
    nothing of its own, but what a comparison on [V] throws during the
    call goes through it, with both sequences left as they were; and the
    call is defined for every [a], the first argument of the function
    included, and returns when no comparison throws. *)
Theorem erase_removes_or_propagates s a :
  reachable s ->
  ((forall p, In p (point_sequence s) -> arg p <> a) ->
   forall n, erase a s n = Ret tt s n) /\
  (forall n u s' n', erase a s n = Ret u s' n' ->
     (forall p, In p (point_sequence s') <->
                In p (point_sequence s) /\ arg p <> a) /\
     forall m, value_at a s' m = Exn InvalidArg m) /\
  (forall n e s' n', erase a s n = Thrown e s' n' ->
     point_sequence s' = point_sequence s /\
     maxima_sequence s' = maxima_sequence s /\
     exists u, e = UserExn u /\ n < n' /\ V_throws (n' - 1) = Some u) /\
  (forall n,
     erase a s n <> Undefined /\
     ((forall k, n <= k -> V_throws k = None) ->
      exists s' n', erase a s n = Ret tt s' n')).
Proof.
  intros Hr. pose proof (reachable_wf _ Hr) as Hwf.
  pose proof (wf_points _ Hwf) as Hs. split; [|split; [|split]].
  4: { intros n.
       pose proof (run_defined (Erase a) s n Hr) as Hd. split; auto.
       intros Hq. exact (run_returns (Erase a) s n Hd Hq). }
  - intros Hno n. unfold erase, mbind, run_const, ret.
    destruct (points_find a (points s)) as [k|] eqn:Ef; [|reflexivity].
    destruct (points_find_Some _ _ _ Ef) as (p & Hk & Ha).
    destruct (Hno p); eauto using nth_error_In.
  - intros n u s' n' H.
    destruct (post_Ret _ _ _ _ _ _ _ _ (erase_post a s n Hwf) H) as [Hwf' Hpts].
    unfold erase_points in Hpts. unfold point_sequence.
    destruct (points_find a (points s)) as [k|] eqn:Ef.
    + destruct (points_find_Some _ _ _ Ef) as (old & Hk & Ha).
      assert (Hin : forall p, In p (points s') <->
                               In p (points s) /\ arg p <> a).
      { intros p. rewrite (remove_at_In _ _ _ Hpts). split.
        - intros (j & Hj & Hp). split; [eauto using nth_error_In|].
          intros F. apply Hj. eapply sortedP_inj; eauto. congruence.
        - intros [Hp Hne]. apply In_nth_error in Hp. destruct Hp as [j Hj].
          exists j. split; auto. intros ->. congruence. }
      split; auto. intros m. apply value_at_absent; [apply Hwf'|].
      intros p Hp. apply Hin in Hp. tauto.
    + subst s'. pose proof (points_find_None _ _ Hs Ef) as Hno.
      split; [intros p; split; [auto|tauto]|].
      intros m. now apply value_at_absent.
  - intros n e s' n' H.
    destruct (run_Thrown (Erase a) s n e s' n' Hr H)
      as [(Hp & Hm & _) (u & Hu & Hlt & Hth & _)].
    split; [exact Hp|]. split; [exact Hm|]. exists u. auto.
Qed.

Lemma set_value_equivalent_run s a v k p n :
  points_find a (points s) = Some k -> nth_error (points s) k = Some p ->
  V_lt v (value p) = false -> V_lt (value p) v = false ->
  set_value a v s n =
  match V_throws n with
  | Some u => Thrown (UserExn u) s (S n)
  | None => match V_throws (S n) with
            | Some u => Thrown (UserExn u) s (S (S n))
            | None => Ret tt s (S (S n))
            end
  end.
Proof.
  intros Hf Hk H1 H2.
  unfold set_value, custom_insert, mbind, run_const, ret, bind, defined.
  rewrite Hf. cbn [it_eqb points_end negb deref]. rewrite Hk.
  unfold equivalent, bind, V_less.
  destruct (V_throws n); [reflexivity|]. rewrite H1.
  destruct (V_throws (S n)); [reflexivity|]. rewrite H2. reflexivity.
Qed.

(** C4. [set_value a v] where [a] already has a value equivalent to [v]
    mutates nothing: it returns after the two comparisons of
    [equivalent], with [size()], the point sequence and the maxima
    sequence as before (and if one of the two throws, the state is as it
    was as well). *)
Theorem set_value_equivalent_is_noop s a v w m m' n :
  value_at a s m = Val w m' ->
  V_lt v w = false -> V_lt w v = false ->
  set_value a v s n <> Undefined /\
  (forall u s' n', set_value a v s n = Ret u s' n' ->
     s' = s /\ n' = S (S n) /\ size s' = size s /\
     point_sequence s' = point_sequence s /\
     maxima_sequence s' = maxima_sequence s) /\
  (forall e s' n', set_value a v s n = Thrown e s' n' -> s' = s) /\
  (V_throws n = None -> V_throws (S n) = None ->
   set_value a v s n = Ret tt s (S (S n))).
Proof.
  intros Hv H1 H2. rewrite value_at_unfold in Hv.
  destruct (points_find a (points s)) as [k|] eqn:Ef; [|discriminate].
  destruct (nth_error (points s) k) as [p|] eqn:Ek; [|discriminate].
  injection Hv as <- _.
  rewrite (set_value_equivalent_run s a v k p n Ef Ek H1 H2).
  destruct (V_throws n) as [u0|]; [|destruct (V_throws (S n)) as [u1|]].
  - repeat split; try discriminate; try congruence.
  - repeat split; try discriminate; try congruence.
  - repeat split; try discriminate; try congruence.
Qed.

(** C5. After a [set_value a v] that returned, [value_at a] returns a
    value equivalent to [v]; and the call is defined for every [a], the
    first argument of the function included, and returns when no
    comparison throws. *)
Theorem set_value_then_value_at s a v n :
  reachable s ->
  (forall u s' n', set_value a v s n = Ret u s' n' ->
     exists w, (forall m, value_at a s' m = Val w m) /\
               V_lt v w = false /\ V_lt w v = false) /\
  (set_value a v s n <> Undefined /\
   ((forall k, n <= k -> V_throws k = None) ->
    exists s' n', set_value a v s n = Ret tt s' n')).
Proof.
  intros Hr. split.
  2: { pose proof (run_defined (SetValue a v) s n Hr) as Hd. split; auto.
       intros Hq. exact (run_returns (SetValue a v) s n Hd Hq). }
  intros u s' n' H. pose proof (reachable_wf _ Hr) as Hwf.
  destruct (post_Ret _ _ _ _ _ _ _ _ (set_value_post a v s n Hwf) H)
    as [Hwf' Hpts].
  pose proof (wf_points _ Hwf') as Hs'.
  unfold set_value_points in Hpts.
  destruct (points_find a (points s)) as [k|] eqn:Ef.
  - destruct Hpts as (old & Hk & Ha & [(H1 & H2 & ->)|(Hne & Hnth)]).
    + exists (value old). split; auto. intros m.
      apply value_at_present; eauto using nth_error_In.
    + exists v. split; auto. intros m.
      apply (value_at_present a s' m (mk_point a v)); auto.
      apply (nth_error_In _ k). rewrite Hnth. now rewrite Nat.eqb_refl.
  - exists v. split; auto. intros m.
    apply (value_at_present a s' m (mk_point a v)); auto.
    rewrite Hpts.
    apply (nth_error_In _ (upper_bound (mk_point a v) (points s))).
    rewrite nth_insert_at by apply upper_bound_le. arith_cases.
Qed.

(** Greater value first, and among equivalent values smaller argument
    first. *)
Definition value_desc_arg_asc (p q : point_type) : Prop :=
  V_lt (value q) (value p) = true \/
  (V_lt (value p) (value q) = false /\ V_lt (value q) (value p) = false /\
   A_lt (arg p) (arg q) = true).

Lemma maxima_before_iff p q :
  maxima_before p q = true <-> value_desc_arg_asc p q.
Proof.
  unfold maxima_before, value_desc_arg_asc. split.
  - destruct (V_lt (value q) (value p)); auto.
    destruct (V_lt (value p) (value q)); [discriminate|auto].
  - intros [->|(-> & -> & ->)]; reflexivity.
Qed.

Lemma exists_greatest l :
  l <> [] ->
  exists i g, nth_error l i = Some g /\
              forall p, In p l -> V_lt (value g) (value p) = false.
Proof.
  induction l as [|x l IH]; [congruence|]. intros _.
  destruct l as [|y l].
  - exists 0, x. split; auto. intros p [<-|[]]. apply V_lt_irrefl.
  - destruct IH as (i & g & Hi & Hg); [discriminate|].
    destruct (V_lt (value g) (value x)) eqn:E.
    + exists 0, x. split; auto. intros p [<-|Hp]; [apply V_lt_irrefl|].
      destruct (V_lt (value x) (value p)) eqn:E'; auto.
      specialize (Hg p Hp).
      pose proof (V_lt_trans _ _ _ E E') as F. congruence.
    + exists (S i), g. split; auto. intros p [<-|Hp]; auto.
Qed.

Lemma greatest_is_local_maximum l i g :
  nth_error l i = Some g ->
  (forall p, In p l -> V_lt (value g) (value p) = false) ->
  local_maximum l i g.
Proof.
  intros Hi Hg. split; auto. split; intros q Hq; apply Hg.
  - destruct i; [discriminate|]. simpl in Hq. eauto using nth_error_In.
  - unfold right_neighbor in Hq. eauto using nth_error_In.
Qed.


(** [value_at] as a call on the object. *)
Definition call_value_at (a : A) : M V := run_const (value_at a).

(** C8. [value_at a] raises [InvalidArg] exactly when [a] has no value,
    returns the stored value otherwise, and leaves the object as it is. *)
Theorem value_at_spec s a n :
  reachable s ->
  (value_at a s n = Exn InvalidArg n <-> ~ defined_at a s) /\
  (forall p, In p (point_sequence s) -> arg p = a ->
             value_at a s n = Val (value p) n) /\
  (forall x s' n', call_value_at a s n = Ret x s' n' -> s' = s) /\
  (forall e s' n', call_value_at a s n = Thrown e s' n' ->
                   s' = s /\ e = InvalidArg) /\
  call_value_at a s n <> Undefined.
Proof.
  intros Hr. pose proof (wf_points _ (reachable_wf _ Hr)) as Hs.
  assert (Hcases : (exists p, In p (points s) /\ arg p = a /\
                              value_at a s n = Val (value p) n) \/
                   (~ defined_at a s /\ value_at a s n = Exn InvalidArg n)).
  { rewrite value_at_unfold.
    destruct (points_find a (points s)) as [k|] eqn:Ef.
    - destruct (points_find_Some _ _ _ Ef) as (p & Hk & Ha). rewrite Hk.
      left. eauto using nth_error_In.
    - right. split; auto. intros (p & Hp & Ha).
      eapply points_find_None; eauto. }
  split; [|split; [|split; [|split]]].
  - destruct Hcases as [(p & Hp & Ha & Hv)|[Hno Hv]]; rewrite Hv.
    + split; [discriminate|]. intros F. destruct F. exists p. auto.
    + tauto.
  - intros p Hp Ha. now apply value_at_present.
  - intros x s' n' H. apply run_const_Ret in H. tauto.
  - intros e s' n' H. apply run_const_Thrown in H. destruct H as [-> H].
    split; auto.
    destruct Hcases as [(p & _ & _ & Hv)|[_ Hv]]; rewrite Hv in H; congruence.
  - unfold call_value_at, run_const.
    destruct Hcases as [(p & _ & _ & Hv)|[_ Hv]]; rewrite Hv; discriminate.
Qed.

(** C9. A non-empty function has a local maximum. *)
Theorem nonempty_has_maximum s :
  reachable s -> 0 < size s -> maxima_sequence s <> [].
Proof.
  intros Hr Hsz. pose proof (reachable_wf _ Hr) as Hwf. unfold size in Hsz.
  destruct (exists_greatest (points s)) as (i & g & Hi & Hg).
  { intros F. rewrite F in Hsz. simpl in Hsz. lia. }
  assert (Hgm : In g (maxima s)).
  { apply (wf_I1 _ Hwf). exists i. now apply greatest_is_local_maximum. }
  unfold maxima_sequence. intros F. rewrite F in Hgm. destruct Hgm.
Qed.

Lemma length_overwritten {X} (L L' : list X) k x y :
  nth_error L k = Some y ->
  (forall j, nth_error L' j = if j =? k then Some x else nth_error L j) ->
  length L' = length L.
Proof.
  intros Hk H. pose proof (nth_error_lt _ _ _ Hk) as Hlt.
  assert (H1 : nth_error L' (length L) = None).
  { rewrite H. destruct (Nat.eqb_spec (length L) k); [lia|].
    apply nth_error_None. lia. }
  assert (H2 : nth_error L (length L') = None \/ length L' = k).
  { pose proof (H (length L')) as E.
    destruct (Nat.eqb_spec (length L') k); auto. left. rewrite <- E.
    apply nth_error_None. lia. }
  apply nth_error_None in H1. destruct H2 as [H2|H2].
  - apply nth_error_None in H2. lia.
  - pose proof (H k) as E. rewrite Nat.eqb_refl in E.
    apply nth_error_lt in E. lia.
Qed.

(** C10. A [set_value] that returned left [size()] as it was when the
    argument had a value and made it one greater when it had none; an
    [erase] that returned made it one smaller when the argument had a
    value and left it as it was when it had none.  [size] is a total
    function of the object. *)
Theorem size_arithmetic s a :
  reachable s ->
  (forall v n u s' n', set_value a v s n = Ret u s' n' ->
     (defined_at a s -> size s' = size s) /\
     (~ defined_at a s -> size s' = S (size s))) /\
  (forall n u s' n', erase a s n = Ret u s' n' ->
     (defined_at a s -> S (size s') = size s) /\
     (~ defined_at a s -> size s' = size s)).
Proof.
  intros Hr. pose proof (reachable_wf _ Hr) as Hwf.
  pose proof (wf_points _ Hwf) as Hs.
  pose proof (points_find_defined a s Hs) as Hdef. unfold size. split.
  - intros v n u s' n' H.
    destruct (post_Ret _ _ _ _ _ _ _ _ (set_value_post a v s n Hwf) H)
      as [_ Hpts].
    unfold set_value_points in Hpts.
    destruct (points_find a (points s)) as [k|] eqn:Ef.
    + split; [intros _|intros F; destruct F; apply Hdef; discriminate].
      destruct Hpts as (old & Hk & Ha & [(_ & _ & ->)|(_ & Hnth)]); auto.
      eapply length_overwritten; eauto.
    + split; [intros F; apply Hdef in F; congruence|intros _].
      rewrite Hpts. apply length_insert_at_le, upper_bound_le.
  - intros n u s' n' H.
    destruct (post_Ret _ _ _ _ _ _ _ _ (erase_post a s n Hwf) H) as [_ Hpts].
    unfold erase_points in Hpts.
    destruct (points_find a (points s)) as [k|] eqn:Ef.
    + split; [intros _|intros F; destruct F; apply Hdef; discriminate].
      destruct (remove_at_spec _ _ _ Hpts) as (Hlen & _). lia.
    + split; [intros F; apply Hdef in F; congruence|intros _]. now subst.
Qed.

(** * More of the interface *)

(** ** The points, seen through the iterators *)

Definition arg_ascending (p q : point_type) : Prop :=
  A_lt (arg p) (arg q) = true.

Lemma sortedP_StronglySorted l :
  sortedP l -> StronglySorted arg_ascending l.
Proof.
  induction l as [|p l IH]; intros Hs; constructor.
  - apply IH. eapply sortedP_tail; eauto.
  - apply Forall_forall. intros q Hq. apply In_nth_error in Hq.
    destruct Hq as [j Hj]. apply (Hs 0 (S j) p q); auto. lia.
Qed.

Lemma sortedP_unique l p q :
  sortedP l -> In p l -> In q l -> arg p = arg q -> p = q.
Proof.
  intros Hs Hp Hq Ha. apply In_nth_error in Hp, Hq.
  destruct Hp as [i Hi], Hq as [j Hj].
  assert (i = j) by (eapply sortedP_inj; eauto). subst j. congruence.
Qed.

(** Two ascending sequences with the same points are the same sequence. *)
Lemma sortedP_ext l1 : forall l2,
  sortedP l1 -> sortedP l2 -> (forall x, In x l1 <-> In x l2) -> l1 = l2.
Proof.
  induction l1 as [|a l1 IH]; intros l2 H1 H2 Hin.
  - destruct l2 as [|b l2]; auto. destruct (proj2 (Hin b)). now left.
  - destruct l2 as [|b l2]; [destruct (proj1 (Hin a)); now left|].
    pose proof (sortedP_StronglySorted _ H1) as S1.
    pose proof (sortedP_StronglySorted _ H2) as S2.
    inversion S1 as [|? ? _ F1]; inversion S2 as [|? ? _ F2]; subst.
    rewrite Forall_forall in F1, F2.
    assert (Hab : a = b).
    { destruct (proj1 (Hin a) (or_introl eq_refl)) as [E|Ha]; auto.
      destruct (proj2 (Hin b) (or_introl eq_refl)) as [E|Hb]; auto.
      pose proof (F2 _ Ha) as Lba. pose proof (F1 _ Hb) as Lab.
      unfold arg_ascending in *.
      pose proof (A_lt_trans _ _ _ Lab Lba) as F.
      rewrite A_lt_irrefl in F. discriminate. }
    subst b. f_equal. apply IH; eauto using sortedP_tail.
    assert (Hno : forall l, (forall q, In q l -> arg_ascending a q) ->
                            ~ In a l).
    { intros l F Ha. specialize (F _ Ha). unfold arg_ascending in F.
      rewrite A_lt_irrefl in F. discriminate. }
    intros x. split; intros Hx.
    + destruct (proj1 (Hin x) (or_intror Hx)) as [<-|]; auto.
      destruct (Hno _ F1 Hx).
    + destruct (proj2 (Hin x) (or_intror Hx)) as [<-|]; auto.
      destruct (Hno _ F2 Hx).
Qed.

(** X1. [find a] is [end()] exactly when [a] has no value; otherwise it
    is the iterator to the one point with argument [a], whose value is
    what [value_at a] returns. *)
Theorem find_spec s a :
  reachable s ->
  (find a s = end_ s <-> ~ defined_at a s) /\
  (forall p, In p (point_sequence s) -> arg p = a ->
             deref (points s) (find a s) = Some p) /\
  (forall i, find a s = Some i ->
     exists p, deref (points s) (find a s) = Some p /\ arg p = a /\
               In p (point_sequence s) /\
               forall n, value_at a s n = Val (value p) n).
Proof.
  intros Hr. pose proof (wf_points _ (reachable_wf _ Hr)) as Hs.
  unfold find, end_, points_end, point_sequence. split; [|split].
  - rewrite <- (points_find_defined a s Hs).
    destruct (points_find a (points s)); split; try congruence.
    intros F. destruct F. discriminate.
  - intros p Hp Ha. apply In_nth_error in Hp. destruct Hp as [k Hk].
    rewrite (points_find_present _ _ _ _ Hs Hk Ha). exact Hk.
  - intros i Hi. rewrite Hi.
    destruct (points_find_Some _ _ _ Hi) as (p & Hk & Ha).
    exists p. split; [exact Hk|]. split; [exact Ha|].
    split; [eauto using nth_error_In|].
    intros n. apply value_at_present; eauto using nth_error_In.
Qed.

(** X2. The point sequence, which [begin()] to [end()] walks, runs by
    strictly ascending argument: no argument has two points. *)
Theorem points_ascending s :
  reachable s ->
  StronglySorted arg_ascending (point_sequence s) /\
  (forall p q, In p (point_sequence s) -> In q (point_sequence s) ->
               arg p = arg q -> p = q).
Proof.
  intros Hr. pose proof (wf_points _ (reachable_wf _ Hr)) as Hs.
  unfold point_sequence. split.
  - now apply sortedP_StronglySorted.
  - intros p q. now apply sortedP_unique.
Qed.

(** ** The maxima are a function of the points *)

Lemma wf_maxima_determined s1 s2 :
  wf s1 -> wf s2 -> points s1 = points s2 -> maxima s1 = maxima s2.
Proof.
  intros W1 W2 E. apply sortedM_ext; try apply W1; try apply W2.
  intros x. rewrite (wf_I1 _ W1 x), (wf_I1 _ W2 x), E. tauto.
Qed.

(** X3. Two objects with the same point sequence have the same maxima
    sequence, however each was reached. *)
Theorem maxima_determined_by_points s1 s2 :
  reachable s1 -> reachable s2 ->
  point_sequence s1 = point_sequence s2 ->
  maxima_sequence s1 = maxima_sequence s2.
Proof.
  intros R1 R2. apply wf_maxima_determined; now apply reachable_wf.
Qed.

(** X4. The first insertion cannot fail: on the function just constructed
    [set_value a v] compares no two values, and returns with [(a, v)] as
    the one point and the one maximum. *)
Theorem first_insertion a v n :
  exists s', set_value a v FunctionMaxima n = Ret tt s' n /\
             point_sequence s' = [mk_point a v] /\
             maxima_sequence s' = [mk_point a v] /\
             size s' = 1.
Proof. eexists. split; [vm_compute; reflexivity|]. repeat split. Qed.

(** ** The helpers of the update *)

Lemma greater_than_count (x y : point_type) n b n' :
  bind (V_less (value x) (value y))
       (fun b : bool => if b then ret false else ret true) n = Val b n' ->
  n' = S n.
Proof.
  unfold bind, V_less. destruct (V_throws n); [discriminate|].
  destruct (V_lt (value x) (value y)); unfold ret; congruence.
Qed.

Lemma greater_than_prev_count l p previous n b n' :
  greater_than_prev l p previous n = Val b n' -> n <= n' <= S n.
Proof.
  unfold greater_than_prev. intros H.
  apply bind_Val in H. destruct H as (e & n1 & He & H).
  apply defined_Val in He. destruct He as [_ ->].
  destruct e; [apply ret_Val in H; lia|].
  apply bind_Val in H. destruct H as (x & n2 & Hx & H).
  apply defined_Val in Hx. destruct Hx as [_ ->].
  apply bind_Val in H. destruct H as (q & n3 & Hq & H).
  apply defined_Val in Hq. destruct Hq as [_ ->].
  apply bind_Val in H. destruct H as (y & n4 & Hy & H).
  apply defined_Val in Hy. destruct Hy as [_ ->].
  apply greater_than_count in H. lia.
Qed.

Lemma greater_than_next_count l p previous n b n' :
  greater_than_next l p previous n = Val b n' -> n <= n' <= S n.
Proof.
  unfold greater_than_next. intros H.
  apply bind_Val in H. destruct H as (e & n1 & He & H).
  apply defined_Val in He. destruct He as [_ ->].
  destruct e; [apply ret_Val in H; lia|].
  apply bind_Val in H. destruct H as (x & n2 & Hx & H).
  apply defined_Val in Hx. destruct Hx as [_ ->].
  apply bind_Val in H. destruct H as (q & n3 & Hq & H).
  apply defined_Val in Hq. destruct Hq as [_ ->].
  apply bind_Val in H. destruct H as (y & n4 & Hy & H).
  apply defined_Val in Hy. destruct Hy as [_ ->].
  apply greater_than_count in H. lia.
Qed.

(** X5. On a valid iterator [is_maximum p previous] is defined; when it
    returns it has made at most two comparisons, and it tells whether [p]
    is a local maximum of the sequence as it is ([previous] is [end()]) or
    as it will be once the node at [previous] is erased. *)
Theorem is_maximum_skips L j p n :
  nth_error L j = Some p ->
  (forall previous, is_maximum L (Some j) previous n <> UB) /\
  (forall previous b n', is_maximum L (Some j) previous n = Val b n' ->
     n <= n' <= n + 2) /\
  (forall b n', is_maximum L (Some j) None n = Val b n' ->
     (b = true <-> local_maximum L j p)) /\
  (forall k L' b n', j <> k -> remove_at k L = Some L' ->
     is_maximum L (Some j) (Some k) n = Val b n' ->
     (b = true <-> local_maximum L' (if j <? k then j else j - 1) p)).
Proof.
  intros Hp. split; [|split; [|split]].
  - intros previous. apply is_maximum_defined. eapply nth_error_lt; eauto.
  - intros previous b n' H. unfold is_maximum in H.
    apply bind_Val in H. destruct H as (g & n1 & Hg & H).
    apply greater_than_prev_count in Hg.
    destruct g; [apply greater_than_next_count in H|apply ret_Val in H]; lia.
  - intros b n' H. apply (is_maximum_Val _ _ _ _ _ _ _ Hp) in H. subst b.
    rewrite local_maximum_iff. tauto.
  - intros k L' b n' Hjk Hrm H.
    apply (is_maximum_Val _ _ _ _ _ _ _ Hp) in H. subst b.
    destruct (is_max_at_removed _ _ _ _ _ Hrm Hjk Hp) as [Hp' ->].
    rewrite local_maximum_iff. tauto.
Qed.

(** X6. [present_in_maxima_set p], for a stored point [p], is defined and
    tells, when it returns, whether [p] is in the maxima view. *)
Theorem present_in_maxima_set_spec s p n :
  reachable s -> In p (point_sequence s) ->
  present_in_maxima_set p (maxima s) n <> UB /\
  forall b n', present_in_maxima_set p (maxima s) n = Val b n' ->
               (b = true <-> In p (maxima_sequence s)).
Proof.
  intros Hr Hp. pose proof (reachable_wf _ Hr) as Hwf.
  split; [apply present_in_maxima_set_defined|].
  intros b n' H.
  apply (present_in_maxima p (maxima s) n b n' (wf_maxima _ Hwf)); auto.
  intros q Hq Hsame. symmetry.
  apply (sortedP_keys _ (wf_points _ Hwf)); auto.
  now apply (wf_within _ Hwf).
Qed.

(** X7. [conditional_add_new_maximum] has the strong guarantee: when a
    comparison throws in it the object is as it was; it returns at once,
    changing nothing, on [end()] and on [previous]; and it never touches
    the points. *)
Theorem conditional_add_strong_guarantee it i previous s n :
  (forall e s' n',
     conditional_add_new_maximum it i previous s n = Thrown e s' n' ->
     s' = s /\ exists u, e = UserExn u /\ V_throws (n' - 1) = Some u) /\
  (it = end_ s \/ it = previous ->
   conditional_add_new_maximum it i previous s n = Ret tt s n) /\
  (forall u s' n',
     conditional_add_new_maximum it i previous s n = Ret u s' n' ->
     points s' = points s).
Proof.
  split; [|split].
  - intros e s' n' H. split; [eapply conditional_add_Thrown; eauto|].
    pose proof (traced_conditional_add it i previous s n) as Ht.
    rewrite H in Ht. destruct Ht as (u & He & _ & Hu & _). eauto.
  - intros Hit. apply conditional_add_skip. apply orb_true_iff.
    destruct Hit as [->| ->]; [left; reflexivity|right; apply it_eqb_refl].
  - intros u s' n' H. unfold conditional_add_new_maximum in H.
    destruct (it_eqb it points_end || it_eqb it previous); [break H; auto|].
    break H. split_if H; break H; split_if H; break H; auto;
      repeat match goal with
        | Hm : option_map _ _ = Some _ |- _ =>
            let buf := fresh "buf" in let E := fresh "E" in
            apply option_map_Some in Hm; destruct Hm as (buf & E & ->)
        | Hi : maxima_insert_first _ _ _ = Ret _ _ _ |- _ =>
            apply maxima_insert_first_Ret in Hi; destruct Hi as (_ & ->)
        end; reflexivity.
Qed.

(** ** The two loops over the buffers *)

Lemma unlink_flagged_spec N flags slots
  (Hflags : forall m s, flags (set_maxima m s) = flags s)
  (Hslots : forall m s, slots (set_maxima m s) = slots s) s n :
  slots_ok N (flags s) (slots s) -> sortedM (maxima s) ->
  (forall q, In_flagged N (flags s) (slots s) q -> In q (maxima s)) ->
  exists s', unlink_flagged flags slots (seq 0 N) s n = Ret tt s' n /\
             s' = set_maxima (maxima s') s /\ sortedM (maxima s') /\
             forall x, In x (maxima s') <->
                       In x (maxima s) /\ ~ In_flagged N (flags s) (slots s) x.
Proof.
  intros Hok Hs Hsub.
  pose proof (unlink_flagged_slots_ok N flags slots Hflags Hslots s n
                Hok Hs Hsub) as Hd.
  destruct (unlink_flagged flags slots (seq 0 N) s n)
    as [[] s' n'|e s' n'|] eqn:H; [| |congruence].
  - destruct (unlink_flagged_members N flags slots Hflags Hslots
                _ _ _ _ Hs Hsub H) as (-> & Hset & Hs' & Hin).
    exists s'. auto.
  - destruct (unlink_flagged_Thrown _ _ _ _ _ _ _ _ H).
Qed.

(** X8. [erase_from_maxima], when every flagged slot of [to_erase] holds
    an iterator to a node of its own, neither throws nor compares: it
    returns with exactly the flagged nodes gone from the maxima, the
    points and the buffers as they were. *)
Theorem erase_from_maxima_spec s n :
  slots_ok NUMBER_TO_ERASE (if_erase s) (to_erase s) ->
  sortedM (maxima s) ->
  (forall q, ER s q -> In q (maxima s)) ->
  exists s', erase_from_maxima s n = Ret tt s' n /\
             s' = set_maxima (maxima s') s /\ sortedM (maxima s') /\
             forall x, In x (maxima s') <-> In x (maxima s) /\ ~ ER s x.
Proof.
  intros Hok Hs Hsub. rewrite erase_from_maxima_unfold.
  now apply (unlink_flagged_spec NUMBER_TO_ERASE if_erase to_erase).
Qed.

(** X9. [rollback_maxima], when every flagged slot of [to_rollback] holds
    an iterator to a node of its own, neither throws nor compares: it
    returns with exactly the flagged nodes gone from the maxima, the
    points and the buffers as they were. *)
Theorem rollback_maxima_spec s n :
  slots_ok NUMBER_TO_ROLLBACK (if_rollback s) (to_rollback s) ->
  sortedM (maxima s) ->
  (forall q, RB s q -> In q (maxima s)) ->
  exists s', rollback_maxima s n = Ret tt s' n /\
             s' = set_maxima (maxima s') s /\ sortedM (maxima s') /\
             forall x, In x (maxima s') <-> In x (maxima s) /\ ~ RB s x.
Proof.
  intros Hok Hs Hsub. rewrite rollback_maxima_unfold.
  now apply (unlink_flagged_spec NUMBER_TO_ROLLBACK if_rollback to_rollback).
Qed.

(** ** What a call does to the points *)

Definition equivalent_values (v w : V) : Prop :=
  V_lt v w = false /\ V_lt w v = false.

(** The points after a call that returned, from the points [M] before:
    [erase a] drops the point at [a]; [set_value a v] keeps a point at
    [a] whose value is equivalent to [v], and puts [(a, v)] otherwise. *)
Definition points_after (c : call) (M : point_type -> Prop)
                        (p : point_type) : Prop :=
  match c with
  | Erase a => M p /\ arg p <> a
  | SetValue a v =>
      (M p /\ arg p <> a) \/
      (M p /\ arg p = a /\ equivalent_values v (value p)) \/
      (p = mk_point a v /\
       forall q, M q -> arg q = a -> ~ equivalent_values v (value q))
  end.

Definition key (c : call) : A :=
  match c with SetValue a _ => a | Erase a => a end.

Lemma arg_eq_dec (a b : A) : a = b \/ a <> b.
Proof.
  destruct (A_lt a b) eqn:E1.
  - right. intros ->. rewrite A_lt_irrefl in E1. discriminate.
  - destruct (A_lt b a) eqn:E2.
    + right. intros ->. rewrite A_lt_irrefl in E2. discriminate.
    + left. now apply A_lt_total.
Qed.

Lemma same_node_false p q :
  same_node p q = false ->
  arg p = arg q -> ~ equivalent_values (value p) (value q).
Proof.
  intros H Ha [E1 E2]. apply not_true_iff_false in H. apply H.
  apply same_node_iff. auto.
Qed.

Lemma In_insert_at k (p : point_type) : forall l x,
  k <= length l -> (In x (insert_at k p l) <-> x = p \/ In x l).
Proof.
  induction k as [|k IH]; intros l x Hk.
  - simpl. intuition.
  - destruct l as [|q l]; simpl in Hk; [lia|]. simpl.
    rewrite IH by lia. intuition.
Qed.

Lemma In_overwritten (L L' : point_set) k new old :
  sortedP L -> nth_error L k = Some old ->
  (forall j, nth_error L' j = if j =? k then Some new else nth_error L j) ->
  forall x, In x L' <-> x = new \/ (In x L /\ arg x <> arg old).
Proof.
  intros Hs Hk H x. split.
  - intros Hx. apply In_nth_error in Hx. destruct Hx as [j Hj].
    rewrite H in Hj. destruct (Nat.eqb_spec j k) as [E|Hne].
    + left. congruence.
    + right. split; [eauto using nth_error_In|].
      intros Ha. apply Hne. eapply sortedP_inj; eauto.
  - intros [->|[Hx Ha]].
    + apply (nth_error_In _ k). rewrite H, Nat.eqb_refl. reflexivity.
    + apply In_nth_error in Hx. destruct Hx as [j Hj].
      apply (nth_error_In _ j). rewrite H.
      destruct (Nat.eqb_spec j k) as [E|Hne]; auto. congruence.
Qed.

Lemma set_value_members a v s s' :
  sortedP (points s) -> set_value_points a v s s' ->
  forall p, In p (points s') <->
            points_after (SetValue a v) (fun q => In q (points s)) p.
Proof.
  intros Hs H p. unfold set_value_points in H. unfold points_after.
  destruct (points_find a (points s)) as [k|] eqn:Ef.
  - destruct H as (old & Hk & Ha & [(H1 & H2 & ->)|(Hne & Hnth)]).
    + assert (Hold : In old (points s)) by eauto using nth_error_In.
      split.
      * intros Hp. destruct (arg_eq_dec (arg p) a) as [E|Hd].
        -- right. left. split; auto. split; auto.
           assert (p = old)
             by (apply (sortedP_unique _ _ _ Hs Hp Hold); congruence).
           subst p. split; auto.
        -- left. auto.
      * intros [[Hp _]|[(Hp & _)|[-> Hno]]]; auto.
        destruct (Hno old Hold Ha). split; auto.
    + rewrite (In_overwritten _ _ _ _ _ Hs Hk Hnth). rewrite Ha. split.
      * intros [->|[Hp Hpa]]; [|now left].
        right. right. split; auto. intros q Hq Hqa [E1 E2].
        assert (q = old).
        { apply (sortedP_unique _ _ _ Hs Hq); eauto using nth_error_In.
          congruence. }
        subst q. apply (same_node_false _ _ Hne); simpl; auto.
        split; auto.
      * intros [[Hp Hpa]|[(Hp & Hpa & E1 & E2)|[-> _]]]; auto.
        exfalso. assert (p = old).
        { apply (sortedP_unique _ _ _ Hs Hp); eauto using nth_error_In.
          congruence. }
        subst p. apply (same_node_false _ _ Hne); simpl; auto.
        split; auto.
  - pose proof (points_find_None _ _ Hs Ef) as Hno.
    rewrite H, In_insert_at by apply upper_bound_le. split.
    + intros [->|Hp]; [|left; split; auto; intros E; exact (Hno _ Hp E)].
      right. right. split; auto. intros q Hq Hqa. destruct (Hno _ Hq Hqa).
    + intros [[Hp _]|[(Hp & Hpa & _)|[-> _]]]; auto.
Qed.

Lemma erase_members a s s' :
  sortedP (points s) -> erase_points a s s' ->
  forall p, In p (points s') <->
            points_after (Erase a) (fun q => In q (points s)) p.
Proof.
  intros Hs H p. unfold erase_points in H. unfold points_after.
  destruct (points_find a (points s)) as [k|] eqn:Ef.
  - destruct (points_find_Some _ _ _ Ef) as (old & Hk & Ha).
    rewrite (remove_at_In _ _ _ H). split.
    + intros (j & Hj & Hp). split; [eauto using nth_error_In|].
      intros F. apply Hj. eapply sortedP_inj; eauto. congruence.
    + intros [Hp Hne]. apply In_nth_error in Hp. destruct Hp as [j Hj].
      exists j. split; auto. intros ->. congruence.
  - subst s'. pose proof (points_find_None _ _ Hs Ef) as Hno.
    split; [auto|tauto].
Qed.

(** The points after a call that returned. *)
Lemma run_points c s n u s' n' :
  wf s -> run c s n = Ret u s' n' ->
  wf s' /\
  forall p, In p (points s') <->
            points_after c (fun q => In q (points s)) p.
Proof.
  intros Hwf H. pose proof (wf_points _ Hwf) as Hs.
  destruct c as [a v|a]; simpl in H.
  - destruct (post_Ret _ _ _ _ _ _ _ _ (set_value_post a v s n Hwf) H)
      as [Hwf' Hpts]. split; auto. now apply set_value_members.
  - destruct (post_Ret _ _ _ _ _ _ _ _ (erase_post a s n Hwf) H)
      as [Hwf' Hpts]. split; auto. now apply erase_members.
Qed.

(** What [set_value] settles at its own argument. *)
Definition at_key (c : call) (M : point_type -> Prop) (p : point_type)
  : Prop :=
  match c with
  | Erase _ => False
  | SetValue a v =>
      (M p /\ equivalent_values v (value p)) \/
      (p = mk_point a v /\
       forall q, M q -> arg q = a -> ~ equivalent_values v (value q))
  end.

Lemma points_after_split c M p :
  points_after c M p <->
  (M p /\ arg p <> key c) \/ (arg p = key c /\ at_key c M p).
Proof.
  destruct c as [a v|a]; simpl.
  - split.
    + intros [H|[(H1 & H2 & H3)|[-> H]]]; [now left|right; auto|].
      right. simpl. auto.
    + intros [H|[H1 [[H2 H3]|[H2 H3]]]]; [now left|right; left; auto|].
      right. right. auto.
  - tauto.
Qed.

Lemma at_key_ext c (M M' : point_type -> Prop) p :
  (forall q, arg q = key c -> (M q <-> M' q)) -> arg p = key c ->
  (at_key c M p <-> at_key c M' p).
Proof.
  intros H Hp. destruct c as [a v|a]; simpl in *; [|tauto].
  rewrite (H p Hp). split; (intros [?|[-> Hno]]; [auto|right; split; auto]).
  - intros q Hq Hqa. apply (Hno q); auto. apply H; auto.
  - intros q Hq Hqa. apply (Hno q); auto. apply H; auto.
Qed.

Lemma points_after_other c (M : point_type -> Prop) q :
  arg q <> key c -> (points_after c M q <-> M q).
Proof. rewrite points_after_split. tauto. Qed.

Lemma points_after_ext c (M M' : point_type -> Prop) :
  (forall q, M q <-> M' q) -> forall p, points_after c M p <-> points_after c M' p.
Proof.
  intros H p. rewrite !points_after_split, (H p).
  destruct (arg_eq_dec (arg p) (key c)) as [E|E]; [|tauto].
  rewrite (at_key_ext c M M' p); [tauto| |exact E]. auto.
Qed.

Lemma points_after_comm c1 c2 (M : point_type -> Prop) p :
  key c1 <> key c2 ->
  (points_after c2 (points_after c1 M) p <->
   points_after c1 (points_after c2 M) p).
Proof.
  intros Hk.
  assert (H12 : forall q, arg q = key c2 -> (points_after c1 M q <-> M q)).
  { intros q Hq. apply points_after_other. congruence. }
  assert (H21 : forall q, arg q = key c1 -> (points_after c2 M q <-> M q)).
  { intros q Hq. apply points_after_other. congruence. }
  rewrite (points_after_split c2 (points_after c1 M)).
  rewrite (points_after_split c1 (points_after c2 M)).
  rewrite (points_after_split c1 M), (points_after_split c2 M).
  destruct (arg_eq_dec (arg p) (key c1)) as [E1|E1];
    destruct (arg_eq_dec (arg p) (key c2)) as [E2|E2];
    try (exfalso; congruence).
  - rewrite (at_key_ext c1 _ M p H21 E1). tauto.
  - rewrite (at_key_ext c2 _ M p H12 E2). tauto.
  - tauto.
Qed.

(** X10. A call that returned has changed nothing at the other
    arguments: [value_at b] answers as before for every [b] that is not
    the argument of the call. *)
Theorem other_arguments_untouched s c n u s' n' b :
  reachable s -> run c s n = Ret u s' n' -> b <> key c ->
  forall m, value_at b s' m = value_at b s m.
Proof.
  intros Hr H Hb m. pose proof (reachable_wf _ Hr) as Hwf.
  destruct (run_points c s n u s' n' Hwf H) as [Hwf' Hin].
  pose proof (wf_points _ Hwf) as Hs. pose proof (wf_points _ Hwf') as Hs'.
  destruct (points_find b (points s)) as [k|] eqn:Ef.
  - destruct (points_find_Some _ _ _ Ef) as (p & Hk & Ha).
    assert (Hp : In p (points s)) by eauto using nth_error_In.
    rewrite (value_at_present b s m p Hs Hp Ha).
    apply value_at_present; auto. apply Hin.
    apply points_after_other; [congruence|exact Hp].
  - pose proof (points_find_None _ _ Hs Ef) as Hno.
    rewrite (value_at_absent b s m Hs Hno).
    apply value_at_absent; auto. intros p Hp Ha. apply Hin in Hp.
    apply points_after_other in Hp; [|congruence]. exact (Hno _ Hp Ha).
Qed.

Lemma same_points_same_state s1 s2 :
  wf s1 -> wf s2 -> (forall p, In p (points s1) <-> In p (points s2)) ->
  point_sequence s1 = point_sequence s2 /\
  maxima_sequence s1 = maxima_sequence s2.
Proof.
  intros W1 W2 Hin.
  assert (E : points s1 = points s2).
  { apply sortedP_ext; auto; [apply W1|apply W2]. }
  split; [exact E|]. now apply wf_maxima_determined.
Qed.

(** X11. Calls on two different arguments commute: made in either order,
    when all four return, they leave the same point sequence and the same
    maxima sequence. *)
Theorem calls_on_distinct_arguments_commute
        s c1 c2 n1 u1 s1 m1 n2 u2 s2 m2 n3 u3 s3 m3 n4 u4 s4 m4 :
  reachable s -> key c1 <> key c2 ->
  run c1 s n1 = Ret u1 s1 m1 -> run c2 s1 n2 = Ret u2 s2 m2 ->
  run c2 s n3 = Ret u3 s3 m3 -> run c1 s3 n4 = Ret u4 s4 m4 ->
  point_sequence s2 = point_sequence s4 /\
  maxima_sequence s2 = maxima_sequence s4.
Proof.
  intros Hr Hk R1 R2 R3 R4. pose proof (reachable_wf _ Hr) as Hwf.
  destruct (run_points _ _ _ _ _ _ Hwf R1) as [W1 I1'].
  destruct (run_points _ _ _ _ _ _ W1 R2) as [W2 I2].
  destruct (run_points _ _ _ _ _ _ Hwf R3) as [W3 I3].
  destruct (run_points _ _ _ _ _ _ W3 R4) as [W4 I4].
  apply same_points_same_state; auto. intros p.
  rewrite I2, I4.
  rewrite (points_after_ext c2 _ _ I1' p), (points_after_ext c1 _ _ I3 p).
  now apply points_after_comm.
Qed.

(** X12. Giving a value to an argument that has none and erasing that
    argument again, when both calls return, restores the point sequence
    and the maxima sequence. *)
Theorem set_value_then_erase s a v n u s1 n1 n2 u2 s2 n3 :
  reachable s -> ~ defined_at a s ->
  set_value a v s n = Ret u s1 n1 -> erase a s1 n2 = Ret u2 s2 n3 ->
  point_sequence s2 = point_sequence s /\
  maxima_sequence s2 = maxima_sequence s.
Proof.
  intros Hr Hna R1 R2. pose proof (reachable_wf _ Hr) as Hwf.
  destruct (run_points (SetValue a v) _ _ _ _ _ Hwf R1) as [W1 I1'].
  destruct (run_points (Erase a) _ _ _ _ _ W1 R2) as [W2 I2].
  apply same_points_same_state; auto. intros p.
  rewrite I2. simpl. rewrite I1'. simpl. split.
  - intros [[[? _]|[(? & _)|[-> _]]] Hne]; auto. destruct Hne. reflexivity.
  - intros Hp. assert (Hne : arg p <> a).
    { intros E. apply Hna. exists p. auto. }
    auto.
Qed.

(** X13. Erasing an argument and giving it its old value again, when both
    calls return, restores the point sequence and the maxima sequence. *)
Theorem erase_then_set_value s a w n u s1 n1 n2 u2 s2 n3 :
  reachable s -> In (mk_point a w) (point_sequence s) ->
  erase a s n = Ret u s1 n1 -> set_value a w s1 n2 = Ret u2 s2 n3 ->
  point_sequence s2 = point_sequence s /\
  maxima_sequence s2 = maxima_sequence s.
Proof.
  intros Hr Hold R1 R2. pose proof (reachable_wf _ Hr) as Hwf.
  pose proof (wf_points _ Hwf) as Hs.
  destruct (run_points (Erase a) _ _ _ _ _ Hwf R1) as [W1 I1'].
  destruct (run_points (SetValue a w) _ _ _ _ _ W1 R2) as [W2 I2].
  apply same_points_same_state; auto. intros p.
  rewrite I2. simpl. rewrite !I1'. simpl. split.
  - intros [[[? _] _]|[([_ F] & E & _)|[-> _]]]; auto. congruence.
  - intros Hp. destruct (arg_eq_dec (arg p) a) as [E|E]; [|auto].
    right. right. split.
    + apply (sortedP_unique _ _ _ Hs Hp Hold). exact E.
    + intros q Hq Hqa. apply I1' in Hq. simpl in Hq. tauto.
Qed.

(** ** The maxima view holds current points only *)

Lemma sortedM_NoDup m : sortedM m -> NoDup m.
Proof.
  induction 1 as [|x l Hs IH Hall]; constructor; auto.
  rewrite Forall_forall in Hall. intros Hx. specialize (Hall _ Hx).
  rewrite maxima_before_irrefl in Hall. discriminate.
Qed.

Lemma wf_no_stale s :
  wf s ->
  (forall p, In p (maxima s) ->
     In p (points s) /\ forall n, value_at (arg p) s n = Val (value p) n) /\
  (forall p q, In p (maxima s) -> In q (maxima s) -> arg p = arg q -> p = q) /\
  NoDup (maxima s) /\ length (maxima s) <= length (points s).
Proof.
  intros Hwf. pose proof (wf_points _ Hwf) as Hs.
  pose proof (wf_within _ Hwf) as Hin.
  pose proof (sortedM_NoDup _ (wf_maxima _ Hwf)) as Hnd.
  split; [|split; [|split]]; auto.
  - intros p Hp. split; auto. intros n. apply value_at_present; auto.
  - intros p q Hp Hq. apply (sortedP_unique _ _ _ Hs); auto.
  - apply NoDup_incl_length; auto.
Qed.

(** X14. Every maximum is a point of the function as it is now:
    [value_at] of its argument returns its value; no argument and no
    point comes twice in the maxima view, which has at most [size()]
    elements. *)
Theorem maxima_are_current_points s :
  reachable s ->
  (forall p, In p (maxima_sequence s) ->
     In p (point_sequence s) /\
     forall n, value_at (arg p) s n = Val (value p) n) /\
  (forall p q, In p (maxima_sequence s) -> In q (maxima_sequence s) ->
               arg p = arg q -> p = q) /\
  NoDup (maxima_sequence s) /\
  length (maxima_sequence s) <= size s.
Proof. intros Hr. apply wf_no_stale. now apply reachable_wf. Qed.

(** ** Copies *)

Lemma copy_construct_wf s : wf s -> wf (copy_construct s).
Proof.
  intros Hwf. constructor; simpl; auto; try apply Hwf; apply repeat_length.
Qed.

Lemma swap_exchanges a b : swap a b = (b, a).
Proof. destruct a, b. reflexivity. Qed.

(** The objects a program can hold: constructed, copied, or left by a
    call that returned or threw. *)
Inductive obtainable : FM -> Prop :=
| ob_new : obtainable FunctionMaxima
| ob_copy s : obtainable s -> obtainable (copy_construct s)
| ob_ret c s n u s' n' :
    obtainable s -> run c s n = Ret u s' n' -> obtainable s'
| ob_thrown c s n e s' n' :
    obtainable s -> run c s n = Thrown e s' n' -> obtainable s'.

Lemma obtainable_wf s : obtainable s -> wf s.
Proof.
  induction 1 as [|s _ IH|c s n u s' n' _ IH H|c s n e s' n' _ IH H].
  - apply wf_new.
  - now apply copy_construct_wf.
  - exact (post_Ret _ _ _ _ _ _ _ _ (run_post c s n IH) H).
  - exact (post_Thrown _ _ _ _ _ _ _ _ (run_post c s n IH) H).
Qed.

Lemma store_nth {X} i (x : X) buf buf' :
  store i x buf = Some buf' ->
  length buf' = length buf /\ nth_error buf' i = Some x /\
  forall j, j <> i -> nth_error buf' j = nth_error buf j.
Proof.
  intros H. split; [eapply store_length; eauto|].
  eapply store_spec; eauto.
Qed.

(** X15. The invariants of an object reached by calls hold of every
    object got by copying as well, whatever calls were made before and
    after the copy: its maxima are its local maxima, in value-descending
    order, and its points are in ascending order of argument. *)
Theorem copies_keep_the_invariants s :
  obtainable s ->
  (forall p, In p (maxima_sequence s) <->
             exists i, local_maximum (point_sequence s) i p) /\
  StronglySorted value_desc_arg_asc (maxima_sequence s) /\
  StronglySorted arg_ascending (point_sequence s).
Proof.
  intros Ho. pose proof (obtainable_wf _ Ho) as Hwf. split; [|split].
  - apply (wf_I1 _ Hwf).
  - pose proof (wf_maxima _ Hwf) as Hsm. unfold maxima_sequence.
    clear -Hsm. induction Hsm as [|x l Hs IH Hall]; constructor; auto.
    rewrite Forall_forall in *. intros y Hy. apply maxima_before_iff. auto.
  - apply sortedP_StronglySorted. apply Hwf.
Qed.

(** X16. [x = y] makes [x] a copy of [y]: [x] gets the points and the
    maxima of [y] and fresh buffers, every other object (and [y]) is as
    it was, and nothing changes at all when [x] and [y] are one object.
    Objects that were obtainable stay so. *)
Theorem operator_assign_spec this rhs h t r :
  nth_error h this = Some t -> nth_error h rhs = Some r ->
  exists h' t',
    operator_assign this rhs h = Some h' /\
    length h' = length h /\
    (forall j, j <> this -> nth_error h' j = nth_error h j) /\
    nth_error h' this = Some t' /\
    point_sequence t' = point_sequence r /\
    maxima_sequence t' = maxima_sequence r /\
    (this = rhs -> h' = h) /\
    (this <> rhs -> t' = copy_construct r) /\
    (Forall obtainable h -> Forall obtainable h').
Proof.
  intros Ht Hr. unfold operator_assign.
  destruct (Nat.eqb_spec this rhs) as [->|Hne].
  - rewrite Hr. exists h, r. rewrite Hr in Ht. repeat split; auto.
    intros F. congruence.
  - rewrite Hr, Ht. rewrite swap_exchanges.
    destruct (store_defined this (copy_construct r) h) as [h' Hh'].
    { eapply nth_error_lt; eauto. }
    destruct (store_nth _ _ _ _ Hh') as (Hlen & Hthis & Hother).
    exists h', (copy_construct r). repeat split; auto; try congruence.
    intros Hall. apply Forall_forall. intros x Hx.
    apply In_nth_error in Hx. destruct Hx as [j Hj].
    rewrite Forall_forall in Hall.
    destruct (Nat.eq_dec j this) as [->|Hj'].
    + rewrite Hthis in Hj. injection Hj as <-. apply ob_copy.
      apply Hall. eapply nth_error_In; eauto.
    + rewrite Hother in Hj by assumption. apply Hall.
      eapply nth_error_In; eauto.
Qed.

(** ** The neighbours once a node is gone *)

Lemma nb_removed L k L' j p :
  remove_at k L = Some L' -> j <> k -> nth_error L j = Some p ->
  left_nb L j (Some k) = left_neighbor L' (if j <? k then j else j - 1) /\
  right_nb L j (Some k) = right_neighbor L' (if j <? k then j else j - 1).
Proof.
  intros Hrm Hjk Hp. destruct (remove_at_spec _ _ _ Hrm) as (_ & _ & Hnth).
  unfold left_nb, right_nb, left_neighbor, right_neighbor, it_eqb.
  destruct (Nat.ltb_spec j k) as [Hlt|Hge].
  - split.
    + destruct j as [|j1]; auto.
      destruct (Nat.eqb_spec j1 k); [lia|]. rewrite Hnth.
      destruct (Nat.ltb_spec j1 k); [auto|lia].
    + rewrite Hnth. destruct (Nat.eqb_spec (S j) k);
        destruct (Nat.ltb_spec (S j) k); auto; lia.
  - destruct j as [|j1]; [lia|]. simpl Nat.sub. rewrite Nat.sub_0_r. split.
    + destruct (Nat.eqb_spec j1 k) as [->|Hne].
      * destruct k as [|k1]; auto. rewrite Hnth.
        destruct (Nat.ltb_spec k1 (S k1)); [auto|lia].
      * destruct j1 as [|j2]; [lia|]. rewrite Hnth.
        destruct (Nat.ltb_spec j2 k); [lia|auto].
    + destruct (Nat.eqb_spec (S (S j1)) k); [lia|]. rewrite Hnth.
      destruct (Nat.ltb_spec (S j1) k); [lia|auto].
Qed.

Lemma multi_next_deref L j previous p :
  nth_error L j = Some p ->
  obind (multi_next L (Some j) previous) (deref L) = right_nb L j previous.
Proof.
  intros Hp. rewrite (multi_next_at _ _ _ _ Hp). unfold obind, right_nb.
  destruct (Nat.ltb_spec (S j) (length L)) as [H1|H1].
  - destruct (it_eqb (Some (S j)) previous); [|reflexivity].
    destruct (Nat.ltb_spec (S (S j)) (length L)) as [H2|H2]; [reflexivity|].
    cbn [deref]. symmetry. apply nth_error_None. lia.
  - cbn [deref]. destruct (it_eqb (Some (S j)) previous);
      symmetry; apply nth_error_None; lia.
Qed.

Lemma multi_prev_at L k j p :
  j <> k -> nth_error L j = Some p ->
  exists q, multi_prev L (Some j) (Some k) = Some q /\
    if (j =? 0) || ((j =? 1) && (k =? 0))
    then q = (if leftmost_is_root L then points_begin L else points_end)
    else deref L q = left_nb L j (Some k).
Proof.
  intros Hjk Hp. pose proof (nth_error_lt _ _ _ Hp) as Hlen.
  assert (Hne : L <> []) by (intros ->; simpl in Hlen; lia).
  assert (Hb : points_begin L = Some 0) by (destruct L; [easy|reflexivity]).
  rewrite Hb. unfold multi_prev. destruct j as [|i].
  - rewrite (prev_0 L Hne). unfold obind. cbn [Nat.eqb orb].
    destruct (leftmost_is_root L).
    + rewrite it_eqb_Some. destruct (Nat.eqb_spec 0 k); [lia|]. eauto.
    + change (it_eqb points_end (Some k)) with false. cbv iota. eauto.
  - rewrite (prev_S _ _ _ Hp). unfold obind, left_nb. rewrite it_eqb_Some.
    cbn [Nat.eqb orb].
    destruct (Nat.eqb_spec i k) as [<-|Hik].
    + destruct i as [|i'].
      * rewrite (prev_0 L Hne). cbn [Nat.eqb andb]. eauto.
      * destruct (nth_error_defined L (S i') ltac:(lia)) as [x Hx].
        rewrite (prev_S _ _ _ Hx). cbn [Nat.eqb andb]. eauto.
    + exists (Some i). split; auto.
      destruct i as [|i']; cbn [Nat.eqb andb]; auto.
      destruct (Nat.eqb_spec k 0); [lia|reflexivity].
Qed.

(** X17. The four [multi_] helpers see the sequence as it will be once the
    node at [previous] is erased: for a valid [p] other than [previous]
    they tell whether [p] will be first, whether it will be last, and
    reach the points that will be before and after it.  When [p] will be
    first, [multi_prev] decrements [begin()] and hands back what that
    gives, [begin()] or [end()]. *)
Theorem multi_helpers_skip L k L' j p :
  remove_at k L = Some L' -> j <> k -> nth_error L j = Some p ->
  let j' := if j <? k then j else j - 1 in
  nth_error L' j' = Some p /\
  multi_is_beginning L (Some j) (Some k) = Some (j' =? 0) /\
  multi_is_ending L (Some j) (Some k) = Some (j' =? length L' - 1) /\
  obind (multi_next L (Some j) (Some k)) (deref L) = right_neighbor L' j' /\
  exists q, multi_prev L (Some j) (Some k) = Some q /\
    if j' =? 0
    then q = (if leftmost_is_root L then points_begin L else points_end)
    else deref L q = left_neighbor L' j'.
Proof.
  intros Hrm Hjk Hp j'.
  destruct (remove_at_spec _ _ _ Hrm) as (Hlen & Hk & _).
  pose proof (nth_error_lt _ _ _ Hp) as Hj.
  destruct (is_max_at_removed _ _ _ _ _ Hrm Hjk Hp) as [Hp' _].
  destruct (nb_removed _ _ _ _ _ Hrm Hjk Hp) as [Hl Hr].
  destruct (multi_prev_at L k j p Hjk Hp) as (q & Hq & Hprev).
  fold j' in Hp', Hl, Hr.
  split; [exact Hp'|]. split; [|split; [|split]].
  - unfold multi_is_beginning.
    assert (Hb : points_begin L = Some 0) by (destruct L; [simpl in Hj; lia|reflexivity]).
    rewrite Hb. destruct j as [|i].
    + subst j'. simpl. destruct k; [lia|reflexivity].
    + change (it_eqb (Some (S i)) (Some 0)) with false. cbv iota.
      rewrite (prev_S _ _ _ Hp). unfold obind. rewrite !it_eqb_Some.
      subst j'.
      destruct (Nat.ltb_spec (S i) k); destruct (Nat.eqb_spec i k);
        destruct (Nat.eqb_spec i 0); cbn [andb]; try lia;
        f_equal; symmetry;
        first [apply Nat.eqb_neq; lia | apply Nat.eqb_eq; lia].
  - rewrite (multi_is_ending_at _ _ _ _ Hp), it_eqb_Some.
    subst j'.
    destruct (Nat.ltb_spec j k); destruct (Nat.eqb_spec j (length L - 1));
      destruct (Nat.eqb_spec (S j) k);
      destruct (Nat.eqb_spec (S j) (length L - 1)); cbn [andb orb]; try lia;
      f_equal; symmetry;
      first [apply Nat.eqb_neq; lia | apply Nat.eqb_eq; lia].
  - rewrite (multi_next_deref _ _ _ _ Hp). exact Hr.
  - exists q. split; [exact Hq|].
    assert (E : (j' =? 0) = ((j =? 0) || ((j =? 1) && (k =? 0)))).
    { subst j'. destruct (Nat.ltb_spec j k); destruct (Nat.eqb_spec j 0);
        destruct (Nat.eqb_spec j 1); destruct (Nat.eqb_spec k 0);
        cbn [andb orb]; try lia;
        first [apply Nat.eqb_neq; lia | apply Nat.eqb_eq; lia]. }
    rewrite E. destruct ((j =? 0) || ((j =? 1) && (k =? 0))); auto.
    now rewrite Hprev.
Qed.

(** ** The comparator of the maxima *)

Lemma compare_maxima_count p q n b n' :
  compare_maxima p q n = Val b n' -> n < n' <= n + 2.
Proof.
  unfold compare_maxima, bind, V_less, ret.
  destruct (V_throws n); [discriminate|].
  destruct (V_lt (value q) (value p)); [intros H; inversion H; lia|].
  destruct (V_throws (S n)); [discriminate|].
  destruct (V_lt (value p) (value q)); intros H; inversion H; lia.
Qed.

(** X18. [compare_maxima] is a strict weak order, as a [std::set] asks of
    its comparator: it is defined, makes one or two comparisons on [V],
    is irreflexive and transitive, and leaves two points unordered only
    when they have the same argument and equivalent values. *)
Theorem compare_maxima_is_an_order p q r n :
  compare_maxima p q n <> UB /\
  (forall b n', compare_maxima p q n = Val b n' ->
                b = maxima_before p q /\ n < n' <= n + 2) /\
  maxima_before p p = false /\
  (maxima_before p q = true -> maxima_before q r = true ->
   maxima_before p r = true) /\
  (maxima_before p q = false -> maxima_before q p = false ->
   arg p = arg q /\ equivalent_values (value p) (value q)).
Proof.
  split; [apply compare_maxima_defined|]. split; [|split; [|split]].
  - intros b n' H. split; [eapply compare_maxima_Val; eauto|].
    eapply compare_maxima_count; eauto.
  - apply maxima_before_irrefl.
  - apply maxima_before_trans.
  - intros H1 H2. apply same_node_iff. unfold same_node.
    now rewrite H1, H2.
Qed.

(** ** Calls on the first argument of the function

    [erase] then evaluates [prev(begin())], and [custom_insert]
    [prev(prev(it))] with [prev(it) == begin()]; what comes back goes to
    [conditional_add_new_maximum], which returns on line 201. *)

(** X19. [erase a], when [a] is the first argument of the function,
    returns unless a comparison throws, and the points it leaves are the
    others, in their order. *)
Theorem erase_of_first_argument_returns s a p n :
  reachable s -> nth_error (point_sequence s) 0 = Some p -> arg p = a ->
  (forall k, n <= k -> V_throws k = None) ->
  exists s' n', erase a s n = Ret tt s' n' /\
                point_sequence s' = tl (point_sequence s).
Proof.
  intros Hr Hp Ha Hq. pose proof (reachable_wf _ Hr) as Hwf.
  pose proof (points_find_present a (points s) 0 p (wf_points _ Hwf) Hp Ha)
    as Ef.
  destruct (run_returns (Erase a) s n (run_defined (Erase a) s n Hr) Hq)
    as (s' & n' & H).
  exists s', n'. split; [exact H|].
  destruct (post_Ret _ _ _ _ _ _ _ _ (erase_post a s n Hwf) H) as [_ Hpts].
  unfold erase_points in Hpts. rewrite Ef in Hpts.
  unfold point_sequence in *. destruct (points s); [discriminate|].
  simpl in Hpts. now injection Hpts as <-.
Qed.

(** X20. [set_value a v], when [a] is the first argument of the function
    and [v] is not equivalent to its value, returns unless a comparison
    throws, and the points it leaves are the new point followed by the
    others. *)
Theorem new_value_for_first_argument_returns s a v p n :
  reachable s -> nth_error (point_sequence s) 0 = Some p -> arg p = a ->
  ~ equivalent_values v (value p) ->
  (forall k, n <= k -> V_throws k = None) ->
  exists s' n', set_value a v s n = Ret tt s' n' /\
                point_sequence s' = mk_point a v :: tl (point_sequence s).
Proof.
  intros Hr Hp Ha Hne Hq. pose proof (reachable_wf _ Hr) as Hwf.
  pose proof (points_find_present a (points s) 0 p (wf_points _ Hwf) Hp Ha)
    as Ef.
  destruct (run_returns (SetValue a v) s n
              (run_defined (SetValue a v) s n Hr) Hq) as (s' & n' & H).
  exists s', n'. split; [exact H|].
  destruct (post_Ret _ _ _ _ _ _ _ _ (set_value_post a v s n Hwf) H)
    as [_ Hpts].
  unfold set_value_points in Hpts. rewrite Ef in Hpts.
  destruct Hpts as (old & Hold & _ & [(H1 & H2 & _)|(_ & Hnth)]).
  - unfold point_sequence in Hp. rewrite Hp in Hold. some_subst Hold.
    destruct Hne. split; assumption.
  - unfold point_sequence in *. apply nth_error_ext. intros j.
    rewrite Hnth. destruct j as [|j]; [reflexivity|].
    destruct (points s); [discriminate|reflexivity].
Qed.

Lemma reachable_obtainable s : reachable s -> obtainable s.
Proof.
  induction 1 as [|c s n u s' n' _ IH H|c s n e s' n' _ IH H].
  - apply ob_new.
  - eapply ob_ret; eauto.
  - eapply ob_thrown; eauto.
Qed.

(** ** The head of the maxima view *)

(** X21. [mx_begin()] is [mx_end()] exactly when the function is empty;
    otherwise it is the iterator to a stored point of greatest value,
    the one of smallest argument among the points of that value. *)
Theorem mx_begin_spec s :
  reachable s ->
  (mx_begin s = mx_end s <-> size s = 0) /\
  (forall m, mx_begin s = Some m ->
     In m (point_sequence s) /\
     forall p, In p (point_sequence s) ->
       V_lt (value m) (value p) = false /\
       (V_lt (value p) (value m) = false ->
        p = m \/ A_lt (arg m) (arg p) = true)).
Proof.
  intros Hr. pose proof (reachable_wf _ Hr) as Hwf.
  pose proof (wf_maxima _ Hwf) as Hsm.
  assert (Hgreatest : forall g, In g (points s) ->
            (forall p, In p (points s) -> V_lt (value g) (value p) = false) ->
            In g (maxima s)).
  { intros g Hg Hall. apply In_nth_error in Hg. destruct Hg as [i Hi].
    apply (wf_I1 _ Hwf). exists i. now apply greatest_is_local_maximum. }
  unfold mx_begin, mx_end, size, point_sequence. split.
  - split.
    + intros E. destruct (length (points s)) eqn:El; [reflexivity|].
      exfalso. destruct (exists_greatest (points s)) as (i & g & Hi & Hg).
      { intros F. rewrite F in El. discriminate. }
      assert (Hin : In g (maxima s)).
      { apply Hgreatest; eauto using nth_error_In. }
      destruct (maxima s); [destruct Hin|discriminate].
    + intros E. destruct (maxima s) as [|m l] eqn:Em; [reflexivity|].
      exfalso. assert (Hm : In m (points s)).
      { apply (wf_within _ Hwf). rewrite Em. now left. }
      destruct (points s); [destruct Hm|discriminate E].
  - intros m0 Hm.
    assert (Em : exists rest, maxima s = m0 :: rest).
    { destruct (maxima s) as [|x rest]; [discriminate|].
      some_subst Hm. eauto. }
    destruct Em as [rest Em]. clear Hm.
    assert (Hm : In m0 (points s)).
    { apply (wf_within _ Hwf). rewrite Em. now left. }
    split; [exact Hm|].
    destruct (exists_greatest (points s)) as (i & g & Hi & Hg).
    { intros F. rewrite F in Hm. destruct Hm. }
    assert (Hhead : forall x, In x (maxima s) ->
              x = m0 \/ maxima_before m0 x = true).
    { intros x Hx. pose proof Hsm as Hsm'. rewrite Em in Hx, Hsm'.
      destruct Hx as [<-|Hx]; auto.
      inversion Hsm' as [|? ? _ Hall]; subst. rewrite Forall_forall in Hall.
      auto. }
    assert (Hmg : V_lt (value m0) (value g) = false).
    { assert (Hgin : In g (maxima s))
        by (apply Hgreatest; eauto using nth_error_In).
      destruct (Hhead g Hgin) as [->|Hb].
      - apply V_lt_irrefl.
      - apply maxima_before_iff in Hb. destruct Hb as [Hlt|(? & _)]; auto.
        destruct (V_lt (value m0) (value g)) eqn:E; auto.
        pose proof (V_lt_trans _ _ _ Hlt E) as F.
        rewrite V_lt_irrefl in F. discriminate. }
    assert (Hall : forall p, In p (points s) ->
              V_lt (value m0) (value p) = false).
    { intros p Hp. exact (V_lt_incomparable _ _ _ Hmg (Hg p Hp)). }
    intros p Hp. split; [now apply Hall|]. intros Hpm.
    assert (Hpmax : In p (maxima s)).
    { apply Hgreatest; auto. intros q Hq.
      exact (V_lt_incomparable _ _ _ Hpm (Hall q Hq)). }
    destruct (Hhead p Hpmax) as [->|Hb]; [now left|]. right.
    apply maxima_before_iff in Hb.
    destruct Hb as [Hlt|(_ & _ & Ha)]; [congruence|exact Ha].
Qed.

End FunctionMaxima.

(** * What the decrement of [begin()] yields does not matter

    Two runs of the code that differ only in what the library hands back
    for [prev(begin())], [begin()] or [end()], are the same run: the
    iterator only ever goes to [conditional_add_new_maximum], which
    leaves at once on [end()] and on [previous]. *)

Section Decrement.
Local Open Scope fm_scope.

Variables A V U : Type.
Variable A_lt : A -> A -> bool.
Variable V_lt : V -> V -> bool.
Variable V_throws : nat -> option U.
Variables shape1 shape2 : point_set A V -> bool.

Lemma mbind_cong X Y (m1 m2 : M (exn U) (FM A V) X)
                 (k1 k2 : X -> M (exn U) (FM A V) Y) s n :
  m1 s n = m2 s n ->
  (forall x s' n', m2 s n = Ret x s' n' -> k1 x s' n' = k2 x s' n') ->
  mbind m1 k1 s n = mbind m2 k2 s n.
Proof. unfold mbind. intros -> H. destruct (m2 s n); auto. Qed.

Lemma try_catch_cong X (body1 body2 : M (exn U) (FM A V) X) handler s n :
  body1 s n = body2 s n ->
  try_catch_rethrow body1 handler s n = try_catch_rethrow body2 handler s n.
Proof. unfold try_catch_rethrow. now intros ->. Qed.

Lemma multi_is_beginning_any (l : point_set A V) p previous :
  multi_is_beginning shape1 l p previous
  = multi_is_beginning shape2 l p previous.
Proof.
  unfold multi_is_beginning.
  destruct (it_eqb p (points_begin l)) eqn:E; [reflexivity|].
  destruct p as [[|j]|]; try reflexivity.
  destruct l; [reflexivity|discriminate E].
Qed.

(** [skipped q previous]: line 201 returns on [q]. *)
Definition skipped (q previous : iterator) : bool :=
  it_eqb q points_end || it_eqb q previous.

Lemma prev_any (l : point_set A V) it :
  prev shape1 l it = prev shape2 l it \/
  exists q1 q2, prev shape1 l it = Some q1 /\ prev shape2 l it = Some q2 /\
                skipped q1 it = true /\ skipped q2 it = true.
Proof.
  destruct it as [[|j]|]; try (left; reflexivity).
  destruct l as [|x l]; [left; reflexivity|]. right.
  exists (if shape1 (x :: l) then Some 0 else points_end),
         (if shape2 (x :: l) then Some 0 else points_end).
  repeat split;
    [destruct (shape1 (x :: l))|destruct (shape2 (x :: l))]; reflexivity.
Qed.

Lemma multi_prev_any (l : point_set A V) it previous :
  it_eqb it (points_begin l) = false ->
  multi_prev shape1 l it previous = multi_prev shape2 l it previous \/
  exists q1 q2, multi_prev shape1 l it previous = Some q1 /\
                multi_prev shape2 l it previous = Some q2 /\
                skipped q1 previous = true /\ skipped q2 previous = true.
Proof.
  intros Hb. unfold multi_prev.
  assert (Hfirst : forall x r, l = x :: r ->
            it_eqb (Some 0) previous = true ->
            exists q1 q2,
              prev shape1 l (Some 0) = Some q1 /\
              prev shape2 l (Some 0) = Some q2 /\
              skipped q1 previous = true /\ skipped q2 previous = true).
  { intros x r -> Ep.
    exists (if shape1 (x :: r) then Some 0 else points_end),
           (if shape2 (x :: r) then Some 0 else points_end).
    repeat split;
      [destruct (shape1 (x :: r))|destruct (shape2 (x :: r))];
      unfold skipped; try reflexivity; rewrite Ep; reflexivity. }
  destruct it as [[|j]|].
  - destruct l; [left; reflexivity|discriminate Hb].
  - cbn [prev]. destruct (S j <? length l) eqn:El; [|left; reflexivity].
    cbn [obind]. destruct (it_eqb (Some j) previous) eqn:Ep;
      [|left; reflexivity].
    destruct j as [|j']; [|left; reflexivity].
    destruct l as [|x r]; [discriminate El|]. right. eapply Hfirst; eauto.
  - destruct l as [|x r]; [discriminate Hb|]. cbn [prev length obind].
    destruct (it_eqb (Some (length r)) previous) eqn:Ep;
      [|left; reflexivity].
    destruct r as [|y r']; [|left; reflexivity].
    right. eapply Hfirst; eauto.
Qed.

Lemma multi_prev_not_first (l : point_set A V) p previous :
  multi_is_beginning shape2 l p previous = Some false ->
  multi_prev shape1 l p previous = multi_prev shape2 l p previous.
Proof.
  unfold multi_is_beginning, multi_prev. destruct p as [[|j]|].
  - destruct l; [reflexivity|discriminate].
  - destruct (it_eqb (Some (S j)) (points_begin l)); [discriminate|].
    cbn [prev]. destruct (S j <? length l) eqn:El; [|reflexivity].
    cbn [obind]. destruct (it_eqb (Some j) previous) eqn:Ep; [|reflexivity].
    destruct j as [|j']; [|reflexivity].
    destruct l as [|x r]; [discriminate El|]. discriminate.
  - destruct l as [|x r]; [reflexivity|].
    change (it_eqb None (points_begin (x :: r))) with false. cbv iota.
    cbn [prev length obind].
    destruct (it_eqb (Some (length r)) previous) eqn:Ep; [|reflexivity].
    destruct r as [|y r']; [|reflexivity]. discriminate.
Qed.

Lemma greater_than_prev_any (l : point_set A V) p previous n :
  greater_than_prev V_lt V_throws shape1 l p previous n
  = greater_than_prev V_lt V_throws shape2 l p previous n.
Proof.
  unfold greater_than_prev, bind, defined.
  rewrite (multi_is_beginning_any l p previous).
  destruct (multi_is_beginning shape2 l p previous) as [[|]|] eqn:E;
    try reflexivity.
  rewrite (multi_prev_not_first l p previous E). reflexivity.
Qed.

Lemma is_maximum_any (l : point_set A V) p previous n :
  is_maximum V_lt V_throws shape1 l p previous n
  = is_maximum V_lt V_throws shape2 l p previous n.
Proof.
  unfold is_maximum, bind. rewrite greater_than_prev_any. reflexivity.
Qed.

Lemma conditional_add_any it i previous (s : FM A V) n :
  conditional_add_new_maximum A_lt V_lt V_throws shape1 it i previous s n
  = conditional_add_new_maximum A_lt V_lt V_throws shape2 it i previous s n.
Proof.
  unfold conditional_add_new_maximum.
  destruct (it_eqb it points_end || it_eqb it previous); [reflexivity|].
  apply mbind_cong; [|reflexivity].
  unfold run_const. now rewrite is_maximum_any.
Qed.

(** The third call of [conditional_add_new_maximum], on what
    [multi_prev] or [prev] gave. *)
Lemma third_step_any (f1 f2 : FM A V -> option iterator) previous s n :
  (f1 s = f2 s \/
   exists q1 q2, f1 s = Some q1 /\ f2 s = Some q2 /\
                 skipped q1 previous = true /\ skipped q2 previous = true) ->
  (pv <~ run_const (fun s => defined (f1 s)) ;;
   conditional_add_new_maximum A_lt V_lt V_throws shape1 pv 3 previous) s n
  = (pv <~ run_const (fun s => defined (f2 s)) ;;
     conditional_add_new_maximum A_lt V_lt V_throws shape2 pv 3 previous) s n.
Proof.
  intros [E|(q1 & q2 & E1 & E2 & S1 & S2)].
  - apply mbind_cong; [unfold run_const; now rewrite E|].
    intros pv s' n' _. apply conditional_add_any.
  - unfold mbind, run_const, defined. rewrite E1, E2.
    now rewrite !conditional_add_skip.
Qed.

Lemma custom_insert_try_any it previous found (s : FM A V) n :
  custom_insert_try A_lt V_lt V_throws shape1 it previous found s n
  = custom_insert_try A_lt V_lt V_throws shape2 it previous found s n.
Proof.
  unfold custom_insert_try.
  apply mbind_cong; [apply conditional_add_any|]. intros _ s1 n1 _.
  apply mbind_cong; [reflexivity|]. intros nx s2 n2 _.
  apply mbind_cong; [apply conditional_add_any|]. intros _ s3 n3 _.
  apply mbind_cong; [reflexivity|]. intros at_begin s4 n4 Hb.
  apply mbind_cong; [|reflexivity].
  destruct at_begin eqn:Eb; cbn [negb]; [reflexivity|].
  apply (third_step_any
           (fun s => multi_prev shape1 (points s) it previous)
           (fun s => multi_prev shape2 (points s) it previous)).
  apply multi_prev_any.
  unfold run_const, ret in Hb. injection Hb as Hb -> _. now symmetry.
Qed.

Lemma erase_try_any it it2 (s : FM A V) n :
  erase_try A_lt V_lt V_throws shape1 it it2 s n
  = erase_try A_lt V_lt V_throws shape2 it it2 s n.
Proof.
  unfold erase_try.
  apply mbind_cong; [reflexivity|]. intros _ s1 n1 _.
  apply mbind_cong; [reflexivity|]. intros nx s2 n2 _.
  apply mbind_cong; [apply conditional_add_any|]. intros _ s3 n3 _.
  apply (third_step_any (fun s => prev shape1 (points s) it)
                        (fun s => prev shape2 (points s) it)).
  apply prev_any.
Qed.

Lemma set_value_any a v (s : FM A V) n :
  set_value A_lt V_lt V_throws shape1 a v s n
  = set_value A_lt V_lt V_throws shape2 a v s n.
Proof.
  unfold set_value, custom_insert.
  apply mbind_cong; [reflexivity|]. intros previous s1 n1 _.
  apply mbind_cong; [reflexivity|]. intros same s2 n2 _.
  destruct same; [reflexivity|].
  apply mbind_cong; [reflexivity|]. intros it s3 n3 _.
  apply mbind_cong; [|reflexivity].
  apply try_catch_cong. apply custom_insert_try_any.
Qed.

Lemma erase_any a (s : FM A V) n :
  erase A_lt V_lt V_throws shape1 a s n
  = erase A_lt V_lt V_throws shape2 a s n.
Proof.
  unfold erase.
  apply mbind_cong; [reflexivity|]. intros it s1 n1 _.
  destruct (negb (it_eqb it points_end)); [|reflexivity].
  apply mbind_cong; [reflexivity|]. intros it2 s2 n2 _.
  apply mbind_cong; [|reflexivity].
  apply try_catch_cong. apply erase_try_any.
Qed.

Lemma run_any c (s : FM A V) n :
  run A V U A_lt V_lt V_throws shape1 c s n
  = run A V U A_lt V_lt V_throws shape2 c s n.
Proof. destruct c; [apply set_value_any|apply erase_any]. Qed.

End Decrement.

(** X22. Whether the library hands back [begin()] or [end()] for the
    decrement of [begin()] makes no difference: every call has the same
    outcome, on every object, and the objects that calls produce are the
    same. *)
Theorem decrement_of_begin_is_immaterial
    (A V U : Type) (A_lt : A -> A -> bool) (V_lt : V -> V -> bool)
    (V_throws : nat -> option U) (shape1 shape2 : point_set A V -> bool) :
  (forall c s n, run A V U A_lt V_lt V_throws shape1 c s n
                 = run A V U A_lt V_lt V_throws shape2 c s n) /\
  (forall s, reachable A V U A_lt V_lt V_throws shape1 s <->
             reachable A V U A_lt V_lt V_throws shape2 s).
Proof.
  assert (Hto : forall o1 o2 s,
            reachable A V U A_lt V_lt V_throws o1 s ->
            reachable A V U A_lt V_lt V_throws o2 s).
  { intros o1 o2 s H.
    induction H as [|c s n u s' n' _ IH H|c s n e s' n' _ IH H].
    - apply reach_new.
    - rewrite (run_any A V U A_lt V_lt V_throws o1 o2) in H.
      eapply reach_ret; eauto.
    - rewrite (run_any A V U A_lt V_lt V_throws o1 o2) in H.
      eapply reach_thrown; eauto. }
  split; [intros c s n; apply run_any|].
  intros s. split; apply Hto.
Qed.

(** * The four scenarios, on integers *)

Module Scenario.

Definition never_throws : nat -> option unit := fun _ => None.

(** The comparison on [V] that throws at its [k]-th invocation. *)
Definition throws_at (k : nat) : nat -> option unit :=
  fun n => if n =? k then Some tt else None.

Definition FMZ : Type := FM Z Z.
Definition pz (a v : Z) : point_type Z Z := mk_point a v.

Lemma Zlt_irrefl : forall a, Z.ltb a a = false.
Proof. intros a. apply Z.ltb_irrefl. Qed.

Lemma Zlt_trans :
  forall a b c, Z.ltb a b = true -> Z.ltb b c = true -> Z.ltb a c = true.
Proof. intros a b c. rewrite !Z.ltb_lt. lia. Qed.

Lemma Zlt_total : forall a b, Z.ltb a b = false -> Z.ltb b a = false -> a = b.
Proof. intros a b. rewrite !Z.ltb_ge. lia. Qed.

Lemma Zlt_incomparable :
  forall a b c, Z.ltb a b = false -> Z.ltb b c = false -> Z.ltb a c = false.
Proof. intros a b c. rewrite !Z.ltb_ge. lia. Qed.

(** What the decrement of [begin()] yields: [end()], as when the leftmost
    node of the tree is not its root, or [begin()], as when it is. *)
Definition to_end : point_set Z Z -> bool := fun _ => false.
Definition to_begin : point_set Z Z -> bool := fun _ => true.

Definition set_value_Z (th : nat -> option unit) (a v : Z)
  : M (exn unit) FMZ unit := set_value Z.ltb Z.ltb th to_end a v.
Definition erase_Z (th : nat -> option unit) (a : Z)
  : M (exn unit) FMZ unit := erase Z.ltb Z.ltb th to_end a.

Definition and_then (o : outcome (exn unit) FMZ unit)
                    (m : M (exn unit) FMZ unit) : outcome (exn unit) FMZ unit :=
  match o with
  | Ret _ s n => m s n
  | Thrown e s n => Thrown e s n
  | Undefined => Undefined
  end.

(** What the two iterations show after a call that returned. *)
Definition observe (o : outcome (exn unit) FMZ unit)
  : option (list (Z * Z) * list (Z * Z)) :=
  match o with
  | Ret _ s _ =>
      Some (map (fun p => (arg p, value p)) (point_sequence s),
            map (fun p => (arg p, value p)) (maxima_sequence s))
  | _ => None
  end.

Definition state_of (o : outcome (exn unit) FMZ unit) : FMZ :=
  match o with
  | Ret _ s _ | Thrown _ s _ => s
  | Undefined => FunctionMaxima Z Z
  end.

Definition step_A := set_value_Z never_throws 1 1 (FunctionMaxima Z Z) 0.
Definition step_B := and_then step_A (set_value_Z never_throws 2 2).
Definition step_C := and_then step_B (set_value_Z never_throws 3 1).
Definition step_D := and_then step_C (erase_Z never_throws 2).

Definition state_A : FMZ := Eval vm_compute in state_of step_A.
Definition state_B : FMZ := Eval vm_compute in state_of step_B.
Definition state_C : FMZ := Eval vm_compute in state_of step_C.
Definition state_D : FMZ := Eval vm_compute in state_of step_D.

(** C7. Scenarios A to D: the points and the maxima after each call. *)
Theorem scenarios_A_to_D :
  observe step_A = Some ([(1, 1)], [(1, 1)])%Z /\
  observe step_B = Some ([(1, 1); (2, 2)], [(2, 2)])%Z /\
  observe step_C = Some ([(1, 1); (2, 2); (3, 1)], [(2, 2)])%Z /\
  observe step_D = Some ([(1, 1); (3, 1)], [(1, 1); (3, 1)])%Z.
Proof. repeat split; vm_compute; reflexivity. Qed.

(** Where the code decrements [begin()]: erasing the first argument, and
    giving it another value.  The call returns, with the same result
    whether the decrement yields [end()] or [begin()]. *)
Definition step_E := and_then step_C (erase_Z never_throws 1).
Definition state_E : FMZ := Eval vm_compute in state_of step_E.
Definition step_F := and_then step_C (set_value_Z never_throws 1 5).
Definition state_F : FMZ := Eval vm_compute in state_of step_F.

Example erase_first_returns :
  observe step_E = Some ([(2, 2); (3, 1)], [(2, 2)])%Z /\
  erase Z.ltb Z.ltb never_throws to_begin 1%Z state_C 26
  = erase_Z never_throws 1 state_C 26.
Proof. split; vm_compute; reflexivity. Qed.

Example erase_only_point_returns :
  observe (and_then step_A (erase_Z never_throws 1)) = Some ([], []) /\
  erase Z.ltb Z.ltb never_throws to_begin 1%Z state_A 0
  = erase_Z never_throws 1 state_A 0.
Proof. split; vm_compute; reflexivity. Qed.

Example overwrite_first_returns :
  observe step_F = Some ([(1, 5); (2, 2); (3, 1)], [(1, 5)])%Z /\
  set_value Z.ltb Z.ltb never_throws to_begin 1%Z 5%Z state_C 26
  = set_value_Z never_throws 1 5 state_C 26.
Proof. split; vm_compute; reflexivity. Qed.

(** The states of the scenarios are reached whatever the comparison does
    from its 26th (44th) invocation on. *)
Lemma reach_A th : reachable Z Z unit Z.ltb Z.ltb th to_end state_A.
Proof.
  apply (reach_ret Z Z unit Z.ltb Z.ltb th to_end (SetValue Z Z 1%Z 1%Z)
           (FunctionMaxima Z Z) 0 tt state_A 0); [apply reach_new|reflexivity].
Defined.

Lemma reach_C : reachable Z Z unit Z.ltb Z.ltb never_throws to_end state_C.
Proof.
  apply (reach_ret Z Z unit Z.ltb Z.ltb never_throws to_end (SetValue Z Z 3%Z 1%Z)
           state_B 18 tt state_C 26); [|vm_compute; reflexivity].
  apply (reach_ret Z Z unit Z.ltb Z.ltb never_throws to_end (SetValue Z Z 2%Z 2%Z)
           state_A 0 tt state_B 18); [|vm_compute; reflexivity].
  apply reach_A.
Defined.

Lemma reach_C_throwing :
  reachable Z Z unit Z.ltb Z.ltb (throws_at 40) to_end state_C.
Proof.
  apply (reach_ret Z Z unit Z.ltb Z.ltb (throws_at 40) to_end (SetValue Z Z 3%Z 1%Z)
           state_B 18 tt state_C 26); [|vm_compute; reflexivity].
  apply (reach_ret Z Z unit Z.ltb Z.ltb (throws_at 40) to_end (SetValue Z Z 2%Z 2%Z)
           state_A 0 tt state_B 18); [|vm_compute; reflexivity].
  apply reach_A.
Defined.

Lemma reach_D : reachable Z Z unit Z.ltb Z.ltb never_throws to_end state_D.
Proof.
  apply (reach_ret Z Z unit Z.ltb Z.ltb never_throws to_end (Erase Z Z 2%Z)
           state_C 26 tt state_D 44); [apply reach_C|vm_compute; reflexivity].
Defined.

(** Scenario C with its first argument erased, and with another value
    for its first argument. *)
Lemma reach_E : reachable Z Z unit Z.ltb Z.ltb never_throws to_end state_E.
Proof.
  apply (reach_ret Z Z unit Z.ltb Z.ltb never_throws to_end (Erase Z Z 1%Z)
           state_C 26 tt state_E 32); [apply reach_C|vm_compute; reflexivity].
Defined.

Lemma reach_F : reachable Z Z unit Z.ltb Z.ltb never_throws to_end state_F.
Proof.
  apply (reach_ret Z Z unit Z.ltb Z.ltb never_throws to_end
           (SetValue Z Z 1%Z 5%Z) state_C 26 tt state_F 48);
    [apply reach_C|vm_compute; reflexivity].
Defined.

Lemma maxima_are_local_maxima_witness :
  reachable Z Z unit Z.ltb Z.ltb never_throws to_end state_F /\
  (In (pz 1 5) (maxima_sequence state_F) <->
   exists i, local_maximum Z Z Z.ltb (point_sequence state_F) i (pz 1 5)).
Proof.
  split; [apply reach_F|].
  apply (maxima_are_local_maxima Z Z unit Z.ltb Z.ltb never_throws to_end
           Zlt_irrefl Zlt_trans Zlt_total Zlt_irrefl Zlt_trans
           Zlt_incomparable state_F reach_F (pz 1 5)).
Defined.

(** [set_value 1 2] on the one point [(1, 1)], the first argument: the
    comparison that throws is one made by [maxima.find(p)], after the
    decrement of [begin()]. *)
Lemma comparison_failure_leaves_state_witness :
  reachable Z Z unit Z.ltb Z.ltb (throws_at 8) to_end state_A /\
  exists s',
    run Z Z unit Z.ltb Z.ltb (throws_at 8) to_end (SetValue Z Z 1%Z 2%Z)
        state_A 0
    = Thrown (UserExn tt) s' 9 /\
    point_sequence s' = point_sequence state_A /\
    maxima_sequence s' = maxima_sequence state_A /\
    exists u, UserExn tt = UserExn u /\ 0 < 9 /\
              throws_at 8 (9 - 1) = Some u /\
              quiet unit (throws_at 8) 0 (9 - 1).
Proof.
  split; [apply reach_A|].
  eexists. split; [vm_compute; reflexivity|].
  apply (proj1 (proj2 (comparison_failure_leaves_state Z Z unit Z.ltb Z.ltb
           (throws_at 8) to_end Zlt_irrefl Zlt_trans Zlt_total Zlt_irrefl
           Zlt_trans Zlt_incomparable state_A (SetValue Z Z 1%Z 2%Z) 0
           (reach_A (throws_at 8)))) (UserExn tt) _ 9).
  vm_compute. reflexivity.
Defined.

(** Against C3 as written: [erase 2] on the points of scenario C, with a
    comparison that throws at its 40th invocation, fails, and [2] keeps
    its value. *)
Lemma erase_can_fail :
  reachable Z Z unit Z.ltb Z.ltb (throws_at 40) to_end state_C /\
  exists s',
    erase_Z (throws_at 40) 2 state_C 26 = Thrown (UserExn tt) s' 41 /\
    value_at unit Z.ltb 2%Z s' 0 = Val 2%Z 0.
Proof.
  split; [apply reach_C_throwing|].
  eexists. split; vm_compute; reflexivity.
Qed.

Lemma erase_removes_or_propagates_witness :
  reachable Z Z unit Z.ltb Z.ltb never_throws to_end state_C /\
  erase_Z never_throws 1 state_C 26 = Ret tt state_E 32 /\
  (In (pz 2 2) (point_sequence state_E) <->
   In (pz 2 2) (point_sequence state_C) /\ arg (pz 2 2) <> 1%Z) /\
  value_at unit Z.ltb 1%Z state_E 0 = Exn InvalidArg 0.
Proof.
  split; [apply reach_C|]. split; [vm_compute; reflexivity|].
  destruct (proj1 (proj2
    (erase_removes_or_propagates Z Z unit Z.ltb Z.ltb never_throws to_end
       Zlt_irrefl Zlt_trans Zlt_total Zlt_irrefl Zlt_trans
       Zlt_incomparable state_C 1%Z reach_C)) 26 tt state_E 32) as [H1 H2].
  - vm_compute. reflexivity.
  - split; [apply H1|apply H2].
Defined.

Lemma set_value_equivalent_is_noop_witness :
  value_at unit Z.ltb 1%Z state_A 0 = Val 1%Z 0 /\
  Z.ltb 1 1 = false /\
  set_value_Z never_throws 1 1 state_A 0 = Ret tt state_A 2.
Proof.
  split; [reflexivity|]. split; [reflexivity|].
  apply (set_value_equivalent_is_noop Z Z unit Z.ltb Z.ltb never_throws to_end
           state_A 1%Z 1%Z 1%Z 0 0 0); reflexivity.
Defined.

Lemma set_value_then_value_at_witness :
  reachable Z Z unit Z.ltb Z.ltb never_throws to_end state_C /\
  set_value_Z never_throws 1 5 state_C 26 = Ret tt state_F 48 /\
  exists w, (forall m, value_at unit Z.ltb 1%Z state_F m = Val w m) /\
            Z.ltb 5 w = false /\ Z.ltb w 5 = false.
Proof.
  split; [apply reach_C|]. split; [vm_compute; reflexivity|].
  apply (proj1 (set_value_then_value_at Z Z unit Z.ltb Z.ltb never_throws
           to_end Zlt_irrefl Zlt_trans Zlt_total Zlt_irrefl Zlt_trans
           Zlt_incomparable state_C 1%Z 5%Z 26 reach_C)
           tt state_F 48).
  vm_compute. reflexivity.
Defined.


Lemma value_at_spec_witness :
  reachable Z Z unit Z.ltb Z.ltb never_throws to_end state_D /\
  (value_at unit Z.ltb 2%Z state_D 0 = Exn InvalidArg 0 <->
   ~ defined_at Z Z 2%Z state_D) /\
  value_at unit Z.ltb 3%Z state_D 0 = Val 1%Z 0.
Proof.
  split; [apply reach_D|].
  split.
  - apply (value_at_spec Z Z unit Z.ltb Z.ltb never_throws to_end
             Zlt_irrefl Zlt_trans Zlt_total Zlt_irrefl Zlt_trans
             Zlt_incomparable state_D 2%Z 0 reach_D).
  - apply (proj1 (proj2 (value_at_spec Z Z unit Z.ltb Z.ltb never_throws to_end
             Zlt_irrefl Zlt_trans Zlt_total Zlt_irrefl Zlt_trans
             Zlt_incomparable state_D 3%Z 0 reach_D)) (pz 3 1)).
    + right. left. reflexivity.
    + reflexivity.
Defined.

Lemma nonempty_has_maximum_witness :
  reachable Z Z unit Z.ltb Z.ltb never_throws to_end state_E /\
  0 < size state_E /\ maxima_sequence state_E <> [].
Proof.
  split; [apply reach_E|].
  assert (H : 0 < size state_E) by (vm_compute; lia).
  split; [exact H|].
  apply (nonempty_has_maximum Z Z unit Z.ltb Z.ltb never_throws to_end
           Zlt_irrefl Zlt_trans Zlt_total Zlt_irrefl Zlt_trans
           Zlt_incomparable state_E reach_E H).
Defined.

Lemma size_arithmetic_witness :
  reachable Z Z unit Z.ltb Z.ltb never_throws to_end state_C /\
  erase_Z never_throws 1 state_C 26 = Ret tt state_E 32 /\
  (defined_at Z Z 1%Z state_C -> S (size state_E) = size state_C).
Proof.
  split; [apply reach_C|]. split; [vm_compute; reflexivity|].
  apply (proj2 (size_arithmetic Z Z unit Z.ltb Z.ltb never_throws to_end
           Zlt_irrefl Zlt_trans Zlt_total Zlt_irrefl Zlt_trans
           Zlt_incomparable state_C 1%Z reach_C) 26 tt state_E 32).
  vm_compute. reflexivity.
Defined.

End Scenario.

(** * More of the interface, on integers *)

Module Extra.
Import Scenario.

Lemma find_spec_witness :
  reachable Z Z unit Z.ltb Z.ltb never_throws to_end state_D /\
  deref (points state_D) (find Z.ltb 3%Z state_D) = Some (pz 3 1).
Proof.
  split; [apply reach_D|].
  apply (proj1 (proj2 (find_spec Z Z unit Z.ltb Z.ltb never_throws to_end
           Zlt_irrefl Zlt_trans Zlt_total Zlt_irrefl Zlt_trans
           Zlt_incomparable state_D 3%Z reach_D)) (pz 3 1)).
  - right. left. reflexivity.
  - reflexivity.
Defined.

Lemma points_ascending_witness :
  reachable Z Z unit Z.ltb Z.ltb never_throws to_end state_F /\
  StronglySorted (arg_ascending Z Z Z.ltb) (point_sequence state_F).
Proof.
  split; [apply reach_F|].
  apply (proj1 (points_ascending Z Z unit Z.ltb Z.ltb never_throws to_end
           Zlt_irrefl Zlt_trans Zlt_total Zlt_irrefl Zlt_trans
           Zlt_incomparable state_F reach_F)).
Defined.

(** The points of scenario D, put in the other way round. *)
Definition step_3 := set_value_Z never_throws 3 1 (FunctionMaxima Z Z) 0.
Definition step_31 := and_then step_3 (set_value_Z never_throws 1 1).
Definition state_3 : FMZ := Eval vm_compute in state_of step_3.
Definition state_31 : FMZ := Eval vm_compute in state_of step_31.

Lemma reach_31 : reachable Z Z unit Z.ltb Z.ltb never_throws to_end state_31.
Proof.
  apply (reach_ret Z Z unit Z.ltb Z.ltb never_throws to_end (SetValue Z Z 1%Z 1%Z)
           state_3 0 tt state_31 16); [|vm_compute; reflexivity].
  apply (reach_ret Z Z unit Z.ltb Z.ltb never_throws to_end (SetValue Z Z 3%Z 1%Z)
           (FunctionMaxima Z Z) 0 tt state_3 0);
    [apply reach_new|vm_compute; reflexivity].
Defined.

Lemma maxima_determined_by_points_witness :
  reachable Z Z unit Z.ltb Z.ltb never_throws to_end state_D /\
  reachable Z Z unit Z.ltb Z.ltb never_throws to_end state_31 /\
  point_sequence state_D = point_sequence state_31 /\
  maxima_sequence state_D = maxima_sequence state_31.
Proof.
  split; [apply reach_D|]. split; [apply reach_31|].
  split; [reflexivity|].
  apply (maxima_determined_by_points Z Z unit Z.ltb Z.ltb never_throws to_end
           Zlt_irrefl Zlt_trans Zlt_total Zlt_irrefl Zlt_trans
           Zlt_incomparable state_D state_31 reach_D reach_31).
  reflexivity.
Defined.

Lemma is_maximum_skips_witness :
  nth_error (points state_C) 0 = Some (pz 1 1) /\
  (true = true <-> local_maximum Z Z Z.ltb [pz 1 1; pz 3 1] 0 (pz 1 1)).
Proof.
  split; [reflexivity|].
  apply (proj2 (proj2 (proj2
           (is_maximum_skips Z Z unit Z.ltb never_throws to_end (points state_C) 0
              (pz 1 1) 0
              eq_refl))) 1 [pz 1 1; pz 3 1] true 1).
  - discriminate.
  - reflexivity.
  - vm_compute. reflexivity.
Defined.

Lemma present_in_maxima_set_spec_witness :
  reachable Z Z unit Z.ltb Z.ltb never_throws to_end state_C /\
  In (pz 2 2) (point_sequence state_C) /\
  (true = true <-> In (pz 2 2) (maxima_sequence state_C)).
Proof.
  split; [apply reach_C|].
  assert (Hp : In (pz 2 2) (point_sequence state_C))
    by (right; left; reflexivity).
  split; [exact Hp|].
  apply (proj2 (present_in_maxima_set_spec Z Z unit Z.ltb Z.ltb never_throws to_end
           Zlt_irrefl Zlt_trans Zlt_total Zlt_irrefl Zlt_trans
           Zlt_incomparable state_C (pz 2 2) 0 reach_C Hp) true 4).
  vm_compute. reflexivity.
Defined.

(** Scenario C with the maximum [(2, 2)] noted for erasure in slot 0, and
    with it noted for rollback in slot 1. *)
Definition noted_for_erasure : FMZ :=
  mk_FM (points state_C) (maxima state_C)
        [Some (pz 2 2); None; None; None; None] (to_rollback state_C)
        [true; false; false; false; false] (if_rollback state_C).

Definition noted_for_rollback : FMZ :=
  mk_FM (points state_C) (maxima state_C)
        (to_erase state_C) [None; Some (pz 2 2); None; None]
        (if_erase state_C) [false; true; false; false].

Ltac by_slot i :=
  do 6 (try (destruct i as [|i])); simpl in *; try discriminate;
  try (destruct i; discriminate).

Lemma erase_from_maxima_spec_witness :
  slots_ok Z Z 5 (if_erase noted_for_erasure) (to_erase noted_for_erasure) /\
  exists s', erase_from_maxima unit Z.ltb Z.ltb noted_for_erasure 7 = Ret tt s' 7 /\
             forall x, In x (maxima s') <->
                       In x (maxima noted_for_erasure) /\
                       ~ ER Z Z noted_for_erasure x.
Proof.
  assert (Hok : slots_ok Z Z 5 (if_erase noted_for_erasure)
                         (to_erase noted_for_erasure)).
  { constructor; try reflexivity.
    - intros i H. by_slot i. eauto.
    - intros i j q Hi Hj. by_slot i; by_slot j. reflexivity. }
  split; [exact Hok|].
  destruct (erase_from_maxima_spec Z Z unit Z.ltb Z.ltb never_throws to_end
              Zlt_irrefl Zlt_total Zlt_irrefl Zlt_incomparable
              noted_for_erasure 7 Hok) as (s' & H1 & _ & _ & H2).
  - repeat constructor.
  - intros q (i & _ & Hf & Hq). by_slot i.
    injection Hq as <-. left. reflexivity.
  - exists s'. split; [exact H1|exact H2].
Defined.

Lemma rollback_maxima_spec_witness :
  slots_ok Z Z 4 (if_rollback noted_for_rollback) (to_rollback noted_for_rollback) /\
  exists s', rollback_maxima unit Z.ltb Z.ltb noted_for_rollback 7 = Ret tt s' 7 /\
             forall x, In x (maxima s') <->
                       In x (maxima noted_for_rollback) /\
                       ~ RB Z Z noted_for_rollback x.
Proof.
  assert (Hok : slots_ok Z Z 4 (if_rollback noted_for_rollback)
                         (to_rollback noted_for_rollback)).
  { constructor; try reflexivity.
    - intros i H. by_slot i. eauto.
    - intros i j q Hi Hj. by_slot i; by_slot j. reflexivity. }
  split; [exact Hok|].
  destruct (rollback_maxima_spec Z Z unit Z.ltb Z.ltb never_throws to_end
              Zlt_irrefl Zlt_total Zlt_irrefl Zlt_incomparable
              noted_for_rollback 7 Hok) as (s' & H1 & _ & _ & H2).
  - repeat constructor.
  - intros q (i & _ & Hf & Hq). by_slot i.
    injection Hq as <-. left. reflexivity.
  - exists s'. split; [exact H1|exact H2].
Defined.

(** The calls of these examples are on the first argument of the
    function. *)
Lemma other_arguments_untouched_witness :
  reachable Z Z unit Z.ltb Z.ltb never_throws to_end state_C /\
  run Z Z unit Z.ltb Z.ltb never_throws to_end (Erase Z Z 1%Z) state_C 26
  = Ret tt state_E 32 /\
  value_at unit Z.ltb 3%Z state_E 0 = value_at unit Z.ltb 3%Z state_C 0.
Proof.
  split; [apply reach_C|].
  assert (H : run Z Z unit Z.ltb Z.ltb never_throws to_end (Erase Z Z 1%Z)
                  state_C 26 = Ret tt state_E 32)
    by (vm_compute; reflexivity).
  split; [exact H|].
  apply (other_arguments_untouched Z Z unit Z.ltb Z.ltb never_throws to_end
           Zlt_irrefl Zlt_trans Zlt_total Zlt_irrefl Zlt_trans
           Zlt_incomparable state_C (Erase Z Z 1%Z) 26 tt state_E 32 3%Z
           reach_C H).
  discriminate.
Defined.

Lemma calls_on_distinct_arguments_commute_witness :
  reachable Z Z unit Z.ltb Z.ltb never_throws to_end state_C /\
  exists s2 s3 s4,
    run Z Z unit Z.ltb Z.ltb never_throws to_end (SetValue Z Z 3%Z 5%Z)
        state_E 32 = Ret tt s2 54 /\
    run Z Z unit Z.ltb Z.ltb never_throws to_end (SetValue Z Z 3%Z 5%Z)
        state_C 26 = Ret tt s3 49 /\
    run Z Z unit Z.ltb Z.ltb never_throws to_end (Erase Z Z 1%Z) s3 49
    = Ret tt s4 52 /\
    point_sequence s2 = point_sequence s4 /\
    maxima_sequence s2 = maxima_sequence s4.
Proof.
  split; [apply reach_C|].
  do 3 eexists.
  split; [vm_compute; reflexivity|].
  split; [vm_compute; reflexivity|].
  split; [vm_compute; reflexivity|].
  eapply (calls_on_distinct_arguments_commute Z Z unit Z.ltb Z.ltb
            never_throws to_end Zlt_irrefl Zlt_trans Zlt_total Zlt_irrefl
            Zlt_trans Zlt_incomparable state_C
            (Erase Z Z 1%Z) (SetValue Z Z 3%Z 5%Z)
            26 tt state_E 32 32 tt _ 54 26 tt _ 49 49 tt _ 52
            reach_C).
  - discriminate.
  - vm_compute. reflexivity.
  - vm_compute. reflexivity.
  - vm_compute. reflexivity.
  - vm_compute. reflexivity.
Defined.

Lemma set_value_then_erase_witness :
  reachable Z Z unit Z.ltb Z.ltb never_throws to_end state_E /\
  ~ defined_at Z Z 1%Z state_E /\
  exists s1 s2,
    set_value_Z never_throws 1 1 state_E 32 = Ret tt s1 40 /\
    erase_Z never_throws 1 s1 40 = Ret tt s2 46 /\
    point_sequence s2 = point_sequence state_E /\
    maxima_sequence s2 = maxima_sequence state_E.
Proof.
  split; [apply reach_E|].
  assert (Hna : ~ defined_at Z Z 1%Z state_E).
  { intros (p & [<-|[<-|[]]] & Ha); discriminate. }
  split; [exact Hna|].
  do 2 eexists.
  split; [vm_compute; reflexivity|].
  split; [vm_compute; reflexivity|].
  eapply (set_value_then_erase Z Z unit Z.ltb Z.ltb never_throws to_end
            Zlt_irrefl Zlt_trans Zlt_total Zlt_irrefl Zlt_trans
            Zlt_incomparable state_E 1%Z 1%Z 32 tt _ 40 40 tt _ 46
            reach_E Hna).
  - vm_compute. reflexivity.
  - vm_compute. reflexivity.
Defined.

Lemma erase_then_set_value_witness :
  reachable Z Z unit Z.ltb Z.ltb never_throws to_end state_C /\
  In (pz 1 1) (point_sequence state_C) /\
  erase_Z never_throws 1 state_C 26 = Ret tt state_E 32 /\
  exists s2,
    set_value_Z never_throws 1 1 state_E 32 = Ret tt s2 40 /\
    point_sequence s2 = point_sequence state_C /\
    maxima_sequence s2 = maxima_sequence state_C.
Proof.
  split; [apply reach_C|].
  assert (Hp : In (pz 1 1) (point_sequence state_C))
    by (left; reflexivity).
  split; [exact Hp|].
  split; [vm_compute; reflexivity|].
  eexists. split; [vm_compute; reflexivity|].
  eapply (erase_then_set_value Z Z unit Z.ltb Z.ltb never_throws to_end
            Zlt_irrefl Zlt_trans Zlt_total Zlt_irrefl Zlt_trans
            Zlt_incomparable state_C 1%Z 1%Z 26 tt state_E 32 32 tt _ 40
            reach_C Hp).
  - vm_compute. reflexivity.
  - vm_compute. reflexivity.
Defined.

Lemma maxima_are_current_points_witness :
  reachable Z Z unit Z.ltb Z.ltb never_throws to_end state_F /\
  length (maxima_sequence state_F) <= size state_F.
Proof.
  split; [apply reach_F|].
  apply (maxima_are_current_points Z Z unit Z.ltb Z.ltb never_throws to_end
           Zlt_irrefl Zlt_trans Zlt_total Zlt_irrefl Zlt_trans
           Zlt_incomparable state_F reach_F).
Defined.

Lemma copies_keep_the_invariants_witness :
  obtainable Z Z unit Z.ltb Z.ltb never_throws to_end
             (copy_construct state_E) /\
  StronglySorted (value_desc_arg_asc Z Z Z.ltb Z.ltb)
                 (maxima_sequence (copy_construct state_E)) /\
  StronglySorted (arg_ascending Z Z Z.ltb)
                 (point_sequence (copy_construct state_E)).
Proof.
  assert (Ho : obtainable Z Z unit Z.ltb Z.ltb never_throws to_end
                          (copy_construct state_E)).
  { apply ob_copy.
    exact (reachable_obtainable Z Z unit Z.ltb Z.ltb never_throws to_end
             state_E reach_E). }
  split; [exact Ho|].
  apply (proj2 (copies_keep_the_invariants Z Z unit Z.ltb Z.ltb never_throws
           to_end Zlt_irrefl Zlt_trans Zlt_total Zlt_irrefl Zlt_trans
           Zlt_incomparable (copy_construct state_E) Ho)).
Defined.

Lemma operator_assign_spec_witness :
  nth_error [state_A; state_C] 0 = Some state_A /\
  nth_error [state_A; state_C] 1 = Some state_C /\
  exists h' t',
    operator_assign 0 1 [state_A; state_C] = Some h' /\
    nth_error h' 0 = Some t' /\
    point_sequence t' = point_sequence state_C.
Proof.
  split; [reflexivity|]. split; [reflexivity|].
  destruct (operator_assign_spec Z Z unit Z.ltb Z.ltb never_throws to_end 0 1
              [state_A; state_C] state_A state_C eq_refl eq_refl)
    as (h' & t' & H1 & _ & _ & H2 & H3 & _).
  exists h', t'. auto.
Defined.

(** On the points of scenario C with the first one to be erased, [(2, 2)]
    will be first; the tree (root [(2, 2)]) has another leftmost node. *)
Lemma multi_helpers_skip_witness :
  remove_at 0 (points state_C) = Some [pz 2 2; pz 3 1] /\
  multi_is_beginning to_end (points state_C) (Some 1) (Some 0) = Some true /\
  obind (multi_next (points state_C) (Some 1) (Some 0))
        (deref (points state_C)) = Some (pz 3 1) /\
  multi_prev to_end (points state_C) (Some 1) (Some 0) = Some points_end.
Proof.
  split; [reflexivity|].
  destruct (multi_helpers_skip Z Z Z.ltb to_end (points state_C) 0
              [pz 2 2; pz 3 1] 1 (pz 2 2) eq_refl)
    as (_ & H1 & _ & H2 & q & H3 & H4).
  - discriminate.
  - reflexivity.
  - split; [exact H1|]. split; [exact H2|].
    simpl in H4. rewrite H3, H4. reflexivity.
Defined.

Lemma compare_maxima_is_an_order_witness :
  compare_maxima Z.ltb Z.ltb never_throws (pz 2 2) (pz 1 1) 0 <> UB /\
  maxima_before Z.ltb Z.ltb (pz 2 2) (pz 3 1) = true.
Proof.
  destruct (compare_maxima_is_an_order Z Z unit Z.ltb Z.ltb never_throws
              Zlt_irrefl Zlt_trans Zlt_total Zlt_irrefl Zlt_trans
              Zlt_incomparable (pz 2 2) (pz 1 1) (pz 3 1) 0)
    as (H1 & _ & _ & H2 & _).
  split; [exact H1|]. apply H2; reflexivity.
Defined.

Lemma erase_of_first_argument_returns_witness :
  reachable Z Z unit Z.ltb Z.ltb never_throws to_end state_C /\
  nth_error (point_sequence state_C) 0 = Some (pz 1 1) /\
  exists s' n', erase_Z never_throws 1 state_C 26 = Ret tt s' n' /\
                point_sequence s' = [pz 2 2; pz 3 1].
Proof.
  split; [apply reach_C|]. split; [reflexivity|].
  apply (erase_of_first_argument_returns Z Z unit Z.ltb Z.ltb never_throws
           to_end Zlt_irrefl Zlt_trans Zlt_total Zlt_irrefl Zlt_trans
           Zlt_incomparable state_C 1%Z (pz 1 1) 26 reach_C eq_refl eq_refl).
  intros k _. reflexivity.
Defined.

Lemma new_value_for_first_argument_returns_witness :
  reachable Z Z unit Z.ltb Z.ltb never_throws to_end state_C /\
  nth_error (point_sequence state_C) 0 = Some (pz 1 1) /\
  exists s' n', set_value_Z never_throws 1 5 state_C 26 = Ret tt s' n' /\
                point_sequence s' = [pz 1 5; pz 2 2; pz 3 1].
Proof.
  split; [apply reach_C|]. split; [reflexivity|].
  assert (Hne : ~ equivalent_values Z Z.ltb 5%Z (value (pz 1 1))).
  { intros [_ H]. discriminate. }
  apply (new_value_for_first_argument_returns Z Z unit Z.ltb Z.ltb
           never_throws to_end Zlt_irrefl Zlt_trans Zlt_total Zlt_irrefl
           Zlt_trans Zlt_incomparable state_C 1%Z 5%Z (pz 1 1) 26
           reach_C eq_refl eq_refl Hne).
  intros k _. reflexivity.
Defined.

Lemma mx_begin_spec_witness :
  reachable Z Z unit Z.ltb Z.ltb never_throws to_end state_F /\
  mx_begin state_F = Some (pz 1 5) /\
  Z.ltb (value (pz 1 5)) (value (pz 2 2)) = false.
Proof.
  split; [apply reach_F|]. split; [reflexivity|].
  destruct (proj2 (mx_begin_spec Z Z unit Z.ltb Z.ltb never_throws to_end
              Zlt_irrefl Zlt_trans Zlt_total Zlt_irrefl Zlt_trans
              Zlt_incomparable state_F reach_F) (pz 1 5) eq_refl)
    as [_ H].
  apply (H (pz 2 2)). right. left. reflexivity.
Defined.

End Extra.
